(** * coif-to-lsif: the graph emission engine of [src/lsif.ts]

    A shallow embedding of the converter's location utilities
    ([stringifyLocation], [parseFilePosition], [parseLocation]), of the
    correlation loops of [writeLSIF] and of the emission engine
    ([ffff], [emitDocsBegin], [emitDefsRefsHovers], [emitDocsEnd]),
    followed by the properties of the emitted stream.

    Conventions of the embedding:
    - a JavaScript string is a [string]; only ASCII white space is known to
      [parseInt];
    - a JavaScript [number] holding a line or a column is what [parseInt]
      returns: an integer that is a double ([Finite]), [NaN], or an
      infinity; [Int z] is the number nearest to the integer [z], the two
      zeros are one number; a number is printed as Number::toString
      prints it, with the shortest digits that denote it, in decimal below
      1e21 and with an exponent from there on;
    - the line and the column of an input line are integers of magnitude
      at most 2^53;
    - a [Map] or a [Set] is a list in insertion order (an association list
      for a [Map]), because the engine iterates them with [Array.from];
    - [emit] appends to the stream; a [throw] ends the run and keeps what was
      emitted before it;
    - the table [lines] is the list of its rows in insertion order; a
      [SELECT] without [ORDER BY] returns rows in the order of SQLite's
      scan, which is the order of the index of the UNIQUE constraint for
      the first and the third query and the order of the table for the
      second; the input files come as their parsed lines, the reading of
      files and [JSON.parse] being outside the embedding. *)

From Stdlib Require Import List String Ascii ZArith NArith Lia Bool Permutation
  Eqdep_dec.
Import ListNotations.
Local Open Scope list_scope.
Local Open Scope string_scope.

(** ** JavaScript strings *)

Module Js.

(** [s.split(sep)] for a one-character separator. *)
Fixpoint split (sep : ascii) (s : string) : list string :=
  match s with
  | EmptyString => [EmptyString]
  | String c s' =>
      if Ascii.eqb c sep then EmptyString :: split sep s'
      else match split sep s' with
           | [] => [String c EmptyString]
           | x :: xs => String c x :: xs
           end
  end.

(** [a.join(sep)]. *)
Fixpoint join (sep : string) (a : list string) : string :=
  match a with
  | [] => EmptyString
  | [x] => x
  | x :: xs => x ++ sep ++ join sep xs
  end.

(** A string without the occurrences of [c]. *)
Fixpoint remove_char (c : ascii) (s : string) : string :=
  match s with
  | EmptyString => EmptyString
  | String a s' =>
      if Ascii.eqb a c then remove_char c s' else String a (remove_char c s')
  end.

(** [s.includes(c)] for a character. *)
Fixpoint includes (c : ascii) (s : string) : bool :=
  match s with
  | EmptyString => false
  | String a s' => Ascii.eqb a c || includes c s'
  end.

(** *** Numbers *)

(** The numbers of the program are what [parseInt] returns and what a
    position holds: an integer that is a double, [NaN], or an infinity.
    The two zeros are one number. *)

(** The nearest integer with 53 significant bits, the even one of two. *)
Definition round53 (n : N) : N :=
  if (n <? 2 ^ 53)%N then n
  else
    let e := (N.log2 n - 52)%N in
    let q := (n / 2 ^ e)%N in
    let r := (n mod 2 ^ e)%N in
    if ((2 ^ (e - 1) <? r) || ((r =? 2 ^ (e - 1)) && N.odd q))%N
    then ((q + 1) * 2 ^ e)%N
    else (q * 2 ^ e)%N.

Definition round (z : Z) : Z :=
  if (z <? 0)%Z then (- Z.of_N (round53 (Z.abs_N z)))%Z
  else Z.of_N (round53 (Z.abs_N z)).

(** 2^1024: what rounds to it or above is infinite. *)
Definition overflow : N := Eval vm_compute in (2 ^ 1024)%N.

Definition is_double (z : Z) : bool :=
  (round z =? z)%Z && (Z.abs_N z <? overflow)%N.

Inductive number : Type :=
| Finite (z : Z) (H : is_double z = true)
| NaN
| Infinity (negative : bool).

(** The number of an integer: the integer rounded, or an infinity when
    that is 2^1024 or more ([Int_spec]). *)
Definition Int (z : Z) : number :=
  match bool_dec (is_double (round z)) true with
  | left H => Finite (round z) H
  | right _ => Infinity (z <? 0)%Z
  end.

Definition digit_char (d : N) : ascii := ascii_of_N (48 + d).

Definition digit_value (c : ascii) : option N :=
  let n := N_of_ascii c in
  if ((48 <=? n) && (n <=? 57))%N then Some (n - 48)%N else None.

(** Decimal digits of [n], most significant first, in front of [acc]. *)
Fixpoint digits_aux (fuel : nat) (n : N) (acc : string) : string :=
  match fuel with
  | O => acc
  | S f =>
      let acc' := String (digit_char (n mod 10)) acc in
      if (n / 10 =? 0)%N then acc' else digits_aux f (n / 10) acc'
  end.

Definition string_of_N (n : N) : string :=
  digits_aux (S (N.to_nat (N.log2 n))) n EmptyString.

Definition string_of_Z (z : Z) : string :=
  if (z <? 0)%Z then String "-" (string_of_N (Z.abs_N z))
  else string_of_N (Z.abs_N z).

(** Number::toString, step 5: among the multiples of a power of ten that
    round to [n], one of a largest power, the nearest to [n] of two and the
    one with an even last digit when they are as near; its digits without
    the zeros at the end are the shortest that denote [n]. *)
Fixpoint shortest_aux (n : N) (p : nat) : N :=
  let u := (10 ^ N.of_nat p)%N in
  let a := (n / u * u)%N in
  let b := (a + u)%N in
  match (round53 a =? n)%N, (round53 b =? n)%N with
  | true, true =>
      if (n - a <? b - n)%N then a
      else if (b - n <? n - a)%N then b
      else if N.even (n / u) then a else b
  | true, false => a
  | false, true => b
  | false, false =>
      match p with
      | O => n
      | S p' => shortest_aux n p'
      end
  end.

Definition shortest (n : N) : N :=
  shortest_aux n (String.length (string_of_N n)).

(** A string of digits without the zeros at its end. *)
Fixpoint strip_zeros (s : string) : string :=
  match s with
  | EmptyString => EmptyString
  | String c s' =>
      match strip_zeros s' with
      | EmptyString =>
          if Ascii.eqb c "0" then EmptyString else String c EmptyString
      | t => String c t
      end
  end.

(** Steps 7 to 11: the first digit, the other digits after a point when
    there are any, and the exponent. *)
Definition exponent_form (v : N) : string :=
  match string_of_N v with
  | EmptyString => EmptyString
  | String d r =>
      let e := "e+" ++ string_of_N (N.of_nat (String.length r)) in
      match strip_zeros r with
      | EmptyString => String d e
      | t => String d (String "." (t ++ e))
      end
  end.

(** 1e21: from there on a number is printed with an exponent. *)
Definition decimal_limit : N := 1000000000000000000000.

Definition format (v : N) : string :=
  if (v <? decimal_limit)%N then string_of_N v else exponent_form v.

(** [`${x}`] for a number. *)
Definition toString (x : number) : string :=
  match x with
  | Finite z _ =>
      if (z <? 0)%Z then String "-" (format (shortest (Z.abs_N z)))
      else format (shortest (Z.abs_N z))
  | NaN => "NaN"
  | Infinity negative => if negative then "-Infinity" else "Infinity"
  end.

(** StrWhiteSpaceChar, the ASCII part: TAB, LF, VT, FF, CR, SP. *)
Definition is_white_space (c : ascii) : bool :=
  let n := N_of_ascii c in
  (((9 <=? n) && (n <=? 13)) || (n =? 32))%N.

Fixpoint trimStart (s : string) : string :=
  match s with
  | EmptyString => EmptyString
  | String c s' => if is_white_space c then trimStart s' else s
  end.

Fixpoint parse_digits (s : string) (acc : option N) : option N :=
  match s with
  | EmptyString => acc
  | String c s' =>
      match digit_value c with
      | Some d =>
          parse_digits s'
            (Some (10 * match acc with Some a => a | None => 0 end + d)%N)
      | None => acc
      end
  end.

Definition strip_sign (t : string) : bool * string :=
  match t with
  | String "-" r => (true, r)
  | String "+" r => (false, r)
  | _ => (false, t)
  end.

(** [parseInt(s, 10)]: leading white space, an optional sign, then the
    longest run of digits, as the number nearest to the integer they
    denote; [NaN] when there is no digit. *)
Definition parseInt (s : string) : number :=
  let '(negative, body) := strip_sign (trimStart s) in
  match parse_digits body None with
  | None => NaN
  | Some n => Int (if negative then - Z.of_N n else Z.of_N n)
  end.

Definition is_digit (c : ascii) : bool :=
  match digit_value c with Some _ => true | None => false end.

Fixpoint all_digits (s : string) : bool :=
  match s with
  | EmptyString => true
  | String c s' => is_digit c && all_digits s'
  end.

(** A non-negative integer. *)
Definition is_natural (x : number) : bool :=
  match x with
  | Finite z _ => (0 <=? z)%Z
  | _ => false
  end.

(** [x < bound] for an integer [bound]. *)
Definition ltb (x : number) (bound : Z) : bool :=
  match x with
  | Finite z _ => (z <? bound)%Z
  | NaN => false
  | Infinity negative => negative
  end.

(** An integer of magnitude at most 2^53.  It is a double, and so is one
    less, [-2^53 - 1] being rounded to [-2^53]. *)
Definition is_safe (z : Z) : bool := (Z.abs z <=? 2 ^ 53)%Z.

(** A canonical array index: the decimal form of an integer below 2^32 - 1.
    Own property keys of this form come first when an object is enumerated. *)
Definition array_index (k : string) : option N :=
  match parse_digits k None with
  | Some n =>
      if (String.eqb (string_of_N n) k && (n <? 4294967295)%N)%bool
      then Some n else None
  | None => None
  end.

End Js.

(** ** Collections: [Set] and [Map] keep insertion order *)

Module JsSet.

Definition t : Type := list string.

Definition empty : t := [].

Definition has (x : string) (s : t) : bool :=
  existsb (String.eqb x) s.

(** [s.add(x)]: a new element goes last, a known one changes nothing. *)
Definition add (x : string) (s : t) : t :=
  if has x s then s else (s ++ [x])%list.

(** [Array.from(s)], also [Array.from(s.keys())]. *)
Definition toArray (s : t) : list string := s.

End JsSet.

Module JsMap.

Definition t (V : Type) : Type := list (string * V).

Definition empty {V : Type} : t V := [].

Fixpoint get {V : Type} (k : string) (m : t V) : option V :=
  match m with
  | [] => None
  | (k', v) :: m' => if String.eqb k' k then Some v else get k m'
  end.

(** [m.set(k, v)]: a known key keeps its place, a new key goes last. *)
Fixpoint set {V : Type} (k : string) (v : V) (m : t V) : t V :=
  match m with
  | [] => [(k, v)]
  | (k', v') :: m' =>
      if String.eqb k' k then (k, v) :: m' else (k', v') :: set k v m'
  end.

Definition keys {V : Type} (m : t V) : list string := map fst m.

Definition entries {V : Type} (m : t V) : list (string * V) := m.

End JsMap.

(** ** Errors and results *)

Inductive Error : Type :=
| GlobDidNotMatch (inFileGlob : string)
| UnableToLookUpLoc (range : string)
| UnableToLookUpDef
| RangesByDocMissing (doc : string)
| ExpectedPathLineColumn (value : string)
| ExpectedSameFile (start end_ : string).

Inductive result (A : Type) : Type :=
| Ok (a : A)
| Throw (e : Error).

Arguments Ok {A} a.
Arguments Throw {A} e.

Definition result_bind {A B : Type} (r : result A) (k : A -> result B)
  : result B :=
  match r with
  | Ok a => k a
  | Throw e => Throw e
  end.

(** ** lodash: [groupBy] and [toPairs] *)

Module Lodash.

(** A plain object: its own properties in creation order. *)
Definition Dictionary (V : Type) : Type := list (string * V).

(** [result[key].push(value)] when [key] is an own property, else
    [result[key] = [value]]. *)
Fixpoint assign_push {A : Type} (key : string) (value : A)
    (d : Dictionary (list A)) : Dictionary (list A) :=
  match d with
  | [] => [(key, [value])]
  | (k, vs) :: d' =>
      if String.eqb k key then (k, (vs ++ [value])%list) :: d'
      else (k, vs) :: assign_push key value d'
  end.

Fixpoint groupBy_into {A : Type} (acc : Dictionary (list A))
    (collection : list A) (iteratee : A -> result string)
  : result (Dictionary (list A)) :=
  match collection with
  | [] => Ok acc
  | x :: xs =>
      result_bind (iteratee x)
        (fun key => groupBy_into (assign_push key x acc) xs iteratee)
  end.

(** [groupBy(collection, iteratee)]; a throwing iteratee ends it. *)
Definition groupBy {A : Type} (collection : list A)
    (iteratee : A -> result string) : result (Dictionary (list A)) :=
  groupBy_into [] collection iteratee.

Fixpoint insert_index {V : Type} (n : N) (e : string * V)
    (l : list (N * (string * V))) : list (N * (string * V)) :=
  match l with
  | [] => [(n, e)]
  | (m, e') :: l' =>
      if (n <? m)%N then (n, e) :: l else (m, e') :: insert_index n e l'
  end.

(** The array-index properties in ascending order. *)
Fixpoint index_properties {V : Type} (d : Dictionary V)
  : list (N * (string * V)) :=
  match d with
  | [] => []
  | (k, v) :: d' =>
      match Js.array_index k with
      | Some n => insert_index n (k, v) (index_properties d')
      | None => index_properties d'
      end
  end.

Definition is_index {V : Type} (e : string * V) : bool :=
  match Js.array_index (fst e) with Some _ => true | None => false end.

(** [toPairs(object)]: own enumerable properties in the order of
    [Object.keys]: array indices ascending, then the other keys in
    creation order. *)
Definition toPairs {V : Type} (d : Dictionary V) : list (string * V) :=
  (map snd (index_properties d)
     ++ filter (fun e => negb (is_index e)) d)%list.

End Lodash.

(** ** The protocol's items *)

Module Lsp.

Record Position : Type := { line : Js.number; character : Js.number }.

Record Range : Type := { start : Position; end_ : Position }.

Record Location : Type := { uri : string; range : Range }.

End Lsp.

Definition Id : Type := string.

Inductive ElementTypes : Type := vertex | edge.

Inductive VertexLabels : Type :=
| VL_metaData | VL_project | VL_event | VL_document | VL_range
| VL_resultSet | VL_moniker | VL_packageInformation
| VL_definitionResult | VL_hoverResult | VL_referenceResult.

Inductive EdgeLabels : Type :=
| EL_contains | EL_next | EL_item | EL_moniker | EL_packageInformation
| EL_textDocument_definition | EL_textDocument_hover
| EL_textDocument_references.

Inductive EventKind : Type := EK_begin | EK_end.

Inductive EventScope : Type := ES_project | ES_document.

Inductive MonikerKind : Type := import | export.

Inductive ItemEdgeProperties : Type := definitions | references.

Record ToolInfo : Type :=
  { name : string; args : list string; tool_version : string }.

(** One constructor for each shape of item the engine emits; [type] and
    [label] are fixed by the shape. *)
Inductive Item : Type :=
| MetaData (id : Id) (projectRoot version positionEncoding : string)
    (toolInfo : ToolInfo)
| Project (id : Id) (kind : string)
| Event (id : Id) (data : Id) (kind : EventKind) (scope : EventScope)
| Document (id : Id) (uri languageId contents : string)
| Range (id : Id) (range : Lsp.Range)
| ResultSet (id : Id)
| Moniker (id : Id) (identifier : string) (kind : MonikerKind)
    (scheme : string)
| PackageInformation (id : Id) (manager name version : string)
| DefinitionResult (id : Id)
| HoverResult (id : Id) (contents : string)
| ReferenceResult (id : Id)
| contains (id : Id) (outV : Id) (inVs : list Id)
| next (id : Id) (outV inV : Id)
| moniker (id : Id) (inV outV : Id)
| packageInformation (id : Id) (inV outV : Id)
| textDocument_definition (id : Id) (outV inV : Id)
| textDocument_hover (id : Id) (outV inV : Id)
| textDocument_references (id : Id) (outV inV : Id)
| item (id : Id) (outV : Id) (inVs : list Id)
    (property : option ItemEdgeProperties) (document : Id).

Definition id_of (i : Item) : Id :=
  match i with
  | MetaData id _ _ _ _ | Project id _ | Event id _ _ _
  | Document id _ _ _ | Range id _ | ResultSet id | Moniker id _ _ _
  | PackageInformation id _ _ _ | DefinitionResult id | HoverResult id _
  | ReferenceResult id | contains id _ _ | next id _ _ | moniker id _ _
  | packageInformation id _ _ | textDocument_definition id _ _
  | textDocument_hover id _ _ | textDocument_references id _ _
  | item id _ _ _ _ => id
  end.

Definition label_of (i : Item) : VertexLabels + EdgeLabels :=
  match i with
  | MetaData _ _ _ _ _ => inl VL_metaData
  | Project _ _ => inl VL_project
  | Event _ _ _ _ => inl VL_event
  | Document _ _ _ _ => inl VL_document
  | Range _ _ => inl VL_range
  | ResultSet _ => inl VL_resultSet
  | Moniker _ _ _ _ => inl VL_moniker
  | PackageInformation _ _ _ _ => inl VL_packageInformation
  | DefinitionResult _ => inl VL_definitionResult
  | HoverResult _ _ => inl VL_hoverResult
  | ReferenceResult _ => inl VL_referenceResult
  | contains _ _ _ => inr EL_contains
  | next _ _ _ => inr EL_next
  | moniker _ _ _ => inr EL_moniker
  | packageInformation _ _ _ => inr EL_packageInformation
  | textDocument_definition _ _ _ => inr EL_textDocument_definition
  | textDocument_hover _ _ _ => inr EL_textDocument_hover
  | textDocument_references _ _ _ => inr EL_textDocument_references
  | item _ _ _ _ _ => inr EL_item
  end.

Definition type_of (i : Item) : ElementTypes :=
  match label_of i with inl _ => vertex | inr _ => edge end.

(** ** The emitter: a stream of items and a result *)

Definition Emitter (A : Type) : Type := (list Item * result A)%type.

Definition ret {A : Type} (a : A) : Emitter A := ([], Ok a).

Definition throw {A : Type} (e : Error) : Emitter A := ([], Throw e).

(** [await emit(i)] with a sink that stores the item. *)
Definition emit (i : Item) : Emitter unit := ([i], Ok tt).

Definition bind {A B : Type} (m : Emitter A) (k : A -> Emitter B)
  : Emitter B :=
  match m with
  | (out, Throw e) => (out, Throw e)
  | (out, Ok a) => let '(out', r) := k a in ((out ++ out')%list, r)
  end.

Definition lift {A : Type} (r : result A) : Emitter A := ([], r).

Declare Scope emitter_scope.
Delimit Scope emitter_scope with emitter.
Notation "x <- m ;; k" := (bind m (fun x => k))
  (at level 61, m at next level, right associativity) : emitter_scope.
Notation "m ;; k" := (bind m (fun _ => k))
  (at level 61, right associativity) : emitter_scope.
Local Open Scope emitter_scope.

(** [for (const x of xs) { body }]. *)
Fixpoint for_of {A : Type} (xs : list A) (body : A -> Emitter unit)
  : Emitter unit :=
  match xs with
  | [] => ret tt
  | x :: xs' => body x ;; for_of xs' body
  end.

(** The items of a run, whether it ended normally or by a throw. *)
Definition emitted {A : Type} (m : Emitter A) : list Item := fst m.

Definition succeeds {A : Type} (m : Emitter A) : Prop :=
  exists a, snd m = Ok a.

(** ** Locations as strings *)

Record FilePosition : Type :=
  { fp_uri : string; position : Lsp.Position }.

Definition stringifyLocation (loc : Lsp.Location) : string :=
  Lsp.uri loc ++ ":" ++ Js.toString (Lsp.line (Lsp.start (Lsp.range loc)))
    ++ ":" ++ Js.toString (Lsp.character (Lsp.start (Lsp.range loc))).

(** The argument's [range.start] is already a string here. *)
Definition stringifyStringLocation (uri : string) (start : string) : string :=
  uri ++ ":" ++ start.

(** A position of an input line.  Its numbers are integers of magnitude at
    most 2^53, which [JSON.parse] reads without error. *)
Record Pos_ : Type :=
  { line : Z; col : Z;
    line_safe : Js.is_safe line = true;
    col_safe : Js.is_safe col = true }.

Definition stringifyPosition (pos : Pos_) : string :=
  Js.toString (Js.Int (line pos)) ++ ":" ++ Js.toString (Js.Int (col pos)).

Definition parseFilePosition (value : string) : result FilePosition :=
  let components := Js.split ":" value in
  let n := List.length components in
  if (n <? 3)%nat then Throw (ExpectedPathLineColumn value)
  else
    let line := Js.parseInt (nth (n - 2) components "") in
    let character := Js.parseInt (nth (n - 1) components "") in
    let path := Js.join "" (firstn (n - 2) components) in
    Ok {| fp_uri := path;
          position := {| Lsp.line := line; Lsp.character := character |} |}.

Definition parseLocation (start end_ : string) : result Lsp.Location :=
  result_bind (parseFilePosition start) (fun startP =>
  result_bind (parseFilePosition end_) (fun endP =>
  if negb (String.eqb (fp_uri startP) (fp_uri endP))
  then Throw (ExpectedSameFile start end_)
  else Ok {| Lsp.uri := fp_uri startP;
             Lsp.range := {| Lsp.start := position startP;
                             Lsp.end_ := position endP |} |})).

(** ** The fixed items *)

Definition makeRange (loc : Lsp.Location) : Item :=
  Range (stringifyLocation loc) (Lsp.range loc).

Definition makeProjectEnd : Item :=
  Event "projectEnd" "project" EK_end ES_project.

Definition makeProjectBegin : Item :=
  Event "projectBegin" "project" EK_begin ES_project.

Definition makeProject : Item := Project "project" "cpp".

Definition makeMeta (root inFileGlob : string) : Item :=
  MetaData "meta" "file:///" "0.4.0" "utf-16"
    {| name := "lsif-cpp"; args := [inFileGlob; root];
       tool_version := "dev" |}.

(** ** The emission engine *)

Record MonikerInfo : Type :=
  { mi_moniker : string; mi_packageInformation : string }.

Section Engine.

(** [fs.readFileSync(path).toString('base64')], [None] when it throws. *)
Variable readFileSync_base64 : string -> option string.

Definition emitDocsBegin (root doc : string) (includeContents : bool)
  : Emitter unit :=
  let contents :=
    if includeContents then
      match readFileSync_base64 (root ++ "/" ++ doc) with
      | Some c => c
      | None => ""
      end
    else "" in
  emit (Document ("document:" ++ doc) ("file:///" ++ doc) "cpp" contents) ;;
  emit (Event ("documentBegin:" ++ doc) ("document:" ++ doc)
          EK_begin ES_document).

Definition emitDocsEnd (docs : JsSet.t) (rangesByDoc : JsMap.t JsSet.t)
  : Emitter unit :=
  for_of (JsSet.toArray docs) (fun doc =>
    match JsMap.get doc rangesByDoc with
    | None => throw (RangesByDocMissing doc)
    | Some ranges =>
        emit (contains ("contains:" ++ doc) ("document:" ++ doc)
                (JsSet.toArray ranges)) ;;
        emit (Event ("documentEnd:" ++ doc) ("document:" ++ doc)
                EK_end ES_document)
    end).

(** [if (x)] on a string that may be undefined. *)
Definition truthy (x : option string) : option string :=
  match x with
  | Some EmptyString => None
  | other => other
  end.

(** The import branch (2.1 to 2.4) or the definition branch (3 to 5). *)
Definition emitImportOrDefinition (def : string) (defLoc : Lsp.Location)
    (importMoniker : option MonikerInfo) : Emitter unit :=
  match importMoniker with
  | Some importMoniker =>
      emit (Moniker ("moniker:import:" ++ def) (mi_moniker importMoniker)
              import "cpp") ;;
      emit (moniker ("monikerEdge:import:" ++ def)
              ("moniker:import:" ++ def) ("resultSet:" ++ def)) ;;
      emit (PackageInformation
              ("package:" ++ mi_packageInformation importMoniker) "cpp"
              (mi_packageInformation importMoniker) "1.0") ;;
      emit (packageInformation
              ("packageEdge:" ++ mi_packageInformation importMoniker)
              ("package:" ++ mi_packageInformation importMoniker)
              ("moniker:import:" ++ def))
  | None =>
      emit (DefinitionResult ("definition:" ++ def)) ;;
      emit (textDocument_definition ("textDocument/definition:" ++ def)
              ("resultSet:" ++ def) ("definition:" ++ def)) ;;
      emit (item ("item:textDocument/definition:" ++ def)
              ("definition:" ++ def) [def] None
              ("document:" ++ Lsp.uri defLoc))
  end.

Definition emitHover (def : string) (hover : option string) : Emitter unit :=
  match truthy hover with
  | Some hover =>
      emit (HoverResult ("hover:" ++ def) hover) ;;
      emit (textDocument_hover ("textDocument/hover:" ++ def)
              ("resultSet:" ++ def) ("hover:" ++ def))
  | None => ret tt
  end.

(** The iteratee of step 10: [ref => parseFilePosition(ref).uri]. *)
Definition uriOfRef (ref : string) : result string :=
  result_bind (parseFilePosition ref) (fun p => Ok (fp_uri p)).

(** The item edge of step 10. *)
Definition referencesItem (def : string) (pair : string * list string)
  : Item :=
  let '(uri, refsForCurrentUri) := pair in
  item ("item:textDocument/references:references:" ++ def ++ ":" ++ uri)
    ("reference:" ++ def) refsForCurrentUri (Some references)
    ("document:" ++ uri).

(** Step 10: one item edge for each document of the referencing ranges. *)
Definition emitReferenceItems (def : string) (refs : JsSet.t)
  : Emitter unit :=
  groups <- lift (Lodash.groupBy (JsSet.toArray refs) uriOfRef) ;;
  for_of (Lodash.toPairs groups) (fun pair => emit (referencesItem def pair)).

Definition emitExport (def : string) (exportMoniker : option MonikerInfo)
  : Emitter unit :=
  match exportMoniker with
  | Some exportMoniker =>
      emit (Moniker ("moniker:export:" ++ def) (mi_moniker exportMoniker)
              export "cpp") ;;
      emit (moniker ("monikerEdge:export:" ++ def)
              ("moniker:export:" ++ def) ("resultSet:" ++ def)) ;;
      emit (PackageInformation
              ("package:" ++ mi_packageInformation exportMoniker) "cpp"
              (mi_packageInformation exportMoniker) "1.0") ;;
      emit (packageInformation
              ("packageEdge:" ++ mi_packageInformation exportMoniker)
              ("package:" ++ mi_packageInformation exportMoniker)
              ("moniker:export:" ++ def))
  | None => ret tt
  end.

(** The edge of step 9. *)
Definition nextOfRef (def ref : string) : Item :=
  next ("next:" ++ ref) ref ("resultSet:" ++ def).

(** Step 8, which the import branch skips. *)
Definition emitDefinitionsItem (def : string) (defLoc : Lsp.Location)
    (importMoniker : option MonikerInfo) : Emitter unit :=
  match importMoniker with
  | None =>
      emit (item ("item:textDocument/references:definitions:" ++ def)
              ("reference:" ++ def) [def] (Some definitions)
              ("document:" ++ Lsp.uri defLoc))
  | Some _ => ret tt
  end.

(** One turn of the loop of [emitDefsRefsHovers]. *)
Definition emitDefinitionGroup
    (hoverByDef : JsMap.t string)
    (locByRange : JsMap.t Lsp.Location)
    (importMonikerByRange exportMonikerByRange : JsMap.t MonikerInfo)
    (def : string) (refs : JsSet.t) : Emitter unit :=
  match JsMap.get def locByRange with
  | None => throw UnableToLookUpDef
  | Some defLoc =>
      emit (ResultSet ("resultSet:" ++ def)) ;;
      emit (next ("next:" ++ def) def ("resultSet:" ++ def)) ;;
      let importMoniker := JsMap.get def importMonikerByRange in
      emitImportOrDefinition def defLoc importMoniker ;;
      emitHover def (JsMap.get def hoverByDef) ;;
      emit (ReferenceResult ("reference:" ++ def)) ;;
      emit (textDocument_references ("textDocument/references:" ++ def)
              ("resultSet:" ++ def) ("reference:" ++ def)) ;;
      emitDefinitionsItem def defLoc importMoniker ;;
      for_of (JsSet.toArray refs) (fun ref => emit (nextOfRef def ref)) ;;
      emitReferenceItems def refs ;;
      emitExport def (JsMap.get def exportMonikerByRange)
  end.

Definition emitDefsRefsHovers
    (refsByDef : JsMap.t JsSet.t)
    (hoverByDef : JsMap.t string)
    (locByRange : JsMap.t Lsp.Location)
    (importMonikerByRange exportMonikerByRange : JsMap.t MonikerInfo)
  : Emitter unit :=
  for_of (JsMap.entries refsByDef) (fun '(def, refs) =>
    emitDefinitionGroup hoverByDef locByRange
      importMonikerByRange exportMonikerByRange def refs).

(** The arguments of [ffff] but [emit]. *)
Record Index : Type :=
  { root : string;
    inFileGlob : string;
    docs : JsSet.t;
    rangesByDoc : JsMap.t JsSet.t;
    refsByDef : JsMap.t JsSet.t;
    hoverByDef : JsMap.t string;
    locByRange : JsMap.t Lsp.Location;
    importMonikerByRange : JsMap.t MonikerInfo;
    exportMonikerByRange : JsMap.t MonikerInfo }.

Definition emitRanges (locByRange : JsMap.t Lsp.Location) : Emitter unit :=
  for_of (JsMap.keys locByRange) (fun range =>
    match JsMap.get range locByRange with
    | None => throw (UnableToLookUpLoc range)
    | Some loc => emit (makeRange loc)
    end).

Definition ffff (x : Index) : Emitter unit :=
  emit (makeMeta (root x) (inFileGlob x)) ;;
  emit makeProject ;;
  emit makeProjectBegin ;;
  for_of (JsSet.toArray (docs x)) (fun doc =>
    emitDocsBegin (root x) doc false) ;;
  emitRanges (locByRange x) ;;
  emitDefsRefsHovers (refsByDef x) (hoverByDef x) (locByRange x)
    (importMonikerByRange x) (exportMonikerByRange x) ;;
  emitDocsEnd (docs x) (rangesByDoc x) ;;
  emit (contains "projectContains" "project"
          (map (fun doc => "document:" ++ doc) (JsSet.toArray (docs x)))) ;;
  emit makeProjectEnd.

End Engine.

(** ** The fact store of [writeLSIF] *)

Module Db.

(** A row of the table [lines]. *)
Record Row : Type :=
  { file : string; start : string; end_ : string;
    deffile : string; defstart : string; type : string }.

Definition same_key (r r' : Row) : bool :=
  String.eqb (file r) (file r') && String.eqb (start r) (start r')
  && String.eqb (end_ r) (end_ r').

(** [INSERT OR REPLACE] under [UNIQUE (file, start, end)]: the row in
    conflict is deleted and the new row is the last one. *)
Definition insert_or_replace (t : list Row) (r : Row) : list Row :=
  (filter (fun r' => negb (same_key r r')) t ++ [r])%list.

Definition insertMany (t : list Row) (rows : list Row) : list Row :=
  fold_left insert_or_replace rows t.

(** [SELECT DISTINCT]: the first of equal rows is kept. *)
Fixpoint distinct_from {A : Type} (eqb : A -> A -> bool) (seen l : list A)
  : list A :=
  match l with
  | [] => []
  | x :: l' =>
      if existsb (eqb x) seen then distinct_from eqb seen l'
      else x :: distinct_from eqb (x :: seen) l'
  end.

Definition distinct {A : Type} (eqb : A -> A -> bool) (l : list A) : list A :=
  distinct_from eqb [] l.

Definition eqb3 (a b : string * string * string) : bool :=
  let '(a1, a2, a3) := a in
  let '(b1, b2, b3) := b in
  String.eqb a1 b1 && String.eqb a2 b2 && String.eqb a3 b3.

Definition eqb5 (a b : string * string * string * string * string) : bool :=
  let '(a1, a2, a3, a4, a5) := a in
  let '(b1, b2, b3, b4, b5) := b in
  String.eqb a1 b1 && String.eqb a2 b2 && String.eqb a3 b3
  && String.eqb a4 b4 && String.eqb a5 b5.

(** The order of the unique index on [(file, start, end)]: the columns
    compared as text, byte by byte. *)
Definition key_leb (r r' : Row) : bool :=
  match String.compare (file r) (file r') with
  | Lt => true
  | Gt => false
  | Eq =>
      match String.compare (start r) (start r') with
      | Lt => true
      | Gt => false
      | Eq => String.leb (end_ r) (end_ r')
      end
  end.

Fixpoint insert_by_key (r : Row) (l : list Row) : list Row :=
  match l with
  | [] => [r]
  | r' :: l' => if key_leb r r' then r :: l else r' :: insert_by_key r l'
  end.

(** The rows as a scan of the unique index meets them. *)
Definition by_index (t : list Row) : list Row :=
  fold_right insert_by_key [] t.

(** [SELECT DISTINCT file, start, end from lines UNION ALL
     SELECT DISTINCT deffile, defstart, defstart from lines].
    Without [ORDER BY] the rows come in the order of SQLite's scan: the
    first query is answered from the unique index, the second from the
    table; the rows of the second follow those of the first. *)
Definition select_ranges (t : list Row)
  : list (string * string * string) :=
  (distinct eqb3 (map (fun r => (file r, start r, end_ r)) (by_index t))
   ++ distinct eqb3 (map (fun r => (deffile r, defstart r, defstart r)) t))%list.

(** [SELECT DISTINCT file, start, deffile, defstart, type from lines],
    which SQLite answers by a scan of the unique index. *)
Definition select_links (t : list Row)
  : list (string * string * string * string * string) :=
  distinct eqb5
    (map (fun r => (file r, start r, deffile r, defstart r, type r))
       (by_index t)).

End Db.

Module Input.

(** A parsed input line that has a [start]. *)
Record Line : Type :=
  { start : Pos_; end_ : Pos_;
    definition_file : string; definition_pos : Pos_;
    type : option string }.

End Input.

(** [pos.line = pos.line - 1]: the difference, rounded.  It is safe again
    ([minus_one_line]), so the second branch is never taken. *)
Definition minus_one (pos : Pos_) : Pos_ :=
  match bool_dec (Js.is_safe (Js.round (line pos - 1))) true with
  | left H =>
      {| line := Js.round (line pos - 1); col := col pos;
         line_safe := H; col_safe := col_safe pos |}
  | right _ => pos
  end.

Definition startsWith_slash (s : string) : bool :=
  match s with
  | String "/" _ => true
  | _ => false
  end.

(** The chain of [map] and [filter] that turns the lines of one input
    file into rows. *)
Definition rows_of_file (sourceFile : string) (lines : list Input.Line)
  : list Db.Row :=
  let rebased :=
    map (fun l =>
      {| Input.start := minus_one (Input.start l);
         Input.end_ := minus_one (Input.end_ l);
         Input.definition_file :=
           if String.eqb (Input.definition_file l) "*buffer*"
           then sourceFile else Input.definition_file l;
         Input.definition_pos := minus_one (Input.definition_pos l);
         Input.type := Input.type l |}) lines in
  let kept :=
    filter (fun l => negb (startsWith_slash (Input.definition_file l)))
      rebased in
  map (fun l =>
    {| Db.file := sourceFile;
       Db.start := stringifyPosition (Input.start l);
       Db.end_ := stringifyPosition (Input.end_ l);
       Db.deffile := Input.definition_file l;
       Db.defstart := stringifyPosition (Input.definition_pos l);
       Db.type :=
         substring 0 200
           match truthy (Input.type l) with
           | Some t => t
           | None => "<unknown>"
           end |}) kept.

Record Ranges : Type :=
  { r_docs : JsSet.t;
    r_rangesByDoc : JsMap.t JsSet.t;
    r_locByRange : JsMap.t Lsp.Location }.

(** The first loop of [writeLSIF], over the rows of [select_ranges]. *)
Fixpoint collect_ranges (rows : list (string * string * string))
    (acc : Ranges) : result Ranges :=
  match rows with
  | [] => Ok acc
  | (file, start, end_) :: rows' =>
      let docs := JsSet.add file (r_docs acc) in
      let ranges :=
        match JsMap.get file (r_rangesByDoc acc) with
        | Some ranges => ranges
        | None => JsSet.empty
        end in
      let start_id := stringifyStringLocation file start in
      let rangesByDoc :=
        JsMap.set file (JsSet.add start_id ranges) (r_rangesByDoc acc) in
      result_bind
        (parseLocation (file ++ ":" ++ start) (file ++ ":" ++ end_))
        (fun loc =>
           collect_ranges rows'
             {| r_docs := docs;
                r_rangesByDoc := rangesByDoc;
                r_locByRange := JsMap.set start_id loc (r_locByRange acc) |})
  end.

(** The second loop of [writeLSIF], over the rows of [select_links]. *)
Fixpoint collect_links
    (rows : list (string * string * string * string * string))
    (acc : JsMap.t JsSet.t * JsMap.t string)
  : JsMap.t JsSet.t * JsMap.t string :=
  match rows with
  | [] => acc
  | (file, start, deffile, defstart, type) :: rows' =>
      let '(refsByDef, hoverByDef) := acc in
      let therefstart := stringifyStringLocation file start in
      let thedefstart := stringifyStringLocation deffile defstart in
      let refs :=
        match JsMap.get thedefstart refsByDef with
        | Some refs => refs
        | None => JsSet.empty
        end in
      collect_links rows'
        (JsMap.set thedefstart (JsSet.add therefstart refs) refsByDef,
         JsMap.set thedefstart type hoverByDef)
  end.

(** The part of [writeLSIF] that comes before [await ffff(...)]: the
    table is filled, then read into the collections of the engine.
    [inFiles] is what the glob matched, each file as its path relative to
    [root] without the [.lsif.in] ending, with its parsed lines. *)
Definition correlate (inFileGlob root : string)
    (inFiles : list (string * list Input.Line)) : result Index :=
  match inFiles with
  | [] => Throw (GlobDidNotMatch inFileGlob)
  | _ =>
      let db :=
        fold_left (fun t '(sourceFile, lines) =>
                     Db.insertMany t (rows_of_file sourceFile lines))
          inFiles [] in
      result_bind
        (collect_ranges (Db.select_ranges db)
           {| r_docs := JsSet.empty;
              r_rangesByDoc := JsMap.empty;
              r_locByRange := JsMap.empty |})
        (fun r =>
           let '(refsByDef, hoverByDef) :=
             collect_links (Db.select_links db)
               (JsMap.empty, JsMap.empty) in
           Ok {| root := root;
                 inFileGlob := inFileGlob;
                 docs := r_docs r;
                 rangesByDoc := r_rangesByDoc r;
                 refsByDef := refsByDef;
                 hoverByDef := hoverByDef;
                 locByRange := r_locByRange r;
                 importMonikerByRange := JsMap.empty;
                 exportMonikerByRange := JsMap.empty |})
  end.

Section WriteLSIF.

Variable readFileSync_base64 : string -> option string.

Definition writeLSIF (inFileGlob root : string)
    (inFiles : list (string * list Input.Line)) : Emitter unit :=
  x <- lift (correlate inFileGlob root inFiles) ;;
  ffff readFileSync_base64 x.

End WriteLSIF.

(** ** Sample inputs *)

(** A file system where no file can be read. *)
Definition no_files : string -> option string := fun _ => None.

Definition at_ (l c : Z) : Lsp.Position :=
  {| Lsp.line := Js.Int l; Lsp.character := Js.Int c |}.

(** Two documents, inserted [b.ml] first; two definition groups, the first
    referenced from its own range and from [a.ml], the second with an
    empty hover text; both exported to the package [pkg]. *)
Definition sample_index : Index :=
  {| root := "proj";
     inFileGlob := "proj/*.lsif.in";
     docs := ["b.ml"; "a.ml"];
     rangesByDoc :=
       [("b.ml", ["b.ml:0:0"]); ("a.ml", ["a.ml:2:4"; "a.ml:1:0"])];
     refsByDef :=
       [("b.ml:0:0", ["b.ml:0:0"; "a.ml:2:4"]); ("a.ml:1:0", ["a.ml:1:0"])];
     hoverByDef := [("b.ml:0:0", "int"); ("a.ml:1:0", "")];
     locByRange :=
       [("b.ml:0:0",
         {| Lsp.uri := "b.ml";
            Lsp.range := {| Lsp.start := at_ 0 0; Lsp.end_ := at_ 0 1 |} |});
        ("a.ml:2:4",
         {| Lsp.uri := "a.ml";
            Lsp.range := {| Lsp.start := at_ 2 4; Lsp.end_ := at_ 2 5 |} |});
        ("a.ml:1:0",
         {| Lsp.uri := "a.ml";
            Lsp.range := {| Lsp.start := at_ 1 0; Lsp.end_ := at_ 1 3 |} |})];
     importMonikerByRange := [];
     exportMonikerByRange :=
       [("b.ml:0:0",
         {| mi_moniker := "B.x"; mi_packageInformation := "pkg" |});
        ("a.ml:1:0",
         {| mi_moniker := "A.y"; mi_packageInformation := "pkg" |})] |}.

(** A position of a sample; [eq_refl] checks that its numbers are safe. *)
Abbreviation position_at l c :=
  {| line := l; col := c; line_safe := eq_refl; col_safe := eq_refl |}
  (only parsing).

Abbreviation input_line sl sc el ec deffile dl dc ty :=
  {| Input.start := position_at sl sc;
     Input.end_ := position_at el ec;
     Input.definition_file := deffile;
     Input.definition_pos := position_at dl dc;
     Input.type := Some ty |}
  (only parsing).

(** One input file whose only line is a definition site: its definition
    is its own range. *)
Definition self_definition : list (string * list Input.Line) :=
  [("a.ml", [input_line 1 0 1 1 "*buffer*" 1 0 "int"])].

(** A definition on line 11 of the input, then a reference to it on
    line 2. *)
Definition late_definition : list (string * list Input.Line) :=
  [("a.ml", [input_line 11 0 11 1 "*buffer*" 11 0 "int";
             input_line 2 0 2 1 "*buffer*" 11 0 "int"])].

(** The same definition site in a file whose name has a colon. *)
Definition colon_path : list (string * list Input.Line) :=
  [("lib:a.ml", [input_line 1 0 1 1 "*buffer*" 1 0 "int"])].


(** ** Reading the stream *)

Local Infix "+++" := app (right associativity, at level 60).

(** The items of the steps that come before step 10, which cannot throw. *)
Definition group_head
    (hoverByDef : JsMap.t string)
    (importMonikerByRange : JsMap.t MonikerInfo)
    (def : string) (defLoc : Lsp.Location)
    (refs : JsSet.t) : list Item :=
  [ResultSet ("resultSet:" ++ def);
    next ("next:" ++ def) def ("resultSet:" ++ def)]
   +++ emitted (emitImportOrDefinition def defLoc
                 (JsMap.get def importMonikerByRange))
   +++ emitted (emitHover def (JsMap.get def hoverByDef))
   +++ [ReferenceResult ("reference:" ++ def);
       textDocument_references ("textDocument/references:" ++ def)
         ("resultSet:" ++ def) ("reference:" ++ def)]
   +++ emitted (emitDefinitionsItem def defLoc
                 (JsMap.get def importMonikerByRange))
   +++ map (nextOfRef def) refs.

(** The parts of a stream, in the order of [ffff]. *)

Definition stream_head (x : Index) : list Item :=
  [makeMeta (root x) (inFileGlob x); makeProject; makeProjectBegin].

Definition document_begin_items (doc : string) : list Item :=
  [Document ("document:" ++ doc) ("file:///" ++ doc) "cpp" "";
   Event ("documentBegin:" ++ doc) ("document:" ++ doc)
     EK_begin ES_document].

Definition range_items (locByRange : JsMap.t Lsp.Location) : list Item :=
  flat_map (fun range =>
              match JsMap.get range locByRange with
              | Some loc => [makeRange loc]
              | None => []
              end) (JsMap.keys locByRange).

Definition group_items (x : Index) (entry : string * JsSet.t) : list Item :=
  emitted (emitDefinitionGroup (hoverByDef x) (locByRange x)
             (importMonikerByRange x) (exportMonikerByRange x)
             (fst entry) (snd entry)).

Definition document_end_items (rangesByDoc : JsMap.t JsSet.t) (doc : string)
  : list Item :=
  match JsMap.get doc rangesByDoc with
  | Some ranges =>
      [contains ("contains:" ++ doc) ("document:" ++ doc) ranges;
       Event ("documentEnd:" ++ doc) ("document:" ++ doc)
         EK_end ES_document]
  | None => []
  end.

Definition stream_tail (x : Index) : list Item :=
  [contains "projectContains" "project"
     (map (fun doc => "document:" ++ doc) (docs x));
   makeProjectEnd].


(** A group that is emitted without a throw. *)
Definition group_succeeds (x : Index) (entry : string * JsSet.t) : Prop :=
  succeeds (emitDefinitionGroup (hoverByDef x) (locByRange x)
              (importMonikerByRange x) (exportMonikerByRange x)
              (fst entry) (snd entry)).

(** Items that satisfy [P]. *)
Definition count (P : Item -> bool) (out : list Item) : nat :=
  List.length (filter P out).

Definition has_id (id : Id) (i : Item) : bool := String.eqb (id_of i) id.

Definition is_package_vertex (id : Id) (i : Item) : bool :=
  match i with
  | PackageInformation id' _ _ _ => String.eqb id' id
  | _ => false
  end.

Definition is_hover (i : Item) : bool :=
  match i with
  | HoverResult _ _ | textDocument_hover _ _ _ => true
  | _ => false
  end.

Definition label_eqb (a b : VertexLabels + EdgeLabels) : bool :=
  match a, b with
  | inl VL_metaData, inl VL_metaData | inl VL_project, inl VL_project
  | inl VL_event, inl VL_event | inl VL_document, inl VL_document
  | inl VL_range, inl VL_range | inl VL_resultSet, inl VL_resultSet
  | inl VL_moniker, inl VL_moniker
  | inl VL_packageInformation, inl VL_packageInformation
  | inl VL_definitionResult, inl VL_definitionResult
  | inl VL_hoverResult, inl VL_hoverResult
  | inl VL_referenceResult, inl VL_referenceResult
  | inr EL_contains, inr EL_contains | inr EL_next, inr EL_next
  | inr EL_item, inr EL_item | inr EL_moniker, inr EL_moniker
  | inr EL_packageInformation, inr EL_packageInformation
  | inr EL_textDocument_definition, inr EL_textDocument_definition
  | inr EL_textDocument_hover, inr EL_textDocument_hover
  | inr EL_textDocument_references, inr EL_textDocument_references => true
  | _, _ => false
  end.

(** The items of one label, in stream order. *)
Definition with_label (l : VertexLabels + EdgeLabels) (out : list Item)
  : list Item :=
  filter (fun i => label_eqb (label_of i) l) out.

(** Whether a moniker names the package [p], as a number. *)
Definition package_of (m : option MonikerInfo) (p : string) : nat :=
  match m with
  | Some mi => if String.eqb (mi_packageInformation mi) p then 1 else 0
  | None => 0
  end.

(** The monikers of a definition group that name the package [p]. *)
Definition monikers_of_package (x : Index) (p : string)
    (entry : string * JsSet.t) : nat :=
  package_of (JsMap.get (fst entry) (importMonikerByRange x)) p
  + package_of (JsMap.get (fst entry) (exportMonikerByRange x)) p.


(** The definition [def] has a moniker, import or export, of package [p]. *)
Definition names_package (x : Index) (def p : string) : Prop :=
  (exists m, JsMap.get def (importMonikerByRange x) = Some m
             /\ mi_packageInformation m = p)
  \/ (exists m, JsMap.get def (exportMonikerByRange x) = Some m
                /\ mi_packageInformation m = p).


(** The item edges of step 10 and what they carry. *)
Definition is_references_item (i : Item) : bool :=
  match i with
  | item _ _ _ (Some references) _ => true
  | _ => false
  end.

Definition inVs_of (i : Item) : list Id :=
  match i with
  | item _ _ inVs _ _ | contains _ _ inVs => inVs
  | _ => []
  end.

Definition document_of (i : Item) : Id :=
  match i with
  | item _ _ _ _ document => document
  | _ => ""
  end.

(** A group of [groupBy] under the key [k]: it is not empty and the
    iteratee gives [k] for each of its elements. *)
Definition grouped_under {A : Type} (iteratee : A -> result string)
    (entry : string * list A) : Prop :=
  snd entry <> [] /\ Forall (fun a => iteratee a = Ok (fst entry)) (snd entry).


(** The start positions of the range vertices, in stream order. *)
Definition range_starts (out : list Item) : list Lsp.Position :=
  flat_map (fun i => match i with
                     | Range _ r => [Lsp.start r]
                     | _ => []
                     end) out.

(** Line, then column. *)
Definition position_leb (p q : Lsp.Position) : bool :=
  match Lsp.line p, Lsp.line q, Lsp.character p, Lsp.character q with
  | Js.Finite pl _, Js.Finite ql _, Js.Finite pc _, Js.Finite qc _ =>
      ((pl <? ql) || ((pl =? ql) && (pc <=? qc)))%Z
  | _, _, _, _ => false
  end.

Fixpoint sorted_positions (l : list Lsp.Position) : bool :=
  match l with
  | p :: (q :: _) as rest => position_leb p q && sorted_positions rest
  | _ => true
  end.


(** No two items of a stream share an id. *)
Definition unique_ids (out : list Item) : Prop := NoDup (map id_of out).

(** The ids of the range vertices, in stream order. *)
Definition range_ids (out : list Item) : list Id :=
  flat_map (fun i => match i with
                     | Range id _ => [id]
                     | _ => []
                     end) out.

(** The range identities that an edge names as an endpoint: the source of
    a next edge, the targets of an item edge, the targets of the
    containment edge of a document. *)
Definition range_endpoints (i : Item) : list Id :=
  match i with
  | next _ outV _ => [outV]
  | item _ _ inVs _ _ => inVs
  | contains _ outV inVs => if String.eqb outV "project" then [] else inVs
  | _ => []
  end.

(** Every range endpoint was emitted before as a range vertex; [seen] are
    the ids of the range vertices emitted so far. *)
Fixpoint closed_from (seen : list Id) (out : list Item) : bool :=
  match out with
  | [] => true
  | i :: out' =>
      forallb (fun r => existsb (String.eqb r) seen) (range_endpoints i)
      && closed_from (range_ids [i] ++ seen)%list out'
  end.

Definition closed (out : list Item) : bool := closed_from [] out.

(** Two files whose names differ by a colon; the second refers to the
    definition of the first. *)
Definition colon_twins : list (string * list Input.Line) :=
  [("lib:a.ml", [input_line 1 0 1 1 "*buffer*" 1 0 "int"]);
   ("liba.ml", [input_line 1 0 1 1 "lib:a.ml" 1 0 "int"])].

(** A definition site and a reference in [lib:a.ml], and a reference to
    the same definition from [liba.ml]. *)
Definition colon_references : list (string * list Input.Line) :=
  [("lib:a.ml", [input_line 1 0 1 1 "*buffer*" 1 0 "int";
                 input_line 4 0 4 1 "*buffer*" 1 0 "int"]);
   ("liba.ml", [input_line 6 0 6 1 "lib:a.ml" 1 0 "int"])].


(** ** Reading the fact store *)

(** A string that [stringifyPosition] wrote. *)
Definition position_string (s : string) : Prop :=
  exists pos, s = stringifyPosition pos.

Definition well_formed_row (r : Db.Row) : Prop :=
  position_string (Db.start r) /\ position_string (Db.end_ r)
  /\ position_string (Db.defstart r).

Definition colon_free_row (r : Db.Row) : Prop :=
  Js.includes ":" (Db.file r) = false
  /\ Js.includes ":" (Db.deffile r) = false.

(** No input file and no definition file has a colon in its name. *)
Definition colon_free_input (inFiles : list (string * list Input.Line))
  : Prop :=
  Forall (fun f =>
            Js.includes ":" (fst f) = false
            /\ Forall (fun l =>
                         Js.includes ":" (Input.definition_file l) = false)
                 (snd f)) inFiles.

(** The table that [writeLSIF] fills. *)
Definition table_of (inFiles : list (string * list Input.Line))
  : list Db.Row :=
  fold_left (fun t '(sourceFile, lines) =>
               Db.insertMany t (rows_of_file sourceFile lines))
    inFiles [].


(** What the first loop of [writeLSIF] keeps true of its collections. *)
Record ranges_invariant (r : Ranges) : Prop :=
  { inv_keys : NoDup (JsMap.keys (r_locByRange r));
    inv_docs :
      forall doc, In doc (r_docs r) ->
                  exists ranges, JsMap.get doc (r_rangesByDoc r) = Some ranges;
    inv_ranges :
      forall doc ranges range,
        In (doc, ranges) (r_rangesByDoc r) -> In range ranges ->
        In range (JsMap.keys (r_locByRange r));
    inv_uri :
      forall range loc,
        In (range, loc) (r_locByRange r) ->
        exists fp, parseFilePosition range = Ok fp
                   /\ fp_uri fp = Lsp.uri loc }.

(** The id of each range vertex is the key of its range. *)
Definition ids_are_keys (m : JsMap.t Lsp.Location) : Prop :=
  forall range loc, In (range, loc) m -> stringifyLocation loc = range.

Definition good_range_row (row : string * string * string) : Prop :=
  let '(file, start, end_) := row in
  position_string start /\ position_string end_.

Definition colon_free_range_row (row : string * string * string) : Prop :=
  let '(file, start, end_) := row in Js.includes ":" file = false.


(** The position that [stringifyPosition] wrote, as the protocol has it. *)
Definition lsp_position (pos : Pos_) : Lsp.Position :=
  {| Lsp.line := Js.Int (line pos); Lsp.character := Js.Int (col pos) |}.

(** One turn of the first loop of [writeLSIF], for a row whose location
    parses to [loc]. *)
Definition collect_range (file start : string) (loc : Lsp.Location)
    (acc : Ranges) : Ranges :=
  {| r_docs := JsSet.add file (r_docs acc);
     r_rangesByDoc :=
       JsMap.set file
         (JsSet.add (stringifyStringLocation file start)
            match JsMap.get file (r_rangesByDoc acc) with
            | Some ranges => ranges
            | None => JsSet.empty
            end) (r_rangesByDoc acc);
     r_locByRange :=
       JsMap.set (stringifyStringLocation file start) loc
         (r_locByRange acc) |}.


(** What the correlation of [writeLSIF] guarantees of the collections it
    hands to the engine. *)
Record well_formed_index (x : Index) : Prop :=
  { wf_ranges : NoDup (JsMap.keys (locByRange x));
    wf_groups : NoDup (JsMap.keys (refsByDef x));
    wf_refs : forall def refs, In (def, refs) (refsByDef x) -> NoDup refs;
    wf_docs :
      forall doc, In doc (docs x) ->
                  exists ranges, JsMap.get doc (rangesByDoc x) = Some ranges;
    wf_contained :
      forall doc ranges range,
        In (doc, ranges) (rangesByDoc x) -> In range ranges ->
        In range (JsMap.keys (locByRange x));
    wf_defs :
      forall def refs, In (def, refs) (refsByDef x) ->
                       In def (JsMap.keys (locByRange x));
    wf_references :
      forall def refs ref, In (def, refs) (refsByDef x) -> In ref refs ->
                           In ref (JsMap.keys (locByRange x));
    wf_uri :
      forall range loc,
        In (range, loc) (locByRange x) ->
        exists fp, parseFilePosition range = Ok fp
                   /\ fp_uri fp = Lsp.uri loc }.

(** What the second loop keeps true of [refsByDef]: its keys are distinct,
    its sets have no repetition, and all its ranges satisfy [K]. *)
Definition links_invariant (K : string -> Prop) (m : JsMap.t JsSet.t)
  : Prop :=
  NoDup (JsMap.keys m)
  /\ forall def refs, In (def, refs) m ->
                      NoDup refs /\ K def /\ forall ref, In ref refs -> K ref.


(** ** More readings of the fact store and of the stream *)

(** The identity keys of the range and of the definition range of a row. *)
Definition range_key (r : Db.Row) : string :=
  stringifyStringLocation (Db.file r) (Db.start r).

Definition def_key (r : Db.Row) : string :=
  stringifyStringLocation (Db.deffile r) (Db.defstart r).

Definition empty_ranges : Ranges :=
  {| r_docs := JsSet.empty;
     r_rangesByDoc := JsMap.empty;
     r_locByRange := JsMap.empty |}.

(** What the first loop keeps true of the documents and of their sets of
    ranges. *)
Record documents_invariant (r : Ranges) : Prop :=
  { di_docs : r_docs r = JsMap.keys (r_rangesByDoc r);
    di_keys : NoDup (JsMap.keys (r_rangesByDoc r));
    di_sets :
      forall doc ranges, In (doc, ranges) (r_rangesByDoc r) -> NoDup ranges;
    di_owner :
      forall doc ranges range,
        In (doc, ranges) (r_rangesByDoc r) -> In range ranges ->
        exists pos, range = doc ++ ":" ++ stringifyPosition pos;
    di_contained :
      forall range,
        In range (JsMap.keys (r_locByRange r)) ->
        exists doc ranges,
          In (doc, ranges) (r_rangesByDoc r) /\ In range ranges }.

(** The ranges that the containment edges of the documents list, in stream
    order. *)
Definition contained_ranges (out : list Item) : list Id :=
  flat_map (fun i => match i with
                     | contains _ outV inVs =>
                         if String.eqb outV "project" then [] else inVs
                     | _ => []
                     end) out.

(** A moniker or package-information vertex, or an edge to one. *)
Definition is_moniker_item (i : Item) : bool :=
  match i with
  | Moniker _ _ _ _ | PackageInformation _ _ _ _
  | moniker _ _ _ | packageInformation _ _ _ => true
  | _ => false
  end.

(** A location whose end is its start. *)
Definition zero_width (loc : Lsp.Location) : Prop :=
  Lsp.end_ (Lsp.range loc) = Lsp.start (Lsp.range loc).

(** The test [does not emit items with duplicate IDs]: the groups of
    items with one id, each with its count, of which those with a count
    above one are kept. *)
Definition setsOfDupes (output : list Item) : list (list Item) :=
  match Lodash.groupBy output (fun item => Ok (id_of item)) with
  | Ok groups =>
      map fst
        (filter (fun gc => (1 <? snd gc)%nat)
           (map (fun group => (group, List.length group))
              (map snd (Lodash.toPairs groups))))
  | Throw _ => []
  end.

(** The test passes when it does not call [fail]. *)
Definition duplicate_test_passes (output : list Item) : bool :=
  (List.length (setsOfDupes output) =? 0)%nat.

(** The ids of the document vertices, in stream order. *)
Definition document_ids (out : list Item) : list Id :=
  flat_map (fun i => match i with
                     | Document id _ _ _ => [id]
                     | _ => []
                     end) out.

(** The shapes of item that a definition without moniker emits. *)
Definition is_group_item (i : Item) : bool :=
  match i with
  | ResultSet _ | next _ _ _ | DefinitionResult _
  | textDocument_definition _ _ _ | item _ _ _ _ _ | HoverResult _ _
  | textDocument_hover _ _ _ | ReferenceResult _
  | textDocument_references _ _ _ => true
  | _ => false
  end.

(** A line that the filter on absolute definition files drops. *)
Definition dropped_line (l : Input.Line) : Prop :=
  startsWith_slash (Input.definition_file l) = true.


(** The collections that [writeLSIF] hands to [ffff], given what its first
    loop collected. *)
Definition index_of_ranges (inFileGlob root : string)
    (inFiles : list (string * list Input.Line)) (r : Ranges) : Index :=
  {| root := root;
     inFileGlob := inFileGlob;
     docs := r_docs r;
     rangesByDoc := r_rangesByDoc r;
     refsByDef :=
       fst (collect_links (Db.select_links (table_of inFiles))
              (JsMap.empty, JsMap.empty));
     hoverByDef :=
       snd (collect_links (Db.select_links (table_of inFiles))
              (JsMap.empty, JsMap.empty));
     locByRange := r_locByRange r;
     importMonikerByRange := JsMap.empty;
     exportMonikerByRange := JsMap.empty |}.

(** Two inputs with the same files whose lines are the same once the
    lines with a definition in a file with an absolute path are left
    out. *)
Definition same_kept_lines (a b : list (string * list Input.Line)) : Prop :=
  Forall2
    (fun f g =>
       fst f = fst g
       /\ filter (fun l => negb (startsWith_slash (Input.definition_file l)))
            (snd f)
          = filter (fun l => negb (startsWith_slash (Input.definition_file l)))
              (snd g)) a b.

(** A definition site, and a reference to the standard library. *)
Definition mixed_definitions : list (string * list Input.Line) :=
  [("a.ml", [input_line 1 0 1 1 "*buffer*" 1 0 "int";
             input_line 2 0 2 1 "/usr/lib/ocaml/list.ml" 5 0 "int"])].

(** An input file all of whose lines have their definition in a file with
    an absolute path. *)
Definition only_absolute_definitions : list (string * list Input.Line) :=
  [("a.ml", [input_line 1 0 1 1 "/usr/lib/ocaml/list.ml" 5 0 "int";
             input_line 2 0 2 1 "/usr/lib/ocaml/list.ml" 9 4 "int"])].


(** The location that the first loop registers for a definition: the
    second part of its query gives the start as the end. *)
Definition definition_location (file : string) (pos : Pos_) : Lsp.Location :=
  {| Lsp.uri := Js.remove_char ":" file;
     Lsp.range := {| Lsp.start := lsp_position pos;
                     Lsp.end_ := lsp_position pos |} |}.

(** The location registered under [key] is that of a definition. *)
Definition definition_at (m : JsMap.t Lsp.Location) (key : string) : Prop :=
  exists file pos,
    key = file ++ ":" ++ stringifyPosition pos
    /\ JsMap.get key m = Some (definition_location file pos).


(** ** The forms of the ids *)

(** Every id but those of the project and of the ranges is a stem, a
    colon and a payload; a form is the index of the stem and the
    payload. *)
Definition id_stems : list string :=
  ["document"; "documentBegin"; "contains"; "documentEnd";
   "resultSet"; "next"; "definition"; "textDocument/definition";
   "item:textDocument/definition"; "hover"; "textDocument/hover";
   "reference"; "textDocument/references";
   "item:textDocument/references:definitions";
   "item:textDocument/references:references"].

Definition id_of_form (form : nat * string) : string :=
  nth (fst form) id_stems "" ++ ":" ++ snd form.

Definition document_begin_forms (doc : string) : list (nat * string) :=
  [(0, doc); (1, doc)].

Definition document_end_forms (doc : string) : list (nat * string) :=
  [(2, doc); (3, doc)].

(** The documents of the referencing ranges of a group, in the order of
    its item edges. *)
Definition reference_uris (refs : JsSet.t) : list string :=
  match Lodash.groupBy refs uriOfRef with
  | Ok groups => map fst (Lodash.toPairs groups)
  | Throw _ => []
  end.

Definition has_hover (hoverByDef : JsMap.t string) (def : string) : bool :=
  match truthy (JsMap.get def hoverByDef) with
  | Some _ => true
  | None => false
  end.

(** The forms of the ids of a group without moniker. *)
Definition group_forms (def : string) (hover : bool) (refs : JsSet.t)
    (uris : list string) : list (nat * string) :=
  [(4, def); (5, def); (6, def); (7, def); (8, def)]
  +++ (if hover then [(9, def); (10, def)] else [])
  +++ [(11, def); (12, def); (13, def)]
  +++ map (fun ref => (5, ref)) refs
  +++ map (fun uri => (14, def ++ ":" ++ uri)) uris.

(** Two ranges of one file that are defined in another file. *)
Definition outside_definitions : list (string * list Input.Line) :=
  [("a.ml", [input_line 1 0 1 1 "b.ml" 5 0 "int";
             input_line 2 3 2 4 "b.ml" 5 0 "int"])].


(* ================================================================== *)
(** ** Readings of numbers *)

(** [k] zeros. *)
Fixpoint zeros (k : nat) : string :=
  match k with
  | O => ""
  | S k' => String "0" (zeros k')
  end.

(** What the first characters of a printed number tell of it. *)
Definition head_class (s : string) : nat :=
  match s with
  | String c r =>
      if Js.is_digit c then 0
      else if Ascii.eqb c "-" then
        match r with
        | String d _ => if Js.is_digit d then 1 else 2
        | EmptyString => 2
        end
      else if Ascii.eqb c "N" then 3 else 4
  | EmptyString => 5
  end.

(** A number that [parseInt] reads back from what [toString] wrote. *)
Definition reads_back (x : Js.number) : Prop :=
  Js.parseInt (Js.toString x) = x.

(** * Properties *)

(** ** Strings and numbers *)

Section JsFacts.

Lemma append_assoc (a b c : string) : (a ++ b) ++ c = a ++ (b ++ c).
Proof.
  induction a as [|x a IH]; simpl; [reflexivity|]. now rewrite IH.
Qed.

Lemma append_nil_r (a : string) : a ++ "" = a.
Proof.
  induction a as [|x a IH]; simpl; [reflexivity|]. now rewrite IH.
Qed.

Lemma split_not_nil (sep : ascii) (s : string) : Js.split sep s <> [].
Proof.
  destruct s as [|c s]; simpl; [discriminate|].
  destruct (Ascii.eqb c sep); [discriminate|].
  destruct (Js.split sep s); discriminate.
Qed.

Lemma split_app (sep : ascii) (a b : string) :
  Js.split sep (a ++ String sep b) = (Js.split sep a ++ Js.split sep b)%list.
Proof.
  induction a as [|c a IH]; simpl.
  - now rewrite Ascii.eqb_refl.
  - destruct (Ascii.eqb c sep); [now rewrite IH|].
    rewrite IH. destruct (Js.split sep a) as [|x xs] eqn:E.
    + now apply split_not_nil in E.
    + reflexivity.
Qed.

Lemma split_without_sep (sep : ascii) (s : string) :
  Js.includes sep s = false -> Js.split sep s = [s].
Proof.
  induction s as [|c s IH]; simpl; [reflexivity|].
  intros H. apply orb_false_elim in H as [Hc Hs].
  rewrite Hc, (IH Hs). reflexivity.
Qed.

Lemma split_length_pos (sep : ascii) (s : string) :
  1 <= List.length (Js.split sep s).
Proof.
  pose proof (split_not_nil sep s).
  destruct (Js.split sep s); [congruence | simpl; lia].
Qed.

Lemma join_split (sep : ascii) (s : string) :
  Js.join "" (Js.split sep s) = Js.remove_char sep s.
Proof.
  induction s as [|c s IH]; simpl; [reflexivity|].
  destruct (Ascii.eqb c sep).
  - destruct (Js.split sep s) as [|x xs] eqn:E.
    + now apply split_not_nil in E.
    + exact IH.
  - destruct (Js.split sep s) as [|x xs] eqn:E.
    + now apply split_not_nil in E.
    + rewrite <- IH. destruct xs; reflexivity.
Qed.

Lemma remove_char_absent (c : ascii) (s : string) :
  Js.includes c s = false -> Js.remove_char c s = s.
Proof.
  induction s as [|a s IH]; simpl; [reflexivity|].
  intros H. apply orb_false_elim in H as [Ha Hs].
  now rewrite Ha, (IH Hs).
Qed.

Lemma remove_char_present (c : ascii) (s : string) :
  Js.includes c s = true -> Js.remove_char c s <> s.
Proof.
  intros H E.
  assert (L : forall t, String.length (Js.remove_char c t) <= String.length t).
  { induction t as [|a t IH]; simpl; [lia|].
    destruct (Ascii.eqb a c); simpl; lia. }
  revert H E. induction s as [|a s IH]; simpl; [discriminate|].
  destruct (Ascii.eqb a c) eqn:Ea; simpl.
  - intros _ E. pose proof (L s) as Hl. rewrite E in Hl. simpl in Hl. lia.
  - intros H E. injection E as E. auto.
Qed.

Lemma includes_app (c : ascii) (a b : string) :
  Js.includes c (a ++ b) = Js.includes c a || Js.includes c b.
Proof.
  induction a as [|x a IH]; simpl; [reflexivity|].
  now rewrite IH, orb_assoc.
Qed.

End JsFacts.

(** ** Rounding and the shortest digits *)

Section RoundingFacts.

Lemma round53_small (n : N) : (n < 2 ^ 53)%N -> Js.round53 n = n.
Proof.
  intros H. unfold Js.round53.
  destruct (N.ltb_spec n (2 ^ 53)); [reflexivity | lia].
Qed.

(** Rounding does not go below the power of two at or under the number. *)
Lemma round53_lower (n : N) :
  (2 ^ 53 <= n)%N -> (2 ^ N.log2 n <= Js.round53 n)%N.
Proof.
  intros H. unfold Js.round53.
  destruct (N.ltb_spec n (2 ^ 53)) as [Hlt|_]; [lia|].
  assert (Hlog : (53 <= N.log2 n)%N).
  { rewrite <- (N.log2_pow2 53) by lia. now apply N.log2_le_mono. }
  set (e := (N.log2 n - 52)%N).
  assert (Hpow : (2 ^ N.log2 n = 2 ^ e * 2 ^ 52)%N).
  { rewrite <- N.pow_add_r. f_equal. unfold e. lia. }
  assert (Hn : (2 ^ N.log2 n <= n)%N) by (apply N.log2_spec; lia).
  assert (He : (2 ^ e <> 0)%N) by (apply N.pow_nonzero; lia).
  assert (Hq : (2 ^ 52 <= n / 2 ^ e)%N).
  { apply N.div_le_lower_bound; [exact He|]. lia. }
  rewrite Hpow.
  destruct (_ || _); nia.
Qed.

Lemma round53_large (n : N) : (2 ^ 53 <= n)%N -> (2 ^ 53 <= Js.round53 n)%N.
Proof.
  intros H. pose proof (round53_lower n H) as Hl.
  assert (Hlog : (53 <= N.log2 n)%N).
  { rewrite <- (N.log2_pow2 53) by lia. now apply N.log2_le_mono. }
  assert ((2 ^ 53 <= 2 ^ N.log2 n)%N) by (apply N.pow_le_mono_r; lia).
  lia.
Qed.

(** 1e21 is a double, and what is not below it is not rounded below it. *)
Lemma round53_decimal_limit (n : N) :
  (Js.decimal_limit <= n)%N -> (Js.decimal_limit <= Js.round53 n)%N.
Proof.
  intros H.
  assert (Hlog : (69 <= N.log2 n)%N).
  { change 69%N with (N.log2 Js.decimal_limit). now apply N.log2_le_mono. }
  assert (Hbig : (2 ^ 53 <= n)%N).
  { unfold Js.decimal_limit in H. lia. }
  destruct (N.eq_dec (N.log2 n) 69) as [E|E].
  - unfold Js.round53.
    destruct (N.ltb_spec n (2 ^ 53)) as [Hlt|_]; [lia|].
    rewrite E. change (69 - 52)%N with 17%N.
    assert (Hq : (7629394531250000 <= n / 2 ^ 17)%N).
    { apply N.div_le_lower_bound; [lia|]. unfold Js.decimal_limit in H. lia. }
    unfold Js.decimal_limit.
    destruct (_ || _); lia.
  - pose proof (round53_lower n Hbig) as Hl.
    assert ((2 ^ 70 <= 2 ^ N.log2 n)%N) by (apply N.pow_le_mono_r; lia).
    unfold Js.decimal_limit. lia.
Qed.

Lemma candidates (n : N) (p : nat) :
  let u := (10 ^ N.of_nat p)%N in
  (n / u * u <= n < n / u * u + u)%N.
Proof.
  cbv zeta.
  assert (Hu : (10 ^ N.of_nat p <> 0)%N) by (apply N.pow_nonzero; lia).
  pose proof (N.div_mod n _ Hu) as Hdm.
  pose proof (N.mod_lt n _ Hu) as Hm.
  rewrite (N.mul_comm (n / _)).
  generalize dependent (10 ^ N.of_nat p)%N. intros u _.
  generalize (n / u)%N (n mod u)%N. intros q r. nia.
Qed.

(** What holds of the number and of every multiple that rounds to it
    holds of the chosen one. *)
Lemma shortest_aux_ind (n : N) (P : N -> Prop) :
  P n ->
  (forall p : nat,
     let u := (10 ^ N.of_nat p)%N in
     (Js.round53 (n / u * u) = n -> P (n / u * u)%N)
     /\ (Js.round53 (n / u * u + u) = n -> P (n / u * u + u)%N)) ->
  forall p, P (Js.shortest_aux n p).
Proof.
  intros Hn Hstep p.
  induction p as [|p IH]; cbn [Js.shortest_aux]; cbv zeta.
  - destruct (Hstep 0%nat) as [Ha Hb]. cbv zeta in Ha, Hb.
    destruct (N.eqb_spec (Js.round53 (n / 10 ^ N.of_nat 0 * 10 ^ N.of_nat 0)) n);
      destruct (N.eqb_spec
                  (Js.round53 (n / 10 ^ N.of_nat 0 * 10 ^ N.of_nat 0
                               + 10 ^ N.of_nat 0)) n);
      repeat match goal with
             | |- context [if ?c then _ else _] => destruct c
             end; auto.
  - destruct (Hstep (S p)) as [Ha Hb]. cbv zeta in Ha, Hb.
    destruct (N.eqb_spec
                (Js.round53 (n / 10 ^ N.of_nat (S p) * 10 ^ N.of_nat (S p))) n);
      destruct (N.eqb_spec
                  (Js.round53 (n / 10 ^ N.of_nat (S p) * 10 ^ N.of_nat (S p)
                               + 10 ^ N.of_nat (S p))) n);
      repeat match goal with
             | |- context [if ?c then _ else _] => destruct c
             end; auto.
Qed.

(** The chosen multiple rounds to the number. *)
Lemma shortest_aux_rounds (n : N) (p : nat) :
  Js.round53 n = n -> Js.round53 (Js.shortest_aux n p) = n.
Proof.
  intros Hn. apply shortest_aux_ind; [exact Hn|].
  intros q. cbv zeta. split; auto.
Qed.

(** Below 2^53 the number is its own shortest form. *)
Lemma shortest_aux_small (n : N) (p : nat) :
  (n < 2 ^ 53)%N -> Js.shortest_aux n p = n.
Proof.
  intros Hn. apply shortest_aux_ind; [reflexivity|].
  intros q. cbv zeta. pose proof (candidates n q) as Hc. cbv zeta in Hc.
  split; intros E.
  - rewrite round53_small in E by lia. exact E.
  - exfalso.
    destruct (N.lt_ge_cases (n / 10 ^ N.of_nat q * 10 ^ N.of_nat q
                             + 10 ^ N.of_nat q) (2 ^ 53)) as [Hs|Hs].
    + rewrite round53_small in E by exact Hs. lia.
    + apply round53_large in Hs. lia.
Qed.

(** What is below 1e21 has its shortest form below 1e21. *)
Lemma shortest_aux_below (n : N) (p : nat) :
  (n < Js.decimal_limit)%N -> (Js.shortest_aux n p < Js.decimal_limit)%N.
Proof.
  intros Hn. apply shortest_aux_ind; [exact Hn|].
  intros q. cbv zeta. pose proof (candidates n q) as Hc. cbv zeta in Hc.
  split; intros E; [lia|].
  destruct (N.lt_ge_cases (n / 10 ^ N.of_nat q * 10 ^ N.of_nat q
                           + 10 ^ N.of_nat q) Js.decimal_limit) as [Hs|Hs];
    [exact Hs|].
  apply round53_decimal_limit in Hs. lia.
Qed.

Lemma shortest_rounds (n : N) :
  Js.round53 n = n -> Js.round53 (Js.shortest n) = n.
Proof. apply shortest_aux_rounds. Qed.

Lemma shortest_small (n : N) : (n < 2 ^ 53)%N -> Js.shortest n = n.
Proof. apply shortest_aux_small. Qed.

Lemma shortest_below (n : N) :
  (n < Js.decimal_limit)%N -> (Js.shortest n < Js.decimal_limit)%N.
Proof. apply shortest_aux_below. Qed.

End RoundingFacts.

Section NumberFacts.

Lemma digit_value_digit_char (d : N) :
  (d < 10)%N -> Js.digit_value (Js.digit_char d) = Some d.
Proof.
  intros H.
  assert (E : In d [0; 1; 2; 3; 4; 5; 6; 7; 8; 9]%N).
  { simpl. lia. }
  simpl in E.
  repeat (destruct E as [E|E]; [subst d; reflexivity|]).
  contradiction.
Qed.

Lemma is_digit_digit_char (d : N) :
  (d < 10)%N -> Js.is_digit (Js.digit_char d) = true.
Proof.
  intros H. unfold Js.is_digit. now rewrite digit_value_digit_char.
Qed.

Lemma parse_digits_app (a b : string) (acc : option N) :
  Js.all_digits a = true ->
  Js.parse_digits (a ++ b) acc = Js.parse_digits b (Js.parse_digits a acc).
Proof.
  revert acc. induction a as [|c a IH]; simpl; intros acc H; [reflexivity|].
  apply andb_prop in H as [Hc Ha]. unfold Js.is_digit in Hc.
  destruct (Js.digit_value c); [|discriminate].
  now apply IH.
Qed.

Lemma all_digits_app (a b : string) :
  Js.all_digits (a ++ b) = Js.all_digits a && Js.all_digits b.
Proof.
  induction a as [|c a IH]; simpl; [reflexivity|].
  now rewrite IH, andb_assoc.
Qed.

(** With enough fuel the digits of [n] are written in front of [acc], and
    reading them back gives [n]. *)
Lemma digits_aux_spec (f : nat) :
  forall (n : N) (acc : string),
    (n < 2 ^ N.of_nat (S f))%N ->
    exists ds,
      Js.digits_aux (S f) n acc = ds ++ acc
      /\ Js.all_digits ds = true
      /\ ds <> ""
      /\ Js.parse_digits ds None = Some n.
Proof.
  assert (last_digit : forall n, (n mod 10 < 10)%N).
  { intros n. apply N.mod_lt. discriminate. }
  assert (base : forall n acc, (n / 10 = 0)%N ->
    exists ds, String (Js.digit_char (n mod 10)) acc = ds ++ acc
      /\ Js.all_digits ds = true /\ ds <> ""
      /\ Js.parse_digits ds None = Some n).
  { intros n acc Hq.
    exists (String (Js.digit_char (n mod 10)) "").
    repeat split.
    - simpl. now rewrite is_digit_digit_char.
    - discriminate.
    - cbn [Js.parse_digits].
      rewrite digit_value_digit_char by apply last_digit.
      f_equal. pose proof (N.div_mod n 10 ltac:(discriminate)) as H.
      rewrite Hq, N.mul_0_r, N.add_0_l in H. now symmetry. }
  induction f as [|f IH]; intros n acc Hn.
  - simpl. destruct (N.eqb_spec (n / 10) 0) as [Hq|Hq]; [now apply base|].
    exfalso. apply Hq. apply N.div_small. simpl in Hn. lia.
  - change (Js.digits_aux (S (S f)) n acc)
      with (if (n / 10 =? 0)%N
            then String (Js.digit_char (n mod 10)) acc
            else Js.digits_aux (S f) (n / 10)
                   (String (Js.digit_char (n mod 10)) acc)).
    destruct (N.eqb_spec (n / 10) 0) as [Hq|Hq]; [now apply base|].
    destruct (IH (n / 10)%N (String (Js.digit_char (n mod 10)) acc))
      as (ds & Hds & Hall & Hne & Hparse).
    { rewrite Nat2N.inj_succ, N.pow_succ_r' in Hn.
      apply N.Div0.div_lt_upper_bound. lia. }
    exists (ds ++ String (Js.digit_char (n mod 10)) "").
    repeat split.
    + rewrite Hds, append_assoc. reflexivity.
    + rewrite all_digits_app, Hall. simpl.
      now rewrite is_digit_digit_char.
    + destruct ds; [congruence | discriminate].
    + rewrite parse_digits_app, Hparse by exact Hall.
      cbn [Js.parse_digits].
      rewrite digit_value_digit_char by apply last_digit.
      f_equal. symmetry. apply N.div_mod. discriminate.
Qed.

Lemma string_of_N_spec (n : N) :
  Js.all_digits (Js.string_of_N n) = true
  /\ Js.string_of_N n <> ""
  /\ Js.parse_digits (Js.string_of_N n) None = Some n.
Proof.
  unfold Js.string_of_N.
  destruct (digits_aux_spec (N.to_nat (N.log2 n)) n "")
    as (ds & Hds & Hall & Hne & Hparse).
  { rewrite Nat2N.inj_succ, N2Nat.id.
    destruct n as [|p]; [reflexivity|].
    apply N.log2_spec. reflexivity. }
  rewrite append_nil_r in Hds. rewrite Hds. auto.
Qed.

Lemma digit_not_special (c : ascii) :
  Js.is_digit c = true ->
  Js.is_white_space c = false
  /\ Js.strip_sign (String c "") = (false, String c "")
  /\ Ascii.eqb c ":" = false.
Proof.
  destruct c as [[] [] [] [] [] [] [] []];
    vm_compute; intros H; try discriminate H; repeat split.
Qed.

Lemma strip_sign_digit (c : ascii) (s : string) :
  Js.is_digit c = true -> Js.strip_sign (String c s) = (false, String c s).
Proof.
  destruct c as [[] [] [] [] [] [] [] []];
    vm_compute; intros H; try discriminate H; reflexivity.
Qed.

Lemma all_digits_no_colon (s : string) :
  Js.all_digits s = true -> Js.includes ":" s = false.
Proof.
  induction s as [|c s IH]; simpl; [reflexivity|].
  intros H. apply andb_prop in H as [Hc Hs].
  destruct (digit_not_special c Hc) as (_ & _ & ->). now apply IH.
Qed.

Lemma parseInt_digits (s : string) (n : N) :
  Js.all_digits s = true -> s <> "" ->
  Js.parse_digits s None = Some n ->
  Js.parseInt s = Js.Int (Z.of_N n)
  /\ Js.parseInt (String "-" s) = Js.Int (- Z.of_N n).
Proof.
  intros Hall Hne Hparse.
  destruct s as [|c s]; [congruence|].
  simpl in Hall. apply andb_prop in Hall as [Hc _].
  destruct (digit_not_special c Hc) as (Hw & _ & _).
  split.
  - unfold Js.parseInt. simpl Js.trimStart. rewrite Hw.
    rewrite (strip_sign_digit c s Hc), Hparse. reflexivity.
  - unfold Js.parseInt.
    change (Js.trimStart (String "-" (String c s)))
      with (String "-" (String c s)).
    change (Js.strip_sign (String "-" (String c s)))
      with (true, String c s).
    cbv beta iota. rewrite Hparse. reflexivity.
Qed.

(** *** Numbers as values *)

Lemma is_double_irrelevant (z : Z) (H H' : Js.is_double z = true) : H = H'.
Proof. apply UIP_dec, bool_dec. Qed.

Lemma Finite_eq (z z' : Z) (H : Js.is_double z = true)
    (H' : Js.is_double z' = true) :
  z = z' -> Js.Finite z H = Js.Finite z' H'.
Proof.
  intros E. subst z'. f_equal. apply is_double_irrelevant.
Qed.

Lemma Finite_inj (z z' : Z) (H : Js.is_double z = true)
    (H' : Js.is_double z' = true) :
  Js.Finite z H = Js.Finite z' H' -> z = z'.
Proof. intros E. now injection E. Qed.

(** An integer that rounds to a double is the number of that double. *)
Lemma Int_rounds (y z : Z) (H : Js.is_double z = true) :
  Js.round y = z -> Js.Int y = Js.Finite z H.
Proof.
  intros E. unfold Js.Int.
  destruct (bool_dec (Js.is_double (Js.round y)) true) as [H'|H'].
  - now apply Finite_eq.
  - exfalso. apply H'. now rewrite E.
Qed.

Lemma is_double_round (z : Z) : Js.is_double z = true -> Js.round z = z.
Proof.
  unfold Js.is_double. intros H. apply andb_prop in H as [H _].
  now apply Z.eqb_eq.
Qed.

Lemma Int_Finite (z : Z) (H : Js.is_double z = true) :
  Js.Int z = Js.Finite z H.
Proof. apply Int_rounds, is_double_round, H. Qed.

Lemma is_double_round53 (z : Z) :
  Js.is_double z = true -> Js.round53 (Z.abs_N z) = Z.abs_N z.
Proof.
  intros H. apply is_double_round in H. unfold Js.round in H.
  destruct (Z.ltb_spec z 0); lia.
Qed.

Lemma safe_is_double (z : Z) : Js.is_safe z = true -> Js.is_double z = true.
Proof.
  unfold Js.is_safe, Js.is_double, Js.round. intros H.
  apply Z.leb_le in H.
  assert (E : Js.round53 (Z.abs_N z) = Z.abs_N z).
  { destruct (N.eq_dec (Z.abs_N z) (2 ^ 53)) as [->|Hne]; [reflexivity|].
    apply round53_small. lia. }
  rewrite E. apply andb_true_intro. split.
  - apply Z.eqb_eq. destruct (Z.ltb_spec z 0); lia.
  - apply N.ltb_lt. unfold Js.overflow. lia.
Qed.

(** The number of a safe integer is that integer. *)
Lemma Int_safe (z : Z) (H : Js.is_safe z = true) :
  Js.Int z = Js.Finite z (safe_is_double z H).
Proof. apply Int_Finite. Qed.

Lemma Int_safe_inj (z z' : Z) :
  Js.is_safe z = true -> Js.is_safe z' = true ->
  Js.Int z = Js.Int z' -> z = z'.
Proof.
  intros H H' E. rewrite (Int_safe z H), (Int_safe z' H') in E.
  now apply Finite_inj in E.
Qed.

(** *** Digits *)

Lemma string_of_N_inj (n m : N) :
  Js.string_of_N n = Js.string_of_N m -> n = m.
Proof.
  intros E.
  destruct (string_of_N_spec n) as (_ & _ & Hn).
  destruct (string_of_N_spec m) as (_ & _ & Hm).
  rewrite E in Hn. congruence.
Qed.

Lemma all_digits_strip_zeros (s : string) :
  Js.all_digits s = true -> Js.all_digits (Js.strip_zeros s) = true.
Proof.
  induction s as [|c s IH]; [reflexivity|].
  cbn [Js.all_digits Js.strip_zeros]. intros H.
  apply andb_prop in H as [Hc Hs]. specialize (IH Hs).
  destruct (Js.strip_zeros s) as [|d t].
  - destruct (Ascii.eqb c "0"); [reflexivity|].
    cbn [Js.all_digits]. now rewrite Hc.
  - cbn [Js.all_digits] in *. now rewrite Hc, IH.
Qed.

Lemma strip_zeros_spec (s : string) :
  exists k, s = Js.strip_zeros s ++ zeros k.
Proof.
  induction s as [|c s [k IH]]; [now exists 0%nat|].
  cbn [Js.strip_zeros].
  destruct (Js.strip_zeros s) as [|d t].
  - destruct (Ascii.eqb_spec c "0") as [->|_].
    + exists (S k). simpl in *. now rewrite <- IH.
    + exists k. simpl in *. now rewrite <- IH.
  - exists k. simpl in *. now rewrite <- IH.
Qed.

Lemma length_append (a b : string) :
  String.length (a ++ b) = String.length a + String.length b.
Proof. induction a as [|c a IH]; simpl; [reflexivity|]. now rewrite IH. Qed.

Lemma length_zeros (k : nat) : String.length (zeros k) = k.
Proof. induction k as [|k IH]; simpl; [reflexivity|]. now rewrite IH. Qed.

(** The digits are known from the digits without the zeros at the end and
    from their number. *)
Lemma strip_zeros_inj (s t : string) :
  Js.strip_zeros s = Js.strip_zeros t ->
  String.length s = String.length t -> s = t.
Proof.
  intros E L.
  destruct (strip_zeros_spec s) as [k Hs].
  destruct (strip_zeros_spec t) as [j Ht].
  rewrite Hs, Ht, !length_append, !length_zeros, E in L.
  assert (k = j) by lia. subst j.
  rewrite Hs, Ht, E. reflexivity.
Qed.

(** Two strings of digits in front of the same character that is no digit. *)
Lemma digits_prefix_inj (c : ascii) (a b x y : string) :
  Js.is_digit c = false ->
  Js.all_digits a = true -> Js.all_digits b = true ->
  a ++ String c x = b ++ String c y -> a = b /\ x = y.
Proof.
  intros Hc. revert b.
  induction a as [|d a IH]; intros [|d' b] Ha Hb E; simpl in *.
  - injection E as ->. auto.
  - injection E as <- _. apply andb_prop in Hb as [Hb _]. congruence.
  - injection E as -> _. apply andb_prop in Ha as [Ha _]. congruence.
  - injection E as -> E.
    apply andb_prop in Ha as [_ Ha]. apply andb_prop in Hb as [_ Hb].
    destruct (IH b Ha Hb E) as [-> ->]. auto.
Qed.

Lemma string_of_N_head (n : N) :
  exists d r, Js.string_of_N n = String d r
              /\ Js.is_digit d = true /\ Js.all_digits r = true.
Proof.
  destruct (string_of_N_spec n) as (Hall & Hne & _).
  destruct (Js.string_of_N n) as [|d r]; [congruence|].
  simpl in Hall. apply andb_prop in Hall as [Hd Hr]. eauto.
Qed.

(** *** The two forms of a printed number *)

Lemma exponent_form_spec (v : N) :
  exists d r,
    Js.string_of_N v = String d r
    /\ Js.is_digit d = true /\ Js.all_digits r = true
    /\ Js.exponent_form v
       = String d
           ((match Js.strip_zeros r with
             | EmptyString => EmptyString
             | t => String "." t
             end)
            ++ "e+" ++ Js.string_of_N (N.of_nat (String.length r))).
Proof.
  destruct (string_of_N_head v) as (d & r & E & Hd & Hr).
  exists d, r. repeat split; try assumption.
  unfold Js.exponent_form. rewrite E.
  destruct (Js.strip_zeros r); reflexivity.
Qed.

Lemma exponent_form_inj (v w : N) :
  Js.exponent_form v = Js.exponent_form w -> v = w.
Proof.
  destruct (exponent_form_spec v) as (d & r & Ev & _ & Hr & ->).
  destruct (exponent_form_spec w) as (d' & r' & Ew & _ & Hr' & ->).
  intros E. injection E as -> E.
  apply string_of_N_inj. rewrite Ev, Ew. f_equal.
  pose proof (all_digits_strip_zeros r Hr) as Hs.
  pose proof (all_digits_strip_zeros r' Hr') as Hs'.
  assert (Js.strip_zeros r = Js.strip_zeros r'
          /\ Js.string_of_N (N.of_nat (String.length r))
             = Js.string_of_N (N.of_nat (String.length r'))) as [Es El].
  { destruct (Js.strip_zeros r) as [|a t], (Js.strip_zeros r') as [|a' t'];
      cbn [append] in E.
    - injection E as E. auto.
    - discriminate E.
    - discriminate E.
    - injection E as -> E.
      cbn [Js.all_digits] in Hs, Hs'.
      apply andb_prop in Hs as [_ Hs]. apply andb_prop in Hs' as [_ Hs'].
      apply digits_prefix_inj in E as [-> E];
        [|reflexivity|assumption|assumption].
      injection E as E. auto. }
  apply strip_zeros_inj; [exact Es|].
  apply string_of_N_inj in El. lia.
Qed.

Lemma exponent_form_not_digits (v : N) :
  Js.all_digits (Js.exponent_form v) = false.
Proof.
  destruct (exponent_form_spec v) as (d & r & _ & _ & Hr & ->).
  pose proof (all_digits_strip_zeros r Hr) as Hs.
  cbn [Js.all_digits]. apply andb_false_intro2.
  destruct (Js.strip_zeros r) as [|a t]; [reflexivity|reflexivity].
Qed.

Lemma format_inj (v w : N) : Js.format v = Js.format w -> v = w.
Proof.
  unfold Js.format.
  destruct (N.ltb v Js.decimal_limit), (N.ltb w Js.decimal_limit); intros E.
  - now apply string_of_N_inj.
  - pose proof (exponent_form_not_digits w) as H. rewrite <- E in H.
    destruct (string_of_N_spec v) as (Hv & _). congruence.
  - pose proof (exponent_form_not_digits v) as H. rewrite E in H.
    destruct (string_of_N_spec w) as (Hw & _). congruence.
  - now apply exponent_form_inj.
Qed.

(** A printed magnitude begins with a digit. *)
Lemma format_head (v : N) :
  exists d r, Js.format v = String d r /\ Js.is_digit d = true.
Proof.
  unfold Js.format. destruct (N.ltb v Js.decimal_limit).
  - destruct (string_of_N_head v) as (d & r & E & Hd & _). eauto.
  - destruct (exponent_form_spec v) as (d & r & _ & Hd & _ & ->). eauto.
Qed.

Lemma format_no_colon (v : N) : Js.includes ":" (Js.format v) = false.
Proof.
  unfold Js.format. destruct (N.ltb v Js.decimal_limit).
  - apply all_digits_no_colon. apply string_of_N_spec.
  - destruct (exponent_form_spec v) as (d & r & _ & Hd & Hr & ->).
    pose proof (all_digits_strip_zeros r Hr) as Hs.
    cbn [Js.includes].
    destruct (digit_not_special d Hd) as (_ & _ & ->).
    rewrite includes_app. cbn [orb Js.includes append].
    change (Ascii.eqb "e" ":") with false.
    change (Ascii.eqb "+" ":") with false. cbn [orb].
    rewrite (all_digits_no_colon (Js.string_of_N _))
      by apply string_of_N_spec.
    rewrite orb_false_r.
    destruct (Js.strip_zeros r) as [|a t]; [reflexivity|].
    cbn [Js.includes]. change (Ascii.eqb "." ":") with false.
    apply (all_digits_no_colon _ Hs).
Qed.

(** *** Printing and reading *)

Lemma toString_no_colon (x : Js.number) :
  Js.includes ":" (Js.toString x) = false.
Proof.
  destruct x as [z H| |[]]; try reflexivity.
  cbn [Js.toString]. pose proof (format_no_colon (Js.shortest (Z.abs_N z))).
  destruct (z <? 0)%Z; [cbn [Js.includes]|]; assumption.
Qed.

Lemma head_class_toString (x : Js.number) :
  head_class (Js.toString x)
  = match x with
    | Js.Finite z _ => if (z <? 0)%Z then 1 else 0
    | Js.NaN => 3
    | Js.Infinity true => 2
    | Js.Infinity false => 4
    end.
Proof.
  destruct x as [z H| |[]]; try reflexivity.
  cbn [Js.toString].
  destruct (format_head (Js.shortest (Z.abs_N z))) as (d & r & -> & Hd).
  destruct (z <? 0)%Z; cbn [head_class]; now rewrite Hd.
Qed.

(** Two numbers that are printed alike are the same number, in either
    form. *)
Lemma toString_inj (x y : Js.number) : Js.toString x = Js.toString y -> x = y.
Proof.
  intros E. pose proof (f_equal head_class E) as Hc.
  rewrite !head_class_toString in Hc.
  destruct x as [z H| |[]], y as [z' H'| |[]];
    try reflexivity; try discriminate Hc;
    try (destruct (z <? 0)%Z; discriminate Hc);
    try (destruct (z' <? 0)%Z; discriminate Hc).
  apply Finite_eq.
  pose proof (is_double_round53 z H) as Hz.
  pose proof (is_double_round53 z' H') as Hz'.
  assert (Hmag : Js.format (Js.shortest (Z.abs_N z))
                 = Js.format (Js.shortest (Z.abs_N z')) ->
                 Z.abs_N z = Z.abs_N z').
  { intros Ef. apply format_inj in Ef.
    rewrite <- (shortest_rounds _ Hz), <- (shortest_rounds _ Hz').
    now rewrite Ef. }
  cbn [Js.toString] in E.
  destruct (Z.ltb_spec z 0), (Z.ltb_spec z' 0); try discriminate Hc.
  - injection E as E. apply Hmag in E. lia.
  - apply Hmag in E. lia.
Qed.

Lemma round_of_N (s : N) : Js.round (Z.of_N s) = Z.of_N (Js.round53 s).
Proof.
  unfold Js.round. rewrite Zabs2N.id.
  destruct (Z.ltb_spec (Z.of_N s) 0); [lia | reflexivity].
Qed.

Lemma round_opp_of_N (s : N) :
  Js.round (- Z.of_N s) = (- Z.of_N (Js.round53 s))%Z.
Proof.
  unfold Js.round. rewrite Zabs2N.inj_opp, Zabs2N.id.
  destruct (Z.ltb_spec (- Z.of_N s) 0); [reflexivity|].
  assert (s = 0%N) by lia. subst s. reflexivity.
Qed.

(** An integer of magnitude below 1e21 is written in decimal, with the
    digits of an integer that rounds to it, and read back. *)
Lemma reads_back_below (z : Z) (H : Js.is_double z = true) :
  (Z.abs z < Z.of_N Js.decimal_limit)%Z -> reads_back (Js.Finite z H).
Proof.
  intros Hlim. unfold reads_back. cbn [Js.toString]. unfold Js.format.
  pose proof (is_double_round53 z H) as Hz.
  pose proof (shortest_rounds (Z.abs_N z) Hz) as Hr.
  assert (Hb : (Js.shortest (Z.abs_N z) < Js.decimal_limit)%N).
  { apply shortest_below. lia. }
  apply N.ltb_lt in Hb. rewrite Hb.
  destruct (string_of_N_spec (Js.shortest (Z.abs_N z)))
    as (Hall & Hne & Hparse).
  destruct (parseInt_digits _ _ Hall Hne Hparse) as [Hpos Hneg].
  destruct (Z.ltb_spec z 0).
  - rewrite Hneg. apply Int_rounds.
    rewrite round_opp_of_N, Hr, N2Z.inj_abs_N. lia.
  - rewrite Hpos. apply Int_rounds.
    rewrite round_of_N, Hr, N2Z.inj_abs_N. lia.
Qed.

Lemma reads_back_NaN : reads_back Js.NaN.
Proof. reflexivity. Qed.

(** A safe integer is written with its own digits. *)
Lemma toString_safe (z : Z) :
  Js.is_safe z = true -> Js.toString (Js.Int z) = Js.string_of_Z z.
Proof.
  intros H. rewrite (Int_safe z H). cbn [Js.toString].
  unfold Js.is_safe in H. apply Z.leb_le in H.
  assert (E : Js.shortest (Z.abs_N z) = Z.abs_N z).
  { destruct (N.eq_dec (Z.abs_N z) (2 ^ 53)) as [->|Hne];
      [vm_compute; reflexivity|].
    apply shortest_small. lia. }
  rewrite E. unfold Js.format, Js.string_of_Z.
  assert (Hb : (Z.abs_N z <? Js.decimal_limit)%N = true).
  { apply N.ltb_lt. unfold Js.decimal_limit. lia. }
  now rewrite Hb.
Qed.

Lemma reads_back_safe (z : Z) :
  Js.is_safe z = true -> reads_back (Js.Int z).
Proof.
  intros H. rewrite (Int_safe z H). apply reads_back_below.
  unfold Js.is_safe in H. apply Z.leb_le in H.
  unfold Js.decimal_limit. lia.
Qed.

(** A number of 53 bits, scaled by a power of two, is not rounded. *)
Lemma round53_scaled (k e : N) :
  (2 ^ 52 <= k <= 2 ^ 53)%N -> Js.round53 (k * 2 ^ e) = (k * 2 ^ e)%N.
Proof.
  intros Hk.
  assert (He : (2 ^ e <> 0)%N) by (apply N.pow_nonzero; lia).
  assert (Hscaled : forall j f : N,
            (2 ^ 52 <= j < 2 ^ 53)%N -> (2 ^ 53 <= j * 2 ^ f)%N ->
            Js.round53 (j * 2 ^ f) = (j * 2 ^ f)%N).
  { intros j f Hj Hbig.
    assert (Hf : (2 ^ f <> 0)%N) by (apply N.pow_nonzero; lia).
    assert (Hlog : N.log2 (j * 2 ^ f) = (52 + f)%N).
    { apply N.log2_unique; [lia|].
      rewrite N.pow_succ_r', !N.pow_add_r. nia. }
    unfold Js.round53.
    destruct (N.ltb_spec (j * 2 ^ f) (2 ^ 53)) as [Hlt|_]; [lia|].
    rewrite Hlog. replace (52 + f - 52)%N with f by lia.
    rewrite N.div_mul, N.Div0.mod_mul by exact Hf.
    assert (Hhalf : (2 ^ (f - 1) <> 0)%N) by (apply N.pow_nonzero; lia).
    destruct (N.ltb_spec (2 ^ (f - 1)) 0) as [Hlt|_]; [lia|].
    destruct (N.eqb_spec 0 (2 ^ (f - 1))) as [E|_]; [lia|].
    reflexivity. }
  destruct (N.lt_ge_cases (k * 2 ^ e) (2 ^ 53)) as [Hs|Hs];
    [now apply round53_small|].
  destruct (N.eq_dec k (2 ^ 53)) as [->|Hne].
  - replace (2 ^ 53 * 2 ^ e)%N with (2 ^ 52 * 2 ^ (e + 1))%N
      by (rewrite N.pow_add_r; lia).
    apply Hscaled; [lia|]. rewrite N.pow_add_r. nia.
  - apply Hscaled; [lia | exact Hs].
Qed.

(** What was rounded is not rounded again. *)
Lemma round53_idempotent (n : N) :
  Js.round53 (Js.round53 n) = Js.round53 n.
Proof.
  destruct (N.lt_ge_cases n (2 ^ 53)) as [Hs|Hs];
    [now rewrite !(round53_small n Hs)|].
  assert (Hlog : (53 <= N.log2 n)%N).
  { rewrite <- (N.log2_pow2 53) by lia. now apply N.log2_le_mono. }
  set (e := (N.log2 n - 52)%N).
  assert (He : (2 ^ e <> 0)%N) by (apply N.pow_nonzero; lia).
  assert (Hn : (2 ^ N.log2 n <= n < 2 ^ N.succ (N.log2 n))%N)
    by (apply N.log2_spec; lia).
  assert (Hpow : (2 ^ N.log2 n = 2 ^ e * 2 ^ 52)%N).
  { rewrite <- N.pow_add_r. f_equal. unfold e. lia. }
  rewrite N.pow_succ_r' in Hn.
  assert (Hq : (2 ^ 52 <= n / 2 ^ e < 2 ^ 53)%N).
  { split.
    - apply N.div_le_lower_bound; [exact He | lia].
    - apply N.Div0.div_lt_upper_bound. lia. }
  assert (Hform : exists k,
            (2 ^ 52 <= k <= 2 ^ 53)%N /\ Js.round53 n = (k * 2 ^ e)%N).
  { unfold Js.round53.
    destruct (N.ltb_spec n (2 ^ 53)) as [Hlt|_]; [lia|]. fold e.
    destruct (_ || _); eexists; (split; [|reflexivity]); lia. }
  destruct Hform as (k & Hk & ->). now apply round53_scaled.
Qed.

Lemma round_idempotent (z : Z) : Js.round (Js.round z) = Js.round z.
Proof.
  assert (E : Js.round z
              = if (z <? 0)%Z then (- Z.of_N (Js.round53 (Z.abs_N z)))%Z
                else Z.of_N (Js.round53 (Z.abs_N z))) by reflexivity.
  rewrite E. destruct (z <? 0)%Z.
  - now rewrite round_opp_of_N, round53_idempotent.
  - now rewrite round_of_N, round53_idempotent.
Qed.

(** The number of an integer is the integer rounded, and is infinite
    exactly when that is 2^1024 or more. *)
Lemma Int_spec (z : Z) :
  ((Z.abs_N (Js.round z) < Js.overflow)%N ->
   exists H, Js.Int z = Js.Finite (Js.round z) H)
  /\ ((Js.overflow <= Z.abs_N (Js.round z))%N ->
      Js.Int z = Js.Infinity (z <? 0)%Z).
Proof.
  unfold Js.Int.
  destruct (bool_dec (Js.is_double (Js.round z)) true) as [H|H]; split.
  - eauto.
  - intros Hbig. exfalso. pose proof H as H'. unfold Js.is_double in H'.
    apply andb_prop in H' as [_ H']. apply N.ltb_lt in H'. lia.
  - intros Hsmall. exfalso. apply H. unfold Js.is_double.
    rewrite round_idempotent, Z.eqb_refl. now apply N.ltb_lt.
  - reflexivity.
Qed.

End NumberFacts.

(** ** [parseFilePosition] and [stringifyLocation] *)

Section LocationStrings.

Lemma parseFilePosition_components (value : string) (pre : list string)
    (l c : string) :
  Js.split ":" value = (pre ++ [l; c])%list -> pre <> [] ->
  parseFilePosition value =
    Ok {| fp_uri := Js.join "" pre;
          position := {| Lsp.line := Js.parseInt l;
                         Lsp.character := Js.parseInt c |} |}.
Proof.
  intros E Hpre. unfold parseFilePosition. rewrite E.
  rewrite length_app. cbn [List.length].
  destruct pre as [|p pre]; [congruence|].
  set (k := List.length (p :: pre)).
  assert (Hk : 1 <= k) by (subst k; simpl; lia).
  destruct (Nat.ltb_spec (k + 2) 3) as [Hlt|_]; [lia|].
  replace (k + 2 - 2) with k by lia.
  replace (k + 2 - 1) with (k + 1) by lia.
  rewrite !app_nth2 by (fold k; lia). fold k.
  replace (k - k) with 0 by lia. replace (k + 1 - k) with 1 by lia.
  subst k. rewrite firstn_app, Nat.sub_diag, firstn_all, firstn_O, app_nil_r.
  reflexivity.
Qed.

(** A path, then two strings without colon: the two strings are read as
    the line and the column, and the path loses its colons. *)
Lemma parseFilePosition_of_strings (path l c : string) :
  Js.includes ":" l = false -> Js.includes ":" c = false ->
  parseFilePosition (path ++ ":" ++ l ++ ":" ++ c) =
    Ok {| fp_uri := Js.remove_char ":" path;
          position := {| Lsp.line := Js.parseInt l;
                         Lsp.character := Js.parseInt c |} |}.
Proof.
  intros Hl Hc.
  rewrite (parseFilePosition_components _ (Js.split ":" path) l c).
  - now rewrite join_split.
  - change (":" ++ l ++ ":" ++ c) with (String ":" (l ++ String ":" c)).
    rewrite !split_app.
    rewrite (split_without_sep _ _ Hl), (split_without_sep _ _ Hc).
    reflexivity.
  - apply split_not_nil.
Qed.

(** The string of a location parses to the location's start, and to its
    path without the colons, when the line and the column are read back. *)
Lemma parseFilePosition_of_parts (path : string) (l c : Js.number) :
  reads_back l -> reads_back c ->
  parseFilePosition (path ++ ":" ++ Js.toString l ++ ":" ++ Js.toString c) =
    Ok {| fp_uri := Js.remove_char ":" path;
          position := {| Lsp.line := l; Lsp.character := c |} |}.
Proof.
  intros Hl Hc.
  rewrite parseFilePosition_of_strings by apply toString_no_colon.
  unfold reads_back in Hl, Hc. now rewrite Hl, Hc.
Qed.

Lemma parseFilePosition_stringifyLocation (loc : Lsp.Location) :
  reads_back (Lsp.line (Lsp.start (Lsp.range loc))) ->
  reads_back (Lsp.character (Lsp.start (Lsp.range loc))) ->
  parseFilePosition (stringifyLocation loc) =
    Ok {| fp_uri := Js.remove_char ":" (Lsp.uri loc);
          position := Lsp.start (Lsp.range loc) |}.
Proof.
  intros Hl Hc. unfold stringifyLocation.
  rewrite parseFilePosition_of_parts by assumption.
  now destruct loc as [u [[l c] e]].
Qed.

(** The line of a position, one less. *)
Lemma minus_one_line (pos : Pos_) :
  line (minus_one pos) = Js.round (line pos - 1)
  /\ col (minus_one pos) = col pos.
Proof.
  unfold minus_one.
  destruct (bool_dec (Js.is_safe (Js.round (line pos - 1))) true)
    as [H|H]; [split; reflexivity|].
  exfalso. apply H. pose proof (line_safe pos) as Hs.
  unfold Js.is_safe in *. apply Z.leb_le in Hs. apply Z.leb_le.
  unfold Js.round.
  destruct (Z.eq_dec (line pos) (- 2 ^ 53)) as [->|Hne];
    [vm_compute; discriminate|].
  destruct (Z.eq_dec (line pos) (1 - 2 ^ 53)) as [->|Hne'];
    [vm_compute; discriminate|].
  rewrite round53_small by lia.
  destruct (Z.ltb_spec (line pos - 1) 0); lia.
Qed.

(** The numbers of a position are read back from their strings. *)
Lemma reads_back_position (pos : Pos_) :
  reads_back (Js.Int (line pos)) /\ reads_back (Js.Int (col pos)).
Proof.
  split; apply reads_back_safe; [apply line_safe | apply col_safe].
Qed.

Lemma stringifyPosition_decimal (pos : Pos_) :
  stringifyPosition pos
  = Js.string_of_Z (line pos) ++ ":" ++ Js.string_of_Z (col pos).
Proof.
  unfold stringifyPosition.
  now rewrite (toString_safe _ (line_safe pos)),
    (toString_safe _ (col_safe pos)).
Qed.

(** A key of the fact store parses to its position, and to its file
    without the colons. *)
Lemma parseFilePosition_of_position (path : string) (pos : Pos_) :
  parseFilePosition (path ++ ":" ++ stringifyPosition pos) =
    Ok {| fp_uri := Js.remove_char ":" path;
          position := {| Lsp.line := Js.Int (line pos);
                         Lsp.character := Js.Int (col pos) |} |}.
Proof.
  unfold stringifyPosition.
  apply parseFilePosition_of_parts; apply reads_back_position.
Qed.




(** A natural number below 1e21 is written in decimal and read back. *)
Lemma reads_back_natural (x : Js.number) :
  Js.is_natural x = true -> Js.ltb x 1000000000000000000000 = true ->
  reads_back x.
Proof.
  destruct x as [z H| |b]; try discriminate.
  cbn [Js.is_natural Js.ltb]. intros Hnat Hlim.
  apply Z.leb_le in Hnat. apply Z.ltb_lt in Hlim.
  apply reads_back_below. unfold Js.decimal_limit. lia.
Qed.

(** C9, with the bound that the code needs: a location whose path has no
    colon and whose line and column are natural numbers below 1e21 is
    recovered from its string, path and start position; a path with a
    colon is recovered without its colons, so not recovered. *)
Theorem parseFilePosition_stringifyLocation_round_trip (loc : Lsp.Location) :
  Js.is_natural (Lsp.line (Lsp.start (Lsp.range loc))) = true ->
  Js.is_natural (Lsp.character (Lsp.start (Lsp.range loc))) = true ->
  Js.ltb (Lsp.line (Lsp.start (Lsp.range loc))) 1000000000000000000000
    = true ->
  Js.ltb (Lsp.character (Lsp.start (Lsp.range loc))) 1000000000000000000000
    = true ->
  (Js.includes ":" (Lsp.uri loc) = false ->
   parseFilePosition (stringifyLocation loc) =
     Ok {| fp_uri := Lsp.uri loc; position := Lsp.start (Lsp.range loc) |})
  /\ (Js.includes ":" (Lsp.uri loc) = true ->
      exists p,
        parseFilePosition (stringifyLocation loc) = Ok p
        /\ fp_uri p = Js.join "" (Js.split ":" (Lsp.uri loc))
        /\ fp_uri p = Js.remove_char ":" (Lsp.uri loc)
        /\ fp_uri p <> Lsp.uri loc
        /\ position p = Lsp.start (Lsp.range loc)).
Proof.
  intros Hl Hc Hl' Hc'.
  pose proof (reads_back_natural _ Hl Hl') as Rl.
  pose proof (reads_back_natural _ Hc Hc') as Rc.
  split; intros H.
  - rewrite parseFilePosition_stringifyLocation by assumption.
    now rewrite remove_char_absent.
  - eexists. split; [now apply parseFilePosition_stringifyLocation|].
    cbn [fp_uri position]. rewrite join_split.
    repeat split. now apply remove_char_present.
Qed.

(** C9, against the claim: 1e21 is a natural number, and a location on
    that line has the string [a.ml:1e+21:0], from which [parseInt] reads
    the line 1. *)
Lemma round_trip_fails_at_1e21 :
  let loc :=
    {| Lsp.uri := "a.ml";
       Lsp.range :=
         {| Lsp.start := {| Lsp.line := Js.Int 1000000000000000000000;
                            Lsp.character := Js.Int 0 |};
            Lsp.end_ := {| Lsp.line := Js.Int 1000000000000000000000;
                           Lsp.character := Js.Int 1 |} |} |} in
  Js.includes ":" (Lsp.uri loc) = false
  /\ Js.is_natural (Lsp.line (Lsp.start (Lsp.range loc))) = true
  /\ Js.is_natural (Lsp.character (Lsp.start (Lsp.range loc))) = true
  /\ stringifyLocation loc = "a.ml:1e+21:0"
  /\ parseFilePosition (stringifyLocation loc)
     = Ok {| fp_uri := "a.ml";
             position := {| Lsp.line := Js.Int 1;
                            Lsp.character := Js.Int 0 |} |}
  /\ parseFilePosition (stringifyLocation loc)
     <> Ok {| fp_uri := Lsp.uri loc;
              position := Lsp.start (Lsp.range loc) |}.
Proof.
  cbv zeta. repeat split; try (vm_compute; reflexivity).
  vm_compute. intros H. discriminate H.
Qed.

(** [parseFilePosition_stringifyLocation_round_trip] at a concrete input. *)
Lemma parseFilePosition_stringifyLocation_round_trip_witness :
  parseFilePosition "src/a.ml:12:7" =
    Ok {| fp_uri := "src/a.ml";
          position := {| Lsp.line := Js.Int 12;
                         Lsp.character := Js.Int 7 |} |}
  /\ exists p,
       parseFilePosition "c:/a.ml:12:7" = Ok p /\ fp_uri p = "c/a.ml".
Proof.
  split.
  - apply (proj1 (parseFilePosition_stringifyLocation_round_trip
       {| Lsp.uri := "src/a.ml";
          Lsp.range :=
            {| Lsp.start := {| Lsp.line := Js.Int 12;
                               Lsp.character := Js.Int 7 |};
               Lsp.end_ := {| Lsp.line := Js.Int 12;
                              Lsp.character := Js.Int 9 |} |} |}
       eq_refl eq_refl eq_refl eq_refl)).
    reflexivity.
  - destruct (proj2 (parseFilePosition_stringifyLocation_round_trip
       {| Lsp.uri := "c:/a.ml";
          Lsp.range :=
            {| Lsp.start := {| Lsp.line := Js.Int 12;
                               Lsp.character := Js.Int 7 |};
               Lsp.end_ := {| Lsp.line := Js.Int 12;
                              Lsp.character := Js.Int 9 |} |} |}
       eq_refl eq_refl eq_refl eq_refl) eq_refl) as (p & Hp & _ & Hu & _).
    exists p. split; [exact Hp | exact Hu].
Defined.

End LocationStrings.

(** ** The emitter *)

Section EmitterFacts.

Lemma emitter_eta {A : Type} (m : Emitter A) : m = (emitted m, snd m).
Proof. now destruct m. Qed.

Lemma bind_ok {A B : Type} (m : Emitter A) (k : A -> Emitter B) (a : A) :
  snd m = Ok a ->
  bind m k = ((emitted m ++ emitted (k a))%list, snd (k a)).
Proof.
  destruct m as [out r]. simpl. intros ->. simpl. now destruct (k a).
Qed.

Lemma bind_throw {A B : Type} (m : Emitter A) (k : A -> Emitter B)
    (e : Error) :
  snd m = Throw e -> bind m k = (emitted m, Throw e).
Proof. destruct m as [out r]. simpl. now intros ->. Qed.

Lemma emitted_bind_ok {A B : Type} (m : Emitter A) (k : A -> Emitter B)
    (a : A) :
  snd m = Ok a -> emitted (bind m k) = (emitted m ++ emitted (k a))%list.
Proof. intros H. now rewrite (bind_ok m k a H). Qed.

Lemma snd_bind_ok {A B : Type} (m : Emitter A) (k : A -> Emitter B)
    (a : A) :
  snd m = Ok a -> snd (bind m k) = snd (k a).
Proof. intros H. now rewrite (bind_ok m k a H). Qed.

Lemma emitted_bind_pair {A B : Type} (out : list Item) (a : A)
    (k : A -> Emitter B) :
  emitted (bind (out, Ok a) k) = (out ++ emitted (k a))%list.
Proof. apply (emitted_bind_ok (out, Ok a) k a eq_refl). Qed.

Lemma snd_bind_pair {A B : Type} (out : list Item) (a : A)
    (k : A -> Emitter B) :
  snd (bind (out, Ok a) k) = snd (k a).
Proof. apply (snd_bind_ok (out, Ok a) k a eq_refl). Qed.

Lemma emit_ok (i : Item) : snd (emit i) = Ok tt.
Proof. reflexivity. Qed.

Lemma bind_pair_ok {A B : Type} (out : list Item) (a : A)
    (k : A -> Emitter B) :
  bind (out, Ok a) k = ((out ++ emitted (k a))%list, snd (k a)).
Proof. cbn. now destruct (k a). Qed.

Lemma bind_pair_throw {A B : Type} (out : list Item) (e : Error)
    (k : A -> Emitter B) :
  bind (out, Throw e) k = (out, Throw e).
Proof. reflexivity. Qed.

Lemma bind_emit {B : Type} (i : Item) (k : unit -> Emitter B) :
  bind (emit i) k = (i :: emitted (k tt), snd (k tt)).
Proof. unfold emit. cbn. now destruct (k tt). Qed.

Lemma bind_ret {A B : Type} (a : A) (k : A -> Emitter B) :
  bind (ret a) k = k a.
Proof. unfold ret. cbn. now destruct (k a). Qed.

Lemma succeeds_bind {A B : Type} (m : Emitter A) (k : A -> Emitter B) :
  succeeds (bind m k) <-> exists a, snd m = Ok a /\ succeeds (k a).
Proof.
  destruct m as [out [a|e]]; simpl.
  - split.
    + intros [b Hb]. exists a. split; [reflexivity|]. exists b.
      now destruct (k a).
    + intros (a' & [= <-] & b & Hb). exists b. now destruct (k a).
  - split.
    + intros [b Hb]. discriminate.
    + intros (a & H & _). discriminate.
Qed.

(** What a run emitted came from its first part or, that one done, from
    its second part. *)
Lemma in_emitted_bind {A B : Type} (m : Emitter A) (k : A -> Emitter B)
    (i : Item) :
  In i (emitted (bind m k)) ->
  In i (emitted m) \/ exists a, snd m = Ok a /\ In i (emitted (k a)).
Proof.
  destruct m as [out [a|e]]; simpl.
  - destruct (k a) as [out' r] eqn:E. simpl. intros H.
    apply in_app_or in H as [H|H]; [now left|].
    right. exists a. now rewrite E.
  - now left.
Qed.

Lemma in_emitted_for_of {A : Type} (xs : list A) (body : A -> Emitter unit)
    (i : Item) :
  In i (emitted (for_of xs body)) ->
  exists x, In x xs /\ In i (emitted (body x)).
Proof.
  induction xs as [|x xs IH]; simpl; [contradiction|].
  intros H. apply in_emitted_bind in H as [H|(_ & _ & H)].
  - exists x. auto.
  - destruct (IH H) as (y & Hy & Hi). exists y. auto.
Qed.

Lemma for_of_succeeds {A : Type} (xs : list A) (body : A -> Emitter unit) :
  succeeds (for_of xs body) <-> Forall (fun x => succeeds (body x)) xs.
Proof.
  induction xs as [|x xs IH]; simpl.
  - split; [constructor | intros _; now exists tt].
  - rewrite succeeds_bind. split.
    + intros ([] & Hx & Hxs). constructor; [now exists tt | now apply IH].
    + intros H. inversion H as [|? ? [[] Hx] Hxs]; subst.
      exists tt. split; [exact Hx | now apply IH].
Qed.

Lemma for_of_ok {A : Type} (xs : list A) (body : A -> Emitter unit) :
  Forall (fun x => succeeds (body x)) xs ->
  for_of xs body = (flat_map (fun x => emitted (body x)) xs, Ok tt).
Proof.
  induction 1 as [|x xs [[] Hx] _ IH]; simpl; [reflexivity|].
  rewrite (bind_ok _ _ tt Hx), IH. reflexivity.
Qed.

Lemma for_of_emit {A : Type} (xs : list A) (f : A -> Item) :
  for_of xs (fun x => emit (f x)) = (map f xs, Ok tt).
Proof.
  induction xs as [|x xs IH]; [reflexivity|].
  cbn [for_of]. now rewrite bind_emit, IH.
Qed.

End EmitterFacts.

(** ** One definition group *)

Section GroupFacts.

Local Infix "+++" := app (right associativity, at level 60).

Variable hoverByDef : JsMap.t string.
Variable locByRange : JsMap.t Lsp.Location.
Variables importMonikerByRange exportMonikerByRange : JsMap.t MonikerInfo.

Let group := emitDefinitionGroup hoverByDef locByRange
               importMonikerByRange exportMonikerByRange.

Lemma emitImportOrDefinition_ok def defLoc m :
  snd (emitImportOrDefinition def defLoc m) = Ok tt.
Proof. now destruct m. Qed.

Lemma emitHover_ok def h : snd (emitHover def h) = Ok tt.
Proof. unfold emitHover. now destruct (truthy h). Qed.

Lemma emitDefinitionsItem_ok def defLoc m :
  snd (emitDefinitionsItem def defLoc m) = Ok tt.
Proof. now destruct m. Qed.

Lemma emitExport_ok def m : snd (emitExport def m) = Ok tt.
Proof. now destruct m. Qed.

Lemma emitReferenceItems_eq def refs :
  emitReferenceItems def refs =
    match Lodash.groupBy refs uriOfRef with
    | Ok groups => (map (referencesItem def) (Lodash.toPairs groups), Ok tt)
    | Throw e => ([], Throw e)
    end.
Proof.
  unfold emitReferenceItems, JsSet.toArray, lift.
  destruct (Lodash.groupBy refs uriOfRef) as [groups|e]; [|reflexivity].
  rewrite bind_pair_ok, for_of_emit. reflexivity.
Qed.

Lemma emitDefinitionGroup_eq def refs :
  group def refs =
    match JsMap.get def locByRange with
    | None => ([], Throw UnableToLookUpDef)
    | Some defLoc =>
        (group_head hoverByDef importMonikerByRange def defLoc refs
         +++ match Lodash.groupBy refs uriOfRef with
             | Ok groups =>
                 map (referencesItem def) (Lodash.toPairs groups)
                 +++ emitted (emitExport def
                                (JsMap.get def exportMonikerByRange))
             | Throw _ => []
             end,
         match Lodash.groupBy refs uriOfRef with
         | Ok _ => Ok tt
         | Throw e => Throw e
         end)
    end.
Proof.
  unfold group, emitDefinitionGroup, group_head.
  destruct (JsMap.get def locByRange) as [defLoc|]; [|reflexivity].
  rewrite (emitter_eta (bind _ _)). f_equal.
  - rewrite !(emitted_bind_ok _ _ tt (emit_ok _)).
    rewrite (emitted_bind_ok _ _ tt (emitImportOrDefinition_ok _ _ _)).
    rewrite (emitted_bind_ok _ _ tt (emitHover_ok _ _)).
    rewrite !(emitted_bind_ok _ _ tt (emit_ok _)).
    rewrite (emitted_bind_ok _ _ tt (emitDefinitionsItem_ok _ _ _)).
    unfold JsSet.toArray. rewrite for_of_emit.
    rewrite emitted_bind_pair.
    rewrite emitReferenceItems_eq.
    destruct (Lodash.groupBy refs uriOfRef) as [groups|e].
    + rewrite emitted_bind_pair. cbn [emit emitted fst app].
      repeat (rewrite <- app_assoc || rewrite <- app_comm_cons).
      reflexivity.
    + cbn [emit emitted fst app].
      repeat (rewrite <- app_assoc || rewrite <- app_comm_cons).
      reflexivity.
  - rewrite !(snd_bind_ok _ _ tt (emit_ok _)).
    rewrite (snd_bind_ok _ _ tt (emitImportOrDefinition_ok _ _ _)).
    rewrite (snd_bind_ok _ _ tt (emitHover_ok _ _)).
    rewrite !(snd_bind_ok _ _ tt (emit_ok _)).
    rewrite (snd_bind_ok _ _ tt (emitDefinitionsItem_ok _ _ _)).
    unfold JsSet.toArray. rewrite for_of_emit.
    rewrite snd_bind_pair.
    rewrite emitReferenceItems_eq.
    destruct (Lodash.groupBy refs uriOfRef) as [groups|e].
    + rewrite snd_bind_pair. apply emitExport_ok.
    + reflexivity.
Qed.

End GroupFacts.

(** ** The whole run *)

Section EngineFacts.

Local Infix "+++" := app (right associativity, at level 60).

Variable fs : string -> option string.

Lemma get_of_key {V : Type} (k : string) (m : JsMap.t V) :
  In k (JsMap.keys m) -> exists v, JsMap.get k m = Some v.
Proof.
  induction m as [|[k' v'] m IH]; simpl; [contradiction|].
  intros [<-|H].
  - rewrite String.eqb_refl. eauto.
  - destruct (String.eqb k' k); eauto.
Qed.

Lemma get_in {V : Type} (k : string) (v : V) (m : JsMap.t V) :
  JsMap.get k m = Some v -> In (k, v) m.
Proof.
  induction m as [|[k' v'] m IH]; simpl; [discriminate|].
  destruct (String.eqb_spec k' k) as [->|Hk].
  - intros [= ->]. now left.
  - intros H. right. auto.
Qed.

Lemma get_unique {V : Type} (k : string) (v : V) (m : JsMap.t V) :
  NoDup (JsMap.keys m) -> In (k, v) m -> JsMap.get k m = Some v.
Proof.
  induction m as [|[k' v'] m IH]; simpl; [contradiction|].
  intros Hnd. inversion Hnd as [|? ? Hnotin Hnd']; subst.
  intros [[= -> ->]|H].
  - now rewrite String.eqb_refl.
  - destruct (String.eqb_spec k' k) as [->|Hk]; [|auto].
    exfalso. apply Hnotin. apply (in_map fst) in H. exact H.
Qed.

Lemma docs_begin_eq (r : string) (ds : list string) :
  for_of ds (fun doc => emitDocsBegin fs r doc false) =
    (flat_map document_begin_items ds, Ok tt).
Proof.
  rewrite for_of_ok.
  - reflexivity.
  - apply Forall_forall. intros doc _. now exists tt.
Qed.

Lemma emitRanges_eq (m : JsMap.t Lsp.Location) :
  emitRanges m = (range_items m, Ok tt).
Proof.
  unfold emitRanges, range_items. rewrite for_of_ok.
  - f_equal. apply flat_map_ext. intros k.
    now destruct (JsMap.get k m).
  - apply Forall_forall. intros k Hk.
    destruct (get_of_key k m Hk) as [v ->]. now exists tt.
Qed.

Lemma emitDocsEnd_succeeds (ds : JsSet.t) (m : JsMap.t JsSet.t) :
  succeeds (emitDocsEnd ds m) <->
  Forall (fun doc => JsMap.get doc m <> None) ds.
Proof.
  unfold emitDocsEnd, JsSet.toArray. rewrite for_of_succeeds.
  split; intros H; apply Forall_forall; intros doc Hdoc;
    rewrite Forall_forall in H; specialize (H doc Hdoc).
  - destruct (JsMap.get doc m); [discriminate|].
    destruct H as [a Ha]. discriminate.
  - destruct (JsMap.get doc m); [now exists tt | congruence].
Qed.

Lemma emitDocsEnd_eq (ds : JsSet.t) (m : JsMap.t JsSet.t) :
  succeeds (emitDocsEnd ds m) ->
  emitDocsEnd ds m = (flat_map (document_end_items m) ds, Ok tt).
Proof.
  intros H. unfold emitDocsEnd, JsSet.toArray in *.
  apply for_of_succeeds in H. rewrite (for_of_ok _ _ H).
  f_equal. apply flat_map_ext. intros doc. unfold document_end_items.
  now destruct (JsMap.get doc m).
Qed.

Lemma emitDefsRefsHovers_eq (x : Index) :
  emitDefsRefsHovers (refsByDef x) (hoverByDef x) (locByRange x)
    (importMonikerByRange x) (exportMonikerByRange x) =
  for_of (refsByDef x) (fun entry =>
    emitDefinitionGroup (hoverByDef x) (locByRange x)
      (importMonikerByRange x) (exportMonikerByRange x)
      (fst entry) (snd entry)).
Proof.
  unfold emitDefsRefsHovers, JsMap.entries.
  induction (refsByDef x) as [|[def refs] l IH]; [reflexivity|].
  cbn [for_of fst snd]. now rewrite IH.
Qed.

Lemma ffff_succeeds (x : Index) :
  succeeds (ffff fs x) <->
  Forall (group_succeeds x) (refsByDef x)
  /\ Forall (fun doc => JsMap.get doc (rangesByDoc x) <> None) (docs x).
Proof.
  unfold ffff.
  rewrite succeeds_bind. setoid_rewrite succeeds_bind.
  setoid_rewrite succeeds_bind. setoid_rewrite succeeds_bind.
  setoid_rewrite succeeds_bind. setoid_rewrite succeeds_bind.
  setoid_rewrite succeeds_bind. setoid_rewrite succeeds_bind.
  unfold JsSet.toArray. rewrite docs_begin_eq, emitRanges_eq.
  rewrite emitDefsRefsHovers_eq.
  split.
  - intros (_ & _ & _ & _ & _ & _ & _ & _ & _ & _ & [] & Hg & [] & Hd & _).
    split.
    + apply for_of_succeeds. now exists tt.
    + apply emitDocsEnd_succeeds. now exists tt.
  - intros [Hg Hd].
    apply for_of_succeeds in Hg as [[] Hg].
    apply emitDocsEnd_succeeds in Hd as [[] Hd].
    repeat (exists tt; split; [first [reflexivity | eassumption]|]).
    now exists tt.
Qed.

Lemma ffff_eq (x : Index) :
  succeeds (ffff fs x) ->
  ffff fs x =
    (stream_head x
     +++ flat_map document_begin_items (docs x)
     +++ range_items (locByRange x)
     +++ flat_map (group_items x) (refsByDef x)
     +++ flat_map (document_end_items (rangesByDoc x)) (docs x)
     +++ stream_tail x,
     Ok tt).
Proof.
  intros H. apply ffff_succeeds in H as [Hg Hd].
  apply for_of_ok in Hg. apply emitDocsEnd_succeeds in Hd.
  apply emitDocsEnd_eq in Hd.
  unfold ffff, JsSet.toArray.
  rewrite !bind_emit, docs_begin_eq, emitRanges_eq.
  rewrite emitDefsRefsHovers_eq, Hg, Hd.
  reflexivity.
Qed.

End EngineFacts.

(** ** The order of a run *)

Section EmissionOrder.

Local Infix "+++" := app (right associativity, at level 60).

Variable fs : string -> option string.

Lemma range_items_labels (m : JsMap.t Lsp.Location) :
  Forall (fun i => label_of i = inl VL_range) (range_items m)
  /\ List.length (range_items m) = List.length m.
Proof.
  unfold range_items.
  assert (H : forall ks, incl ks (JsMap.keys m) ->
    Forall (fun i => label_of i = inl VL_range)
      (flat_map (fun range =>
                   match JsMap.get range m with
                   | Some loc => [makeRange loc]
                   | None => []
                   end) ks)
    /\ List.length
         (flat_map (fun range =>
                      match JsMap.get range m with
                      | Some loc => [makeRange loc]
                      | None => []
                      end) ks) = List.length ks).
  { induction ks as [|k ks IH]; intros Hincl; [now split|].
    destruct (IH (fun a Ha => Hincl a (or_intror Ha))) as [IH1 IH2].
    destruct (get_of_key k m (Hincl k (or_introl eq_refl))) as [v Hv].
    cbn [flat_map]. rewrite Hv. split.
    - constructor; [reflexivity | exact IH1].
    - cbn [app List.length]. now rewrite IH2. }
  destruct (H (JsMap.keys m) (incl_refl _)) as [H1 H2].
  split; [exact H1|]. rewrite H2. apply length_map.
Qed.

(** C5: a run that ends normally emitted, in this order: the metadata
    item, the project vertex, the project-begin event; for each document
    its vertex and its begin event; the range vertices; the sub-sequence of
    each definition group, itself in the order of the steps of
    [emitDefsRefsHovers]; for each document its containment edge and its
    end event; the containment edge of the project; the project-end event. *)
Theorem ffff_emits_in_fixed_order (x : Index) :
  succeeds (ffff fs x) ->
  emitted (ffff fs x) =
    stream_head x
    +++ flat_map document_begin_items (docs x)
    +++ range_items (locByRange x)
    +++ flat_map (group_items x) (refsByDef x)
    +++ flat_map (document_end_items (rangesByDoc x)) (docs x)
    +++ stream_tail x
  /\ map label_of (stream_head x)
     = [inl VL_metaData; inl VL_project; inl VL_event]
  /\ (forall doc,
        map label_of (document_begin_items doc)
        = [inl VL_document; inl VL_event])
  /\ Forall (fun i => label_of i = inl VL_range) (range_items (locByRange x))
  /\ List.length (range_items (locByRange x)) = List.length (locByRange x)
  /\ Forall (fun entry =>
       exists defLoc groups,
         JsMap.get (fst entry) (locByRange x) = Some defLoc
         /\ Lodash.groupBy (snd entry) uriOfRef = Ok groups
         /\ group_items x entry =
              [ResultSet ("resultSet:" ++ fst entry);
               next ("next:" ++ fst entry) (fst entry)
                 ("resultSet:" ++ fst entry)]
              +++ emitted (emitImportOrDefinition (fst entry) defLoc
                             (JsMap.get (fst entry) (importMonikerByRange x)))
              +++ emitted (emitHover (fst entry)
                             (JsMap.get (fst entry) (hoverByDef x)))
              +++ [ReferenceResult ("reference:" ++ fst entry);
                   textDocument_references
                     ("textDocument/references:" ++ fst entry)
                     ("resultSet:" ++ fst entry) ("reference:" ++ fst entry)]
              +++ emitted (emitDefinitionsItem (fst entry) defLoc
                             (JsMap.get (fst entry) (importMonikerByRange x)))
              +++ map (nextOfRef (fst entry)) (snd entry)
              +++ map (referencesItem (fst entry)) (Lodash.toPairs groups)
              +++ emitted (emitExport (fst entry)
                             (JsMap.get (fst entry) (exportMonikerByRange x))))
       (refsByDef x)
  /\ Forall (fun doc =>
       exists ranges,
         JsMap.get doc (rangesByDoc x) = Some ranges
         /\ document_end_items (rangesByDoc x) doc =
              [contains ("contains:" ++ doc) ("document:" ++ doc) ranges;
               Event ("documentEnd:" ++ doc) ("document:" ++ doc)
                 EK_end ES_document]) (docs x)
  /\ stream_tail x =
       [contains "projectContains" "project"
          (map (fun doc => "document:" ++ doc) (docs x));
        Event "projectEnd" "project" EK_end ES_project].
Proof.
  intros H. split; [now rewrite (ffff_eq fs x H)|].
  split; [reflexivity|]. split; [reflexivity|].
  destruct (range_items_labels (locByRange x)) as [Hl Hn].
  split; [exact Hl|]. split; [exact Hn|].
  apply ffff_succeeds in H as [Hg Hd].
  split; [|split; [|reflexivity]].
  - apply Forall_forall. intros [def refs] Hin.
    rewrite Forall_forall in Hg. specialize (Hg _ Hin).
    unfold group_succeeds, group_items in *. cbn [fst snd] in *.
    rewrite emitDefinitionGroup_eq in *.
    destruct (JsMap.get def (locByRange x)) as [defLoc|];
      [|destruct Hg as [a Ha]; discriminate].
    destruct (Lodash.groupBy refs uriOfRef) as [groups|e];
      [|destruct Hg as [a Ha]; discriminate].
    exists defLoc, groups. split; [reflexivity|]. split; [reflexivity|].
    cbn [emitted fst]. unfold group_head.
    now rewrite <- !app_assoc.
  - apply Forall_forall. intros doc Hin.
    rewrite Forall_forall in Hd. specialize (Hd _ Hin).
    unfold document_end_items.
    destruct (JsMap.get doc (rangesByDoc x)) as [ranges|]; [|congruence].
    eauto.
Qed.

End EmissionOrder.
(** ** Counting items *)

Section Counting.

Lemma eqb_prefix (pre a b : string) :
  String.eqb (pre ++ a) (pre ++ b) = String.eqb a b.
Proof.
  induction pre as [|c pre IH]; [reflexivity|].
  cbn [append String.eqb]. now rewrite Ascii.eqb_refl.
Qed.

Lemma prefix_inj (pre a b : string) : pre ++ a = pre ++ b -> a = b.
Proof.
  intros H. apply String.eqb_eq. rewrite <- (eqb_prefix pre).
  now apply String.eqb_eq.
Qed.

Lemma count_app (P : Item -> bool) (a b : list Item) :
  count P (a ++ b) = count P a + count P b.
Proof. unfold count. now rewrite filter_app, length_app. Qed.

Lemma list_sum_cons (n : nat) (l : list nat) :
  list_sum (n :: l) = n + list_sum l.
Proof. reflexivity. Qed.

Lemma count_flat_map {A : Type} (P : Item -> bool) (f : A -> list Item)
    (l : list A) :
  count P (flat_map f l) = list_sum (map (fun a => count P (f a)) l).
Proof.
  induction l as [|a l IH]; [reflexivity|].
  cbn [flat_map map]. now rewrite list_sum_cons, count_app, IH.
Qed.

Lemma count_none (P : Item -> bool) (l : list Item) :
  Forall (fun i => P i = false) l -> count P l = 0.
Proof.
  unfold count. induction 1 as [|i l Hi _ IH]; [reflexivity|].
  cbn [filter]. now rewrite Hi.
Qed.

Lemma count_map_none {A : Type} (P : Item -> bool) (f : A -> Item)
    (l : list A) :
  (forall a, P (f a) = false) -> count P (map f l) = 0.
Proof.
  intros H. apply count_none, Forall_forall. intros i Hi.
  apply in_map_iff in Hi as (a & <- & _). apply H.
Qed.

Lemma count_flat_map_none {A : Type} (P : Item -> bool)
    (f : A -> list Item) (l : list A) :
  (forall a, count P (f a) = 0) -> count P (flat_map f l) = 0.
Proof.
  intros H. induction l as [|a l IH]; [reflexivity|].
  cbn [flat_map]. now rewrite count_app, H, IH.
Qed.

Lemma list_sum_two {A : Type} (f : A -> nat) (l : list A) (a b : A) :
  In a l -> In b l -> a <> b -> f a + f b <= list_sum (map f l).
Proof.
  intros Ha Hb Hab.
  apply in_split in Ha as (l1 & l2 & ->).
  rewrite map_app, list_sum_app. cbn [map]. rewrite list_sum_cons.
  assert (Hin : forall l', In b l' -> f b <= list_sum (map f l')).
  { induction l' as [|c l' IH]; [contradiction|].
    cbn [map]. rewrite list_sum_cons.
    intros [->|H]; [lia|]. specialize (IH H). lia. }
  apply in_app_or in Hb as [Hb|[Hb|Hb]].
  - specialize (Hin _ Hb). lia.
  - congruence.
  - specialize (Hin _ Hb). lia.
Qed.

End Counting.

(** ** Package vertices *)

Section Packages.

Variable fs : string -> option string.
Variable p : string.

Let P := is_package_vertex ("package:" ++ p).

Lemma count_package_import def defLoc m :
  count P (emitted (emitImportOrDefinition def defLoc m)) = package_of m p.
Proof.
  destruct m as [mi|]; [|reflexivity].
  unfold P, count, package_of. cbn [emitImportOrDefinition].
  rewrite !bind_emit. cbn [emitted emit fst filter is_package_vertex].
  rewrite eqb_prefix. now destruct (String.eqb _ p).
Qed.

Lemma count_package_export def m :
  count P (emitted (emitExport def m)) = package_of m p.
Proof.
  destruct m as [mi|]; [|reflexivity].
  unfold P, count, package_of. cbn [emitExport].
  rewrite !bind_emit. cbn [emitted emit fst filter is_package_vertex].
  rewrite eqb_prefix. now destruct (String.eqb _ p).
Qed.

Lemma count_package_group (x : Index) (entry : string * JsSet.t) :
  group_succeeds x entry ->
  count P (group_items x entry) = monikers_of_package x p entry.
Proof.
  destruct entry as [def refs].
  unfold group_succeeds, group_items, monikers_of_package.
  cbn [fst snd]. rewrite emitDefinitionGroup_eq.
  destruct (JsMap.get def (locByRange x)) as [defLoc|];
    [|intros [a Ha]; discriminate].
  destruct (Lodash.groupBy refs uriOfRef) as [groups|e];
    [|intros [a Ha]; discriminate].
  intros _. cbn [emitted fst]. unfold group_head.
  rewrite !count_app, count_package_import, count_package_export.
  rewrite (count_map_none P (nextOfRef def)) by reflexivity.
  rewrite (count_map_none P (referencesItem def)) by (now intros [u rs]).
  assert (Hh : count P (emitted (emitHover def
                                   (JsMap.get def (hoverByDef x)))) = 0).
  { unfold emitHover. now destruct (truthy _). }
  assert (Hd : count P (emitted (emitDefinitionsItem def defLoc
                 (JsMap.get def (importMonikerByRange x)))) = 0).
  { now destruct (JsMap.get def (importMonikerByRange x)). }
  rewrite Hh, Hd. cbn [count filter P is_package_vertex List.length]. lia.
Qed.

Lemma count_package_stream (x : Index) :
  succeeds (ffff fs x) ->
  count P (emitted (ffff fs x)) =
    list_sum (map (monikers_of_package x p) (refsByDef x)).
Proof.
  intros H. rewrite (ffff_eq fs x H). cbn [emitted fst].
  apply ffff_succeeds in H as [Hg _].
  rewrite !count_app.
  rewrite (count_flat_map_none P document_begin_items) by reflexivity.
  rewrite (count_none P (range_items _)).
  2:{ destruct (range_items_labels (locByRange x)) as [Hl _].
      eapply Forall_impl; [|exact Hl].
      intros i Hi. now destruct i. }
  rewrite (count_flat_map_none P (document_end_items _)).
  2:{ intros doc. unfold document_end_items.
      now destruct (JsMap.get doc (rangesByDoc x)). }
  replace (count P (stream_head x)) with 0 by reflexivity.
  replace (count P (stream_tail x)) with 0 by reflexivity.
  rewrite count_flat_map, !Nat.add_0_r. cbn [Nat.add]. f_equal.
  apply map_ext_in. intros entry Hin.
  rewrite Forall_forall in Hg. now apply count_package_group, Hg.
Qed.

End Packages.

Section PackageClaim.

Variable fs : string -> option string.

Lemma names_package_counted (x : Index) (def p : string) (refs : JsSet.t) :
  names_package x def p -> 1 <= monikers_of_package x p (def, refs).
Proof.
  unfold monikers_of_package, package_of. cbn [fst].
  intros [(m & -> & <-)|(m & -> & <-)]; rewrite String.eqb_refl; lia.
Qed.

Lemma package_vertex_in_group (x : Index) (def p : string) (refs : JsSet.t) :
  group_succeeds x (def, refs) -> names_package x def p ->
  In (PackageInformation ("package:" ++ p) "cpp" p "1.0")
    (group_items x (def, refs)).
Proof.
  unfold group_succeeds, group_items. cbn [fst snd].
  rewrite emitDefinitionGroup_eq.
  destruct (JsMap.get def (locByRange x)) as [defLoc|];
    [|intros [a Ha]; discriminate].
  destruct (Lodash.groupBy refs uriOfRef) as [groups|e];
    [|intros [a Ha]; discriminate].
  intros _ [(m & Hm & <-)|(m & Hm & <-)]; cbn [emitted fst].
  - apply in_or_app. left. unfold group_head. rewrite Hm.
    cbn [emitImportOrDefinition]. rewrite !bind_emit.
    cbn [emitted emit fst app]. simpl In. tauto.
  - apply in_or_app. right. apply in_or_app. right. rewrite Hm.
    cbn [emitExport]. rewrite !bind_emit.
    cbn [emitted emit fst]. simpl In. tauto.
Qed.

(** C2: in a run that ends normally, the package-information vertices
    with the id [package:p] are as many as the monikers of package [p] that
    the definition groups carry: nothing is deduplicated.  So when two
    distinct groups carry a moniker of package [p], each of them emits the
    vertex, and the stream has at least two vertices with that one id. *)
Theorem package_vertex_emitted_once_per_group
    (x : Index) (p d1 d2 : string) (r1 r2 : JsSet.t) :
  succeeds (ffff fs x) ->
  In (d1, r1) (refsByDef x) -> In (d2, r2) (refsByDef x) -> d1 <> d2 ->
  names_package x d1 p -> names_package x d2 p ->
  count (is_package_vertex ("package:" ++ p)) (emitted (ffff fs x))
  = list_sum (map (monikers_of_package x p) (refsByDef x))
  /\ In (PackageInformation ("package:" ++ p) "cpp" p "1.0")
       (group_items x (d1, r1))
  /\ In (PackageInformation ("package:" ++ p) "cpp" p "1.0")
       (group_items x (d2, r2))
  /\ 2 <= count (is_package_vertex ("package:" ++ p)) (emitted (ffff fs x)).
Proof.
  intros Hok H1 H2 Hne Hp1 Hp2.
  pose proof (count_package_stream fs p x Hok) as Hc.
  pose proof (proj1 (proj1 (ffff_succeeds fs x) Hok)) as Hg.
  rewrite Forall_forall in Hg.
  split; [exact Hc|].
  split; [now apply package_vertex_in_group; [apply Hg|]|].
  split; [now apply package_vertex_in_group; [apply Hg|]|].
  rewrite Hc.
  pose proof (list_sum_two (monikers_of_package x p) (refsByDef x)
                (d1, r1) (d2, r2) H1 H2) as Hs.
  pose proof (names_package_counted x d1 p r1 Hp1).
  pose proof (names_package_counted x d2 p r2 Hp2).
  assert ((d1, r1) <> (d2, r2)) by congruence.
  specialize (Hs H3). lia.
Qed.

End PackageClaim.

(** [package_vertex_emitted_once_per_group] at a concrete input. *)
Lemma package_vertex_emitted_once_per_group_witness :
  count (is_package_vertex "package:pkg")
    (emitted (ffff no_files sample_index)) = 2.
Proof.
  destruct (package_vertex_emitted_once_per_group no_files sample_index
              "pkg" "b.ml:0:0" "a.ml:1:0"
              ["b.ml:0:0"; "a.ml:2:4"] ["a.ml:1:0"]) as (Hc & _).
  - exists tt. reflexivity.
  - simpl. tauto.
  - simpl. tauto.
  - discriminate.
  - right. eexists. split; reflexivity.
  - right. eexists. split; reflexivity.
  - exact Hc.
Defined.

(** [ffff_emits_in_fixed_order] at a concrete input. *)
Lemma ffff_emits_in_fixed_order_witness :
  succeeds (ffff no_files sample_index)
  /\ map label_of (emitted (ffff no_files sample_index)) =
       map label_of
         (stream_head sample_index
          ++ flat_map document_begin_items (docs sample_index)
          ++ range_items (locByRange sample_index)
          ++ flat_map (group_items sample_index) (refsByDef sample_index)
          ++ flat_map (document_end_items (rangesByDoc sample_index))
               (docs sample_index)
          ++ stream_tail sample_index)%list.
Proof.
  assert (H : succeeds (ffff no_files sample_index)).
  { exists tt. vm_compute. reflexivity. }
  split; [exact H|].
  destruct (ffff_emits_in_fixed_order no_files sample_index H) as [E _].
  rewrite E. reflexivity.
Defined.

(** ** The definition among its own references *)

Section SelfReference.

Local Infix "+++" := app (right associativity, at level 60).

Variable fs : string -> option string.

Lemma count_pos (P : Item -> bool) (i : Item) (l : list Item) :
  In i l -> P i = true -> 1 <= count P l.
Proof.
  intros Hin HP. apply in_split in Hin as (l1 & l2 & ->).
  rewrite count_app. unfold count at 2. cbn [filter]. rewrite HP.
  cbn [List.length]. lia.
Qed.

Lemma count_two_positions (P : Item -> bool) (a e : Item)
    (before mid l after : list Item) :
  P e = true -> In e l ->
  2 <= count P (before +++ (a :: e :: mid) +++ l +++ after).
Proof.
  intros HP Hin. rewrite !count_app.
  assert (1 <= count P (a :: e :: mid)).
  { apply (count_pos P e); [right; now left | exact HP]. }
  assert (1 <= count P l) by (now apply (count_pos P e)).
  lia.
Qed.

(** Where the sub-sequence of a group and its next edges are in the
    stream. *)
Lemma next_edges_in_stream (x : Index) (def : string) (refs : JsSet.t) :
  succeeds (ffff fs x) ->
  In (def, refs) (refsByDef x) ->
  exists before mid after,
    emitted (ffff fs x) =
      before
      +++ (ResultSet ("resultSet:" ++ def)
           :: next ("next:" ++ def) def ("resultSet:" ++ def) :: mid)
      +++ map (nextOfRef def) refs
      +++ after.
Proof.
  intros Hok Hin.
  pose proof (proj1 (proj1 (ffff_succeeds fs x) Hok)) as Hg.
  rewrite Forall_forall in Hg. specialize (Hg _ Hin).
  assert (Hitems : exists mid rest,
    group_items x (def, refs) =
      (ResultSet ("resultSet:" ++ def)
       :: next ("next:" ++ def) def ("resultSet:" ++ def) :: mid)
      +++ map (nextOfRef def) refs +++ rest).
  { unfold group_succeeds, group_items in *. cbn [fst snd] in *.
    rewrite emitDefinitionGroup_eq in *.
    destruct (JsMap.get def (locByRange x)) as [defLoc|];
      [|destruct Hg as [a Ha]; discriminate].
    cbn [emitted fst]. unfold group_head.
    exists (emitted (emitImportOrDefinition def defLoc
                       (JsMap.get def (importMonikerByRange x)))
            +++ emitted (emitHover def (JsMap.get def (hoverByDef x)))
            +++ [ReferenceResult ("reference:" ++ def);
                 textDocument_references ("textDocument/references:" ++ def)
                   ("resultSet:" ++ def) ("reference:" ++ def)]
            +++ emitted (emitDefinitionsItem def defLoc
                           (JsMap.get def (importMonikerByRange x)))).
    eexists.
    repeat (rewrite <- app_assoc || rewrite <- app_comm_cons).
    reflexivity. }
  destruct Hitems as (mid & rest & Hitems).
  destruct (in_split _ _ Hin) as (l1 & l2 & Hsplit).
  exists (stream_head x +++ flat_map document_begin_items (docs x)
          +++ range_items (locByRange x) +++ flat_map (group_items x) l1).
  exists mid.
  exists (rest +++ flat_map (group_items x) l2
          +++ flat_map (document_end_items (rangesByDoc x)) (docs x)
          +++ stream_tail x).
  rewrite (ffff_eq fs x Hok). cbn [emitted fst].
  rewrite Hsplit, flat_map_app. cbn [flat_map]. rewrite Hitems.
  repeat (rewrite <- app_assoc || rewrite <- app_comm_cons).
  reflexivity.
Qed.

(** C8: when the references of a definition group contain the definition
    range, the run emits the edge [next:def] twice: right after the result
    set of the group, and again among the next edges of the referencing
    ranges.  The two items are equal field for field. *)
Theorem definition_among_references_emits_next_twice
    (x : Index) (def : string) (refs : JsSet.t) :
  succeeds (ffff fs x) ->
  In (def, refs) (refsByDef x) ->
  In def refs ->
  exists before mid after,
    emitted (ffff fs x) =
      before
      +++ (ResultSet ("resultSet:" ++ def)
           :: next ("next:" ++ def) def ("resultSet:" ++ def) :: mid)
      +++ map (fun ref => next ("next:" ++ ref) ref ("resultSet:" ++ def))
            refs
      +++ after
    /\ In (next ("next:" ++ def) def ("resultSet:" ++ def))
         (map (fun ref => next ("next:" ++ ref) ref ("resultSet:" ++ def))
            refs)
    /\ 2 <= count (has_id ("next:" ++ def)) (emitted (ffff fs x)).
Proof.
  intros Hok Hin Hself.
  destruct (next_edges_in_stream x def refs Hok Hin)
    as (before & mid & after & E).
  assert (Hnext : In (next ("next:" ++ def) def ("resultSet:" ++ def))
                    (map (nextOfRef def) refs)).
  { apply in_map_iff. exists def. split; [reflexivity | exact Hself]. }
  exists before, mid, after.
  split; [exact E|]. split; [exact Hnext|].
  rewrite E. apply count_two_positions; [|exact Hnext].
  unfold has_id. cbn [id_of]. apply String.eqb_refl.
Qed.

End SelfReference.

(** [definition_among_references_emits_next_twice] at a concrete input. *)
Lemma definition_among_references_emits_next_twice_witness :
  2 <= count (has_id "next:b.ml:0:0") (emitted (ffff no_files sample_index)).
Proof.
  destruct (definition_among_references_emits_next_twice no_files
              sample_index "b.ml:0:0" ["b.ml:0:0"; "a.ml:2:4"])
    as (before & mid & after & _ & _ & H).
  - exists tt. reflexivity.
  - simpl. tauto.
  - simpl. tauto.
  - exact H.
Defined.

(** ** Where an item of the stream comes from *)

Section Origin.

Variable fs : string -> option string.

(** Whether the run ends normally or not, what it emitted belongs to one
    of the parts of the stream. *)
Lemma in_emitted_ffff (x : Index) (i : Item) :
  In i (emitted (ffff fs x)) ->
  In i (stream_head x)
  \/ (exists doc, In doc (docs x) /\ In i (document_begin_items doc))
  \/ In i (range_items (locByRange x))
  \/ (exists entry, In entry (refsByDef x) /\ In i (group_items x entry))
  \/ (exists doc, In doc (docs x)
                  /\ In i (document_end_items (rangesByDoc x) doc))
  \/ In i (stream_tail x).
Proof.
  unfold ffff, JsSet.toArray.
  rewrite docs_begin_eq, emitRanges_eq, emitDefsRefsHovers_eq.
  intros H.
  apply in_emitted_bind in H as [H|(_ & _ & H)].
  { left. destruct H as [<-|[]]. now left. }
  apply in_emitted_bind in H as [H|(_ & _ & H)].
  { left. destruct H as [<-|[]]. right. now left. }
  apply in_emitted_bind in H as [H|(_ & _ & H)].
  { left. destruct H as [<-|[]]. right. right. now left. }
  apply in_emitted_bind in H as [H|(_ & _ & H)].
  { right. left. cbn [emitted fst] in H.
    apply in_flat_map in H as (doc & Hd & Hi). eauto. }
  apply in_emitted_bind in H as [H|(_ & _ & H)].
  { right. right. left. exact H. }
  apply in_emitted_bind in H as [H|(_ & _ & H)].
  { right. right. right. left.
    apply in_emitted_for_of in H as (entry & He & Hi). eauto. }
  apply in_emitted_bind in H as [H|(_ & _ & H)].
  { right. right. right. right. left.
    unfold emitDocsEnd, JsSet.toArray in H.
    apply in_emitted_for_of in H as (doc & Hd & Hi).
    exists doc. split; [exact Hd|]. unfold document_end_items.
    destruct (JsMap.get doc (rangesByDoc x)) as [ranges|];
      [|contradiction].
    rewrite bind_emit in Hi. exact Hi. }
  right. right. right. right. right.
  rewrite bind_emit in H. exact H.
Qed.

End Origin.

(** ** Hover *)

Section Hover.

Variable fs : string -> option string.

Lemma hover_item_of_group (x : Index) (def : string) (refs : JsSet.t)
    (i : Item) :
  In i (group_items x (def, refs)) -> is_hover i = true ->
  exists h,
    JsMap.get def (hoverByDef x) = Some h /\ h <> ""
    /\ (i = HoverResult ("hover:" ++ def) h
        \/ i = textDocument_hover ("textDocument/hover:" ++ def)
                 ("resultSet:" ++ def) ("hover:" ++ def)).
Proof.
  unfold group_items. cbn [fst snd]. rewrite emitDefinitionGroup_eq.
  destruct (JsMap.get def (locByRange x)) as [defLoc|]; [|contradiction].
  cbn [emitted fst]. unfold group_head. intros Hin Hh.
  assert (Hmap : forall (A : Type) (f : A -> Item) (l : list A),
             (forall a, is_hover (f a) = false) -> In i (map f l) -> False).
  { intros A f l Hf Hi. apply in_map_iff in Hi as (a & <- & _).
    rewrite Hf in Hh. discriminate. }
  repeat (apply in_app_or in Hin as [Hin|Hin]).
  - destruct Hin as [<-|[<-|[]]]; discriminate.
  - destruct (JsMap.get def (importMonikerByRange x)) as [m|];
      cbn [emitImportOrDefinition] in Hin; rewrite !bind_emit in Hin;
      cbn [emitted emit fst] in Hin;
      repeat (destruct Hin as [<-|Hin]; [discriminate|]); contradiction.
  - unfold emitHover, truthy in Hin.
    destruct (JsMap.get def (hoverByDef x)) as [[|c h]|];
      [contradiction| |contradiction].
    rewrite !bind_emit in Hin. cbn [emitted emit fst] in Hin.
    exists (String c h). split; [reflexivity|]. split; [discriminate|].
    destruct Hin as [<-|[<-|[]]]; auto.
  - destruct Hin as [<-|[<-|[]]]; discriminate.
  - destruct (JsMap.get def (importMonikerByRange x)) as [m|];
      cbn [emitDefinitionsItem emitted emit ret fst] in Hin.
    + contradiction.
    + destruct Hin as [<-|[]]. discriminate.
  - exfalso. apply (Hmap _ (nextOfRef def) refs); [reflexivity | exact Hin].
  - destruct (Lodash.groupBy refs uriOfRef) as [groups|e];
      [|contradiction].
    apply in_app_or in Hin as [Hin|Hin].
    + exfalso. apply (Hmap _ (referencesItem def) (Lodash.toPairs groups));
        [now intros [u rs] | exact Hin].
    + destruct (JsMap.get def (exportMonikerByRange x)) as [m|];
        cbn [emitExport] in Hin.
      * rewrite !bind_emit in Hin. cbn [emitted emit fst] in Hin.
        repeat (destruct Hin as [<-|Hin]; [discriminate|]). contradiction.
      * contradiction.
Qed.

(** C10: when the hover text recorded against [def] is the empty string,
    the group of [def] emits neither a hover-result vertex nor a hover
    edge, exactly as when no hover text is recorded; every hover vertex or
    edge of the stream belongs to another definition, whose recorded hover
    text is not empty. *)
Theorem empty_hover_emits_no_hover_items (x : Index) (def : string) :
  JsMap.get def (hoverByDef x) = Some "" ->
  emitHover def (Some "") = emitHover def None
  /\ (forall refs,
        Forall (fun i => is_hover i = false) (group_items x (def, refs)))
  /\ (forall i,
        In i (emitted (ffff fs x)) -> is_hover i = true ->
        exists def' refs h,
          In (def', refs) (refsByDef x) /\ def' <> def
          /\ JsMap.get def' (hoverByDef x) = Some h /\ h <> ""
          /\ (i = HoverResult ("hover:" ++ def') h
              \/ i = textDocument_hover ("textDocument/hover:" ++ def')
                       ("resultSet:" ++ def') ("hover:" ++ def'))).
Proof.
  intros Hempty. split; [reflexivity|]. split.
  - intros refs. apply Forall_forall. intros i Hin.
    destruct (is_hover i) eqn:Hh; [|reflexivity].
    destruct (hover_item_of_group x def refs i Hin Hh) as (h & Hget & Hne & _).
    congruence.
  - intros i Hin Hh.
    apply in_emitted_ffff in Hin
      as [H|[(doc & _ & H)|[H|[([d refs] & He & H)|[(doc & _ & H)|H]]]]].
    + repeat (destruct H as [<-|H]; [discriminate|]). contradiction.
    + repeat (destruct H as [<-|H]; [discriminate|]). contradiction.
    + destruct (range_items_labels (locByRange x)) as [Hl _].
      rewrite Forall_forall in Hl. specialize (Hl i H).
      destruct i; discriminate.
    + destruct (hover_item_of_group x d refs i H Hh) as (h & Hget & Hne & Hi).
      exists d, refs, h. repeat split; try assumption. congruence.
    + unfold document_end_items in H.
      destruct (JsMap.get doc (rangesByDoc x)); [|contradiction].
      repeat (destruct H as [<-|H]; [discriminate|]). contradiction.
    + repeat (destruct H as [<-|H]; [discriminate|]). contradiction.
Qed.

End Hover.

(** [empty_hover_emits_no_hover_items] at a concrete input. *)
Lemma empty_hover_emits_no_hover_items_witness :
  Forall (fun i => is_hover i = false)
    (group_items sample_index ("a.ml:1:0", ["a.ml:1:0"])).
Proof.
  apply (empty_hover_emits_no_hover_items no_files sample_index "a.ml:1:0").
  reflexivity.
Defined.

(** ** [groupBy] and [toPairs] *)

Section LodashFacts.

Context {A : Type}.
Variable iteratee : A -> result string.

Lemma assign_push_values (key : string) (value : A)
    (d : Lodash.Dictionary (list A)) :
  Permutation (flat_map snd (Lodash.assign_push key value d))
    (flat_map snd d ++ [value]).
Proof.
  induction d as [|[k vs] d IH]; cbn [Lodash.assign_push flat_map snd].
  - reflexivity.
  - destruct (String.eqb k key); cbn [flat_map snd].
    + rewrite <- !app_assoc. apply Permutation_app_head.
      apply Permutation_app_comm.
    + rewrite <- app_assoc. now apply Permutation_app_head.
Qed.

Lemma assign_push_keys (key : string) (value : A)
    (d : Lodash.Dictionary (list A)) :
  In key (map fst d) /\ map fst (Lodash.assign_push key value d) = map fst d
  \/ ~ In key (map fst d)
     /\ map fst (Lodash.assign_push key value d) = (map fst d ++ [key])%list.
Proof.
  induction d as [|[k vs] d IH]; cbn [Lodash.assign_push map fst].
  - right. split; [intros []|reflexivity].
  - destruct (String.eqb_spec k key) as [->|Hk].
    + left. split; [now left|reflexivity].
    + destruct IH as [[Hin E]|[Hnin E]]; cbn [map fst]; rewrite E.
      * left. split; [now right|reflexivity].
      * right. split; [|reflexivity]. intros [H|H]; [congruence|tauto].
Qed.

Lemma assign_push_NoDup (key : string) (value : A)
    (d : Lodash.Dictionary (list A)) :
  NoDup (map fst d) -> NoDup (map fst (Lodash.assign_push key value d)).
Proof.
  intros H. destruct (assign_push_keys key value d) as [[_ ->]|[Hnin ->]].
  - exact H.
  - apply NoDup_app; [exact H | repeat constructor; intros [] |].
    intros a Ha [<-|[]]. exact (Hnin Ha).
Qed.

Lemma assign_push_grouped (key : string) (value : A)
    (d : Lodash.Dictionary (list A)) :
  iteratee value = Ok key ->
  Forall (grouped_under iteratee) d ->
  Forall (grouped_under iteratee) (Lodash.assign_push key value d).
Proof.
  intros Hv. induction 1 as [|[k vs] d [Hne Hall] Hd IH];
    cbn [Lodash.assign_push].
  - repeat constructor; [discriminate | exact Hv].
  - destruct (String.eqb_spec k key) as [->|Hk].
    + constructor; [|exact Hd]. split; cbn [fst snd] in *.
      * now destruct vs.
      * apply Forall_app. split; [exact Hall | now constructor].
    + constructor; [now split | exact IH].
Qed.

Lemma groupBy_into_spec (collection : list A) :
  forall (acc d : Lodash.Dictionary (list A)),
    Lodash.groupBy_into acc collection iteratee = Ok d ->
    Permutation (flat_map snd d) (flat_map snd acc ++ collection)
    /\ (NoDup (map fst acc) -> NoDup (map fst d))
    /\ (Forall (grouped_under iteratee) acc ->
        Forall (grouped_under iteratee) d).
Proof.
  induction collection as [|x xs IH]; intros acc d;
    cbn [Lodash.groupBy_into].
  - intros [= <-]. rewrite app_nil_r. auto.
  - destruct (iteratee x) as [key|e] eqn:Hx; [|discriminate].
    cbn [result_bind]. intros H.
    destruct (IH _ _ H) as (Hperm & Hnd & Hgr). repeat split.
    + rewrite Hperm, assign_push_values, <- app_assoc. reflexivity.
    + intros Hacc. now apply Hnd, assign_push_NoDup.
    + intros Hacc. now apply Hgr, assign_push_grouped.
Qed.

Lemma groupBy_spec (collection : list A) (d : Lodash.Dictionary (list A)) :
  Lodash.groupBy collection iteratee = Ok d ->
  Permutation (flat_map snd d) collection
  /\ NoDup (map fst d)
  /\ Forall (grouped_under iteratee) d.
Proof.
  intros H. destruct (groupBy_into_spec _ _ _ H) as (Hperm & Hnd & Hgr).
  repeat split; [exact Hperm | apply Hnd; constructor | apply Hgr; constructor].
Qed.

(** [groupBy] returns unless the iteratee throws. *)
Lemma groupBy_into_total (collection : list A) :
  forall acc,
    Forall (fun a => exists k, iteratee a = Ok k) collection ->
    exists d, Lodash.groupBy_into acc collection iteratee = Ok d.
Proof.
  induction collection as [|x xs IH]; intros acc H; cbn [Lodash.groupBy_into].
  - eauto.
  - inversion H as [|? ? [k Hk] Hxs]; subst. rewrite Hk. cbn [result_bind].
    now apply IH.
Qed.

End LodashFacts.

Section ToPairsFacts.

Context {V : Type}.

Lemma insert_index_perm (n : N) (e : string * V)
    (l : list (N * (string * V))) :
  Permutation (Lodash.insert_index n e l) ((n, e) :: l).
Proof.
  induction l as [|[m e'] l IH]; cbn [Lodash.insert_index]; [reflexivity|].
  destruct (n <? m)%N; [reflexivity|].
  rewrite IH. apply perm_swap.
Qed.

Lemma index_properties_perm (d : Lodash.Dictionary V) :
  Permutation (map snd (Lodash.index_properties d))
    (filter Lodash.is_index d).
Proof.
  induction d as [|[k v] d IH]; cbn [Lodash.index_properties filter];
    [reflexivity|].
  unfold Lodash.is_index at 1. cbn [fst].
  destruct (Js.array_index k) as [n|]; [|exact IH].
  rewrite insert_index_perm. cbn [map snd]. now constructor.
Qed.

Lemma filter_split_perm {B : Type} (f : B -> bool) (l : list B) :
  Permutation (filter f l ++ filter (fun b => negb (f b)) l) l.
Proof.
  induction l as [|b l IH]; cbn [filter]; [reflexivity|].
  destruct (f b); cbn [negb app].
  - now constructor.
  - rewrite <- Permutation_middle. now constructor.
Qed.

(** [toPairs] lists every property once. *)
Lemma toPairs_perm (d : Lodash.Dictionary V) :
  Permutation (Lodash.toPairs d) d.
Proof.
  unfold Lodash.toPairs. rewrite index_properties_perm.
  apply filter_split_perm.
Qed.

End ToPairsFacts.

(** ** The reference items of a group *)

Section ReferenceItems.

Variable hoverByDef : JsMap.t string.
Variable locByRange : JsMap.t Lsp.Location.
Variables importMonikerByRange exportMonikerByRange : JsMap.t MonikerInfo.

Lemma filter_none {B : Type} (P : B -> bool) (l : list B) :
  Forall (fun b => P b = false) l -> filter P l = [].
Proof.
  induction 1 as [|b l Hb _ IH]; [reflexivity|].
  cbn [filter]. now rewrite Hb.
Qed.

Lemma filter_map_all {B C : Type} (P : C -> bool) (f : B -> C) (l : list B) :
  (forall b, P (f b) = true) -> filter P (map f l) = map f l.
Proof.
  intros H. induction l as [|b l IH]; [reflexivity|].
  cbn [map filter]. now rewrite H, IH.
Qed.

Lemma filter_map_none {B C : Type} (P : C -> bool) (f : B -> C)
    (l : list B) :
  (forall b, P (f b) = false) -> filter P (map f l) = [].
Proof.
  intros H. apply filter_none, Forall_forall. intros c Hc.
  apply in_map_iff in Hc as (b & <- & _). apply H.
Qed.

Lemma references_items_of_head def defLoc refs :
  filter is_references_item
    (group_head hoverByDef importMonikerByRange def defLoc refs) = [].
Proof.
  unfold group_head. rewrite !filter_app.
  rewrite (filter_map_none _ (nextOfRef def)) by reflexivity.
  unfold emitHover.
  destruct (JsMap.get def importMonikerByRange),
    (truthy (JsMap.get def hoverByDef)); reflexivity.
Qed.

Lemma references_items_of_group def refs defLoc groups :
  JsMap.get def locByRange = Some defLoc ->
  Lodash.groupBy refs uriOfRef = Ok groups ->
  filter is_references_item
    (emitted (emitDefinitionGroup hoverByDef locByRange
                importMonikerByRange exportMonikerByRange def refs))
  = map (referencesItem def) (Lodash.toPairs groups).
Proof.
  intros Hloc Hgroups. rewrite emitDefinitionGroup_eq, Hloc, Hgroups.
  cbn [emitted fst]. rewrite !filter_app, references_items_of_head.
  rewrite filter_map_all by (now intros [u rs]).
  destruct (JsMap.get def exportMonikerByRange);
    cbn [app]; now rewrite app_nil_r.
Qed.

Lemma NoDup_map_prefix (pre : string) (l : list string) :
  NoDup l -> NoDup (map (fun s => pre ++ s) l).
Proof.
  induction 1 as [|s l Hnin _ IH]; cbn [map]; constructor; [|exact IH].
  intros H. apply in_map_iff in H as (s' & E & Hs').
  apply prefix_inj in E. now subst.
Qed.

(** In a group that is emitted without a throw, the item edges tagged
    [references] partition the referencing ranges of the group. *)
Lemma group_reference_items_partition (def : string) (refs : JsSet.t) :
  succeeds (emitDefinitionGroup hoverByDef locByRange
              importMonikerByRange exportMonikerByRange def refs) ->
  NoDup refs ->
  let edges :=
    filter is_references_item
      (emitted (emitDefinitionGroup hoverByDef locByRange
                  importMonikerByRange exportMonikerByRange def refs)) in
  Permutation (flat_map inVs_of edges) refs
  /\ NoDup (flat_map inVs_of edges)
  /\ NoDup (map document_of edges)
  /\ Forall (fun e =>
       exists uri rs,
         e = item ("item:textDocument/references:references:" ++ def
                     ++ ":" ++ uri)
               ("reference:" ++ def) rs (Some references)
               ("document:" ++ uri)
         /\ rs <> []
         /\ Forall (fun ref =>
                      exists fp, parseFilePosition ref = Ok fp
                                 /\ fp_uri fp = uri) rs) edges.
Proof.
  intros Hok Hnd. cbv zeta.
  rewrite emitDefinitionGroup_eq in Hok.
  destruct (JsMap.get def locByRange) as [defLoc|] eqn:Hloc;
    [|destruct Hok as [a Ha]; discriminate].
  destruct (Lodash.groupBy refs uriOfRef) as [groups|e] eqn:Hgroups;
    [|destruct Hok as [a Ha]; discriminate].
  rewrite (references_items_of_group def refs defLoc groups Hloc Hgroups).
  destruct (groupBy_spec uriOfRef refs groups Hgroups)
    as (Hperm & Hkeys & Hgrouped).
  pose proof (toPairs_perm groups) as Hpairs.
  assert (HinVs : forall l,
            flat_map inVs_of (map (referencesItem def) l) = flat_map snd l).
  { induction l as [|[u rs] l IH]; [reflexivity|].
    cbn [map flat_map]. now rewrite IH. }
  assert (Hdocs : forall l,
            map document_of (map (referencesItem def) l)
            = map (fun s => "document:" ++ s) (map fst l)).
  { induction l as [|[u rs] l IH]; [reflexivity|].
    cbn [map]. now rewrite IH. }
  rewrite HinVs, Hdocs.
  assert (Hall : Permutation (flat_map snd (Lodash.toPairs groups)) refs).
  { now rewrite Hpairs. }
  split; [exact Hall|]. split.
  { apply (Permutation_NoDup (Permutation_sym Hall) Hnd). }
  split.
  { apply NoDup_map_prefix.
    apply (Permutation_NoDup
             (Permutation_sym (Permutation_map fst Hpairs)) Hkeys). }
  apply Forall_forall. intros e He.
  apply in_map_iff in He as ([u rs] & <- & Hin).
  apply (Permutation_in _ Hpairs) in Hin.
  rewrite Forall_forall in Hgrouped.
  destruct (Hgrouped _ Hin) as [Hne Hrs]. cbn [fst snd] in *.
  exists u, rs. split; [reflexivity|]. split; [exact Hne|].
  eapply Forall_impl; [|exact Hrs].
  intros ref Href. unfold uriOfRef in Href.
  destruct (parseFilePosition ref) as [fp|]; [|discriminate].
  exists fp. split; [reflexivity|]. now injection Href.
Qed.

End ReferenceItems.


(** ** The order in which the collections are consumed *)

Section InsertionOrder.

Local Infix "+++" := app (right associativity, at level 60).

Variable fs : string -> option string.

Lemma filter_flat_map {B C : Type} (P : C -> bool) (f : B -> list C)
    (l : list B) :
  filter P (flat_map f l) = flat_map (fun b => filter P (f b)) l.
Proof.
  induction l as [|b l IH]; [reflexivity|].
  cbn [flat_map]. now rewrite filter_app, IH.
Qed.

Lemma flat_map_singleton {B C : Type} (f : B -> C) (l : list B) :
  flat_map (fun b => [f b]) l = map f l.
Proof. induction l as [|b l IH]; [reflexivity|]. cbn. now rewrite IH. Qed.

Lemma flat_map_nil {B C : Type} (l : list B) :
  flat_map (fun _ : B => @nil C) l = [].
Proof. induction l as [|b l IH]; [reflexivity|]. exact IH. Qed.

Ltac maps_by_label :=
  repeat first
    [ rewrite (filter_map_all _ (nextOfRef _)) by reflexivity
    | rewrite (filter_map_none _ (nextOfRef _)) by reflexivity
    | rewrite (filter_map_all _ (referencesItem _)) by (now intros [u rs])
    | rewrite (filter_map_none _ (referencesItem _)) by (now intros [u rs]) ].

Ltac group_by_label x def refs Hok :=
  unfold group_succeeds, group_items in *; cbn [fst snd] in *;
  rewrite emitDefinitionGroup_eq in *;
  destruct (JsMap.get def (locByRange x)) as [defLoc|];
    [|destruct Hok as [a Ha]; discriminate];
  destruct (Lodash.groupBy refs uriOfRef) as [groups|e];
    [|destruct Hok as [a Ha]; discriminate];
  cbn [emitted fst]; unfold with_label, group_head, emitHover;
  rewrite !filter_app; maps_by_label;
  destruct (JsMap.get def (importMonikerByRange x)),
    (truthy (JsMap.get def (hoverByDef x))),
    (JsMap.get def (exportMonikerByRange x));
  cbn [app]; rewrite ?app_nil_r; reflexivity.

Lemma result_sets_of_group (x : Index) (entry : string * JsSet.t) :
  group_succeeds x entry ->
  with_label (inl VL_resultSet) (group_items x entry)
  = [ResultSet ("resultSet:" ++ fst entry)].
Proof. destruct entry as [def refs]. intros Hok. group_by_label x def refs Hok. Qed.

Lemma next_edges_of_group (x : Index) (entry : string * JsSet.t) :
  group_succeeds x entry ->
  with_label (inr EL_next) (group_items x entry)
  = next ("next:" ++ fst entry) (fst entry) ("resultSet:" ++ fst entry)
    :: map (nextOfRef (fst entry)) (snd entry).
Proof. destruct entry as [def refs]. intros Hok. group_by_label x def refs Hok. Qed.

Lemma no_document_in_group (x : Index) (entry : string * JsSet.t) :
  group_succeeds x entry ->
  with_label (inl VL_document) (group_items x entry) = [].
Proof. destruct entry as [def refs]. intros Hok. group_by_label x def refs Hok. Qed.

Lemma no_range_in_group (x : Index) (entry : string * JsSet.t) :
  group_succeeds x entry ->
  with_label (inl VL_range) (group_items x entry) = [].
Proof. destruct entry as [def refs]. intros Hok. group_by_label x def refs Hok. Qed.

Lemma no_contains_in_group (x : Index) (entry : string * JsSet.t) :
  group_succeeds x entry ->
  with_label (inr EL_contains) (group_items x entry) = [].
Proof. destruct entry as [def refs]. intros Hok. group_by_label x def refs Hok. Qed.

Lemma flat_map_ext_in {B C : Type} (f g : B -> list C) (l : list B) :
  (forall b, In b l -> f b = g b) -> flat_map f l = flat_map g l.
Proof.
  induction l as [|b l IH]; intros H; [reflexivity|].
  cbn [flat_map]. rewrite (H b (or_introl eq_refl)), IH; [reflexivity|].
  intros c Hc. apply H. now right.
Qed.

Lemma with_label_ranges (m : JsMap.t Lsp.Location)
    (l : VertexLabels + EdgeLabels) :
  with_label l (range_items m)
  = if label_eqb (inl VL_range) l then range_items m else [].
Proof.
  destruct (range_items_labels m) as [Hl _].
  unfold with_label. induction Hl as [|i out Hi _ IH].
  - now destruct (label_eqb _ l).
  - cbn [filter]. rewrite Hi, IH. now destruct (label_eqb _ l).
Qed.

(** C3, as the code has it: a run that ends normally visits the
    collections in the order in which they were filled, without a sort:
    the documents in the order of the set [docs]; the ranges in the order
    of the keys of [locByRange]; the definition groups in the order of the
    entries of [refsByDef]; the referencing ranges of a group in the order
    of its set; the ranges of a document in the order of its set in
    [rangesByDoc]. *)
Theorem ffff_consumes_in_insertion_order (x : Index) :
  succeeds (ffff fs x) ->
  with_label (inl VL_document) (emitted (ffff fs x))
  = map (fun doc =>
           Document ("document:" ++ doc) ("file:///" ++ doc) "cpp" "")
      (docs x)
  /\ with_label (inl VL_range) (emitted (ffff fs x))
     = range_items (locByRange x)
  /\ with_label (inl VL_resultSet) (emitted (ffff fs x))
     = map (fun entry => ResultSet ("resultSet:" ++ fst entry)) (refsByDef x)
  /\ with_label (inr EL_next) (emitted (ffff fs x))
     = flat_map (fun entry =>
                   next ("next:" ++ fst entry) (fst entry)
                     ("resultSet:" ++ fst entry)
                   :: map (fun ref =>
                             next ("next:" ++ ref) ref
                               ("resultSet:" ++ fst entry)) (snd entry))
         (refsByDef x)
  /\ with_label (inr EL_contains) (emitted (ffff fs x))
     = flat_map (fun doc =>
                   match JsMap.get doc (rangesByDoc x) with
                   | Some ranges =>
                       [contains ("contains:" ++ doc) ("document:" ++ doc)
                          ranges]
                   | None => []
                   end) (docs x)
       +++ [contains "projectContains" "project"
              (map (fun doc => "document:" ++ doc) (docs x))].
Proof.
  intros H. rewrite (ffff_eq fs x H). cbn [emitted fst].
  apply ffff_succeeds in H as [Hg _]. rewrite Forall_forall in Hg.
  unfold with_label at 1 2 3 4 5.
  rewrite !filter_app, !filter_flat_map.
  fold (with_label (inl VL_document) (range_items (locByRange x))).
  fold (with_label (inl VL_range) (range_items (locByRange x))).
  fold (with_label (inl VL_resultSet) (range_items (locByRange x))).
  fold (with_label (inr EL_next) (range_items (locByRange x))).
  fold (with_label (inr EL_contains) (range_items (locByRange x))).
  rewrite !with_label_ranges. cbn [label_eqb].
  assert (Hends : forall l f,
    (forall doc ranges,
       filter (fun i => label_eqb (label_of i) l)
         [contains ("contains:" ++ doc) ("document:" ++ doc) ranges;
          Event ("documentEnd:" ++ doc) ("document:" ++ doc)
            EK_end ES_document] = f doc ranges) ->
    flat_map (fun doc => filter (fun i => label_eqb (label_of i) l)
                           (document_end_items (rangesByDoc x) doc)) (docs x)
    = flat_map (fun doc => match JsMap.get doc (rangesByDoc x) with
                           | Some ranges => f doc ranges
                           | None => []
                           end) (docs x)).
  { intros l f Hf. apply flat_map_ext. intros doc.
    unfold document_end_items.
    destruct (JsMap.get doc (rangesByDoc x)); [apply Hf | reflexivity]. }
  rewrite (Hends (inl VL_document) (fun _ _ => [])) by reflexivity.
  rewrite (Hends (inl VL_range) (fun _ _ => [])) by reflexivity.
  rewrite (Hends (inl VL_resultSet) (fun _ _ => [])) by reflexivity.
  rewrite (Hends (inr EL_next) (fun _ _ => [])) by reflexivity.
  rewrite (Hends (inr EL_contains)
             (fun doc ranges =>
                [contains ("contains:" ++ doc) ("document:" ++ doc) ranges]))
    by reflexivity.
  assert (Hnone : forall B (l : list B) (g : B -> option JsSet.t),
    flat_map (fun b => match g b with
                       | Some _ => @nil Item
                       | None => []
                       end) l = []).
  { intros B l g. induction l as [|b l IH]; [reflexivity|].
    cbn [flat_map]. rewrite IH. now destruct (g b). }
  rewrite !Hnone.
  pose proof (fun e He => no_document_in_group x e (Hg e He)) as G1.
  pose proof (fun e He => no_range_in_group x e (Hg e He)) as G2.
  pose proof (fun e He => no_contains_in_group x e (Hg e He)) as G3.
  pose proof (fun e He => result_sets_of_group x e (Hg e He)) as G4.
  pose proof (fun e He => next_edges_of_group x e (Hg e He)) as G5.
  unfold with_label in G1, G2, G3, G4, G5.
  rewrite (flat_map_ext_in _ _ _ G1), (flat_map_ext_in _ _ _ G2).
  rewrite (flat_map_ext_in _ _ _ G3), (flat_map_ext_in _ _ _ G4).
  rewrite (flat_map_ext_in _ _ _ G5).
  rewrite !flat_map_nil, !flat_map_singleton.
  cbn [stream_head stream_tail filter label_of makeMeta makeProject
       makeProjectBegin makeProjectEnd label_eqb document_begin_items app].
  rewrite !flat_map_nil, !flat_map_singleton, ?app_nil_r.
  repeat split; reflexivity.
Qed.

End InsertionOrder.

(** [ffff_consumes_in_insertion_order] at a concrete input. *)
Lemma ffff_consumes_in_insertion_order_witness :
  with_label (inl VL_document) (emitted (ffff no_files sample_index))
  = [Document "document:b.ml" "file:///b.ml" "cpp" "";
     Document "document:a.ml" "file:///a.ml" "cpp" ""].
Proof.
  apply (ffff_consumes_in_insertion_order no_files sample_index).
  exists tt. vm_compute. reflexivity.
Defined.

(** C3, against the claim: the definition on line 11 and its reference on
    line 2 are visited line 10 before line 1 (the order of the input, and
    of the index, where [10:0] comes before [1:0] as text), as range
    vertices and as the ranges of their document; the documents of
    [sample_index] are visited [b.ml] first. *)
Lemma consumed_order_is_not_sorted :
  let run := writeLSIF no_files "proj/*.lsif.in" "proj" late_definition in
  snd run = Ok tt
  /\ range_starts (emitted run) = [at_ 10 0; at_ 1 0]
  /\ sorted_positions (range_starts (emitted run)) = false
  /\ In (contains "contains:a.ml" "document:a.ml" ["a.ml:10:0"; "a.ml:1:0"])
       (emitted run)
  /\ map id_of (with_label (inl VL_document)
                  (emitted (ffff no_files sample_index)))
     = ["document:b.ml"; "document:a.ml"]
  /\ String.leb "b.ml" "a.ml" = false.
Proof.
  cbv zeta. vm_compute. repeat split; auto 50.
Qed.

(** ** Ids that are emitted twice *)

Section Uniqueness.

Lemma unique_ids_count (out : list Item) (id : Id) :
  unique_ids out -> count (has_id id) out <= 1.
Proof.
  unfold unique_ids, count.
  induction out as [|i out IH]; cbn [map filter List.length]; [lia|].
  intros H. inversion H as [|? ? Hnin Hnd]; subst.
  specialize (IH Hnd). unfold has_id at 1.
  destruct (String.eqb_spec (id_of i) id) as [<-|_]; [|exact IH].
  cbn [List.length].
  assert (E : filter (has_id (id_of i)) out = []).
  { apply filter_none, Forall_forall. intros j Hj.
    unfold has_id. apply String.eqb_neq. intros E.
    apply Hnin. rewrite <- E. now apply in_map. }
  rewrite E. cbn [List.length]. lia.
Qed.

(** C1, on the code: one input line that is a definition site, its
    definition being its own range.  The run ends normally and the edge
    [next:a.ml:0:0] is in the stream twice, so the ids are not unique. *)
Theorem self_definition_repeats_next_id :
  let run := writeLSIF no_files "proj/*.lsif.in" "proj" self_definition in
  snd run = Ok tt
  /\ count (has_id "next:a.ml:0:0") (emitted run) = 2
  /\ ~ unique_ids (emitted run).
Proof.
  cbv zeta. split; [vm_compute; reflexivity|].
  assert (H : count (has_id "next:a.ml:0:0")
                (emitted (writeLSIF no_files "proj/*.lsif.in" "proj"
                            self_definition)) = 2).
  { vm_compute. reflexivity. }
  split; [exact H|].
  intros Hu. apply (unique_ids_count _ "next:a.ml:0:0") in Hu. lia.
Qed.

End Uniqueness.

(** ** Range vertices and the edges that name them *)

Section Closure.

(** C6, on the code: an input file whose name has a colon.  The next edge
    and the item edges name the range [lib:a.ml:0:0], whose vertex was
    emitted under the id [liba.ml:0:0]: the path was read back from the
    range's string without its colon.  With a second file that differs by
    the colon only, two range vertices have the same id. *)
Theorem colon_path_breaks_closure :
  let run := writeLSIF no_files "proj/*.lsif.in" "proj" colon_path in
  let twins := writeLSIF no_files "proj/*.lsif.in" "proj" colon_twins in
  snd run = Ok tt
  /\ In (next "next:lib:a.ml:0:0" "lib:a.ml:0:0" "resultSet:lib:a.ml:0:0")
       (emitted run)
  /\ In (contains "contains:lib:a.ml" "document:lib:a.ml" ["lib:a.ml:0:0"])
       (emitted run)
  /\ range_ids (emitted run) = ["liba.ml:0:0"]
  /\ closed (emitted run) = false
  /\ snd twins = Ok tt
  /\ range_ids (emitted twins) = ["liba.ml:0:0"; "liba.ml:0:0"].
Proof.
  cbv zeta. vm_compute. repeat split; auto 50.
Qed.

(** Without a colon in the name the same input is closed. *)
Lemma self_definition_is_closed :
  closed (emitted (writeLSIF no_files "proj/*.lsif.in" "proj"
                     self_definition)) = true
  /\ closed (emitted (writeLSIF no_files "proj/*.lsif.in" "proj"
                        late_definition)) = true.
Proof. vm_compute. split; reflexivity. Qed.

End Closure.

(** ** The fact store *)

Section FactStore.

Lemma insertMany_Forall (P : Db.Row -> Prop) (rows t : list Db.Row) :
  Forall P t -> Forall P rows -> Forall P (Db.insertMany t rows).
Proof.
  unfold Db.insertMany. revert t.
  induction rows as [|r rows IH]; intros t Ht Hrows; [exact Ht|].
  inversion Hrows as [|? ? Hr Hrows']; subst. cbn [fold_left].
  apply IH; [|exact Hrows'].
  unfold Db.insert_or_replace. apply Forall_app. split.
  - apply Forall_forall. intros r' Hr'. apply filter_In in Hr' as [Hr' _].
    rewrite Forall_forall in Ht. now apply Ht.
  - now constructor.
Qed.

Lemma table_of_Forall (P : Db.Row -> Prop)
    (inFiles : list (string * list Input.Line)) :
  Forall (fun f => Forall P (rows_of_file (fst f) (snd f))) inFiles ->
  Forall P (table_of inFiles).
Proof.
  unfold table_of.
  assert (H : forall t, Forall P t ->
    Forall (fun f => Forall P (rows_of_file (fst f) (snd f))) inFiles ->
    Forall P (fold_left (fun t '(sourceFile, lines) =>
                           Db.insertMany t (rows_of_file sourceFile lines))
                inFiles t)).
  { induction inFiles as [|[sf lines] fs IH]; intros t Ht Hfs; [exact Ht|].
    inversion Hfs as [|? ? Hf Hfs']; subst. cbn [fold_left].
    apply IH; [|exact Hfs']. now apply insertMany_Forall. }
  apply H. constructor.
Qed.

Lemma rows_of_file_well_formed (sourceFile : string)
    (lines : list Input.Line) :
  Forall well_formed_row (rows_of_file sourceFile lines).
Proof.
  unfold rows_of_file. apply Forall_forall. intros r Hr.
  apply in_map_iff in Hr as (l & <- & _).
  repeat split; eexists; reflexivity.
Qed.

Lemma rows_of_file_colon_free (sourceFile : string)
    (lines : list Input.Line) :
  Js.includes ":" sourceFile = false ->
  Forall (fun l => Js.includes ":" (Input.definition_file l) = false) lines ->
  Forall colon_free_row (rows_of_file sourceFile lines).
Proof.
  intros Hsf Hlines. unfold rows_of_file. apply Forall_forall. intros r Hr.
  apply in_map_iff in Hr as (l & <- & Hl).
  apply filter_In in Hl as [Hl _].
  apply in_map_iff in Hl as (l0 & <- & Hl0).
  rewrite Forall_forall in Hlines. specialize (Hlines _ Hl0).
  split; cbn; [exact Hsf|].
  now destruct (String.eqb (Input.definition_file l0) "*buffer*").
Qed.

Lemma table_well_formed (inFiles : list (string * list Input.Line)) :
  Forall well_formed_row (table_of inFiles).
Proof.
  apply table_of_Forall, Forall_forall. intros f _.
  apply rows_of_file_well_formed.
Qed.

Lemma table_colon_free (inFiles : list (string * list Input.Line)) :
  colon_free_input inFiles -> Forall colon_free_row (table_of inFiles).
Proof.
  intros H. apply table_of_Forall.
  eapply Forall_impl; [|exact H].
  intros [sf lines] [Hsf Hlines]. now apply rows_of_file_colon_free.
Qed.

(** [SELECT DISTINCT] keeps the rows of the table, each once. *)
Lemma distinct_from_incl {B : Type} (eqb : B -> B -> bool) (l seen : list B)
    (b : B) :
  In b (Db.distinct_from eqb seen l) -> In b l.
Proof.
  revert seen. induction l as [|a l IH]; intros seen; [intros []|].
  cbn [Db.distinct_from]. destruct (existsb (eqb a) seen).
  - intros H. right. eauto.
  - intros [->|H]; [now left | right; eauto].
Qed.

Lemma distinct_from_complete {B : Type} (eqb : B -> B -> bool)
    (eqb_eq : forall a b, eqb a b = true <-> a = b)
    (l seen : list B) (b : B) :
  In b l -> In b (Db.distinct_from eqb seen l) \/ In b seen.
Proof.
  revert seen. induction l as [|a l IH]; intros seen; [intros []|].
  cbn [Db.distinct_from]. intros [->|H].
  - destruct (existsb (eqb b) seen) eqn:E.
    + right. apply existsb_exists in E as (c & Hc & Hbc).
      apply eqb_eq in Hbc. now subst.
    + left. now left.
  - destruct (existsb (eqb a) seen).
    + apply IH. exact H.
    + destruct (IH (a :: seen) H) as [H'|[->|H']].
      * left. now right.
      * left. now left.
      * now right.
Qed.

Lemma eqb3_eq (a b : string * string * string) :
  Db.eqb3 a b = true <-> a = b.
Proof.
  destruct a as [[a1 a2] a3], b as [[b1 b2] b3]. unfold Db.eqb3.
  rewrite !andb_true_iff, !String.eqb_eq.
  split; [intros [[-> ->] ->]; reflexivity | intros [= -> -> ->]; auto].
Qed.

Lemma eqb5_eq (a b : string * string * string * string * string) :
  Db.eqb5 a b = true <-> a = b.
Proof.
  destruct a as [[[[a1 a2] a3] a4] a5], b as [[[[b1 b2] b3] b4] b5].
  unfold Db.eqb5. rewrite !andb_true_iff, !String.eqb_eq.
  split; [intros [[[[-> ->] ->] ->] ->]; reflexivity
         | intros [= -> -> -> -> ->]; auto].
Qed.

Lemma insert_by_key_perm (r : Db.Row) (l : list Db.Row) :
  Permutation (Db.insert_by_key r l) (r :: l).
Proof.
  induction l as [|r' l IH]; cbn [Db.insert_by_key]; [reflexivity|].
  destruct (Db.key_leb r r'); [reflexivity|].
  rewrite IH. apply perm_swap.
Qed.

(** A scan of the index meets the rows of the table, each once. *)
Lemma by_index_perm (t : list Db.Row) : Permutation (Db.by_index t) t.
Proof.
  induction t as [|r t IH]; [reflexivity|].
  cbn [Db.by_index fold_right]. fold (Db.by_index t).
  now rewrite insert_by_key_perm, IH.
Qed.

Lemma in_by_index (t : list Db.Row) (r : Db.Row) :
  In r (Db.by_index t) <-> In r t.
Proof.
  split; apply Permutation_in;
    [apply by_index_perm | apply Permutation_sym, by_index_perm].
Qed.

Lemma in_select_ranges (t : list Db.Row) (row : string * string * string) :
  In row (Db.select_ranges t) <->
  exists r, In r t
            /\ (row = (Db.file r, Db.start r, Db.end_ r)
                \/ row = (Db.deffile r, Db.defstart r, Db.defstart r)).
Proof.
  unfold Db.select_ranges, Db.distinct. rewrite in_app_iff. split.
  - intros [H|H]; apply distinct_from_incl in H;
      apply in_map_iff in H as (r & <- & Hr).
    + apply (proj1 (in_by_index _ _)) in Hr. exists r. auto.
    + exists r. auto.
  - intros (r & Hr & [-> | ->]); [left|right].
    + destruct (distinct_from_complete Db.eqb3 eqb3_eq
                  (map (fun r => (Db.file r, Db.start r, Db.end_ r))
                     (Db.by_index t)) []
                  (Db.file r, Db.start r, Db.end_ r)) as [H|[]];
        [|exact H].
      apply in_map_iff. exists r. split; [reflexivity|].
      now apply in_by_index.
    + destruct (distinct_from_complete Db.eqb3 eqb3_eq
                  (map (fun r => (Db.deffile r, Db.defstart r, Db.defstart r))
                     t) []
                  (Db.deffile r, Db.defstart r, Db.defstart r)) as [H|[]];
        [|exact H].
      apply in_map_iff. eauto.
Qed.

Lemma in_select_links (t : list Db.Row)
    (row : string * string * string * string * string) :
  In row (Db.select_links t) ->
  exists r, In r t
            /\ row = (Db.file r, Db.start r, Db.deffile r,
                      Db.defstart r, Db.type r).
Proof.
  unfold Db.select_links, Db.distinct. intros H.
  apply distinct_from_incl in H. apply in_map_iff in H as (r & <- & Hr).
  apply (proj1 (in_by_index _ _)) in Hr. eauto.
Qed.

End FactStore.

(** ** Maps and sets *)

Section Collections.

Context {V : Type}.

Lemma in_set (k k' : string) (v v' : V) (m : JsMap.t V) :
  In (k', v') (JsMap.set k v m) -> (k', v') = (k, v) \/ In (k', v') m.
Proof.
  induction m as [|[k0 v0] m IH]; cbn [JsMap.set].
  - intros [H|[]]. now left.
  - destruct (String.eqb k0 k).
    + intros [H|H]; [now left | right; now right].
    + intros [H|H]; [right; now left|].
      destruct (IH H); [now left | right; now right].
Qed.

Lemma keys_set (k : string) (v : V) (m : JsMap.t V) :
  In k (JsMap.keys m) /\ JsMap.keys (JsMap.set k v m) = JsMap.keys m
  \/ ~ In k (JsMap.keys m)
     /\ JsMap.keys (JsMap.set k v m) = (JsMap.keys m ++ [k])%list.
Proof.
  unfold JsMap.keys.
  induction m as [|[k0 v0] m IH]; cbn [JsMap.set map fst].
  - right. split; [intros []|reflexivity].
  - destruct (String.eqb_spec k0 k) as [->|Hk].
    + left. split; [now left|reflexivity].
    + destruct IH as [[Hin E]|[Hnin E]]; cbn [map fst]; rewrite E.
      * left. split; [now right|reflexivity].
      * right. split; [|reflexivity]. intros [H|H]; [congruence|tauto].
Qed.

Lemma in_keys_set (k k' : string) (v : V) (m : JsMap.t V) :
  In k' (JsMap.keys (JsMap.set k v m)) <-> k' = k \/ In k' (JsMap.keys m).
Proof.
  destruct (keys_set k v m) as [[Hin ->]|[Hnin ->]].
  - split; [now right | intros [->|H]; assumption].
  - rewrite in_app_iff. cbn [In]. split.
    + intros [H|[<-|[]]]; [now right | now left].
    + intros [->|H]; [right; now left | now left].
Qed.

Lemma keys_set_NoDup (k : string) (v : V) (m : JsMap.t V) :
  NoDup (JsMap.keys m) -> NoDup (JsMap.keys (JsMap.set k v m)).
Proof.
  intros H. destruct (keys_set k v m) as [[_ ->]|[Hnin ->]]; [exact H|].
  apply NoDup_app; [exact H | repeat constructor; intros [] |].
  intros a Ha [<-|[]]. exact (Hnin Ha).
Qed.

Lemma get_set_same (k : string) (v : V) (m : JsMap.t V) :
  JsMap.get k (JsMap.set k v m) = Some v.
Proof.
  induction m as [|[k0 v0] m IH]; cbn [JsMap.set JsMap.get].
  - now rewrite String.eqb_refl.
  - destruct (String.eqb k0 k) eqn:E; cbn [JsMap.get].
    + now rewrite String.eqb_refl.
    + now rewrite E.
Qed.

Lemma get_set_other (k k' : string) (v : V) (m : JsMap.t V) :
  k' <> k -> JsMap.get k' (JsMap.set k v m) = JsMap.get k' m.
Proof.
  intros Hne. induction m as [|[k0 v0] m IH]; cbn [JsMap.set JsMap.get].
  - destruct (String.eqb_spec k k'); [congruence | reflexivity].
  - destruct (String.eqb_spec k0 k) as [->|Hk]; cbn [JsMap.get].
    + destruct (String.eqb_spec k k'); [congruence|].
      destruct (String.eqb_spec k k'); [congruence | reflexivity].
    + now rewrite IH.
Qed.

Lemma in_add (x y : string) (s : JsSet.t) :
  In x (JsSet.add y s) <-> x = y \/ In x s.
Proof.
  unfold JsSet.add, JsSet.has.
  destruct (existsb (String.eqb y) s) eqn:E.
  - split; [now right|]. intros [->|H]; [|exact H].
    apply existsb_exists in E as (z & Hz & Hyz).
    apply String.eqb_eq in Hyz. now subst.
  - rewrite in_app_iff. cbn [In]. split.
    + intros [H|[<-|[]]]; [now right | now left].
    + intros [->|H]; [right; now left | now left].
Qed.

Lemma add_NoDup (y : string) (s : JsSet.t) :
  NoDup s -> NoDup (JsSet.add y s).
Proof.
  intros H. unfold JsSet.add, JsSet.has.
  destruct (existsb (String.eqb y) s) eqn:E; [exact H|].
  apply NoDup_app; [exact H | repeat constructor; intros [] |].
  intros a Ha [<-|[]].
  assert (existsb (String.eqb y) s = true); [|congruence].
  apply existsb_exists. exists y. split; [exact Ha | apply String.eqb_refl].
Qed.

End Collections.

(** ** The first loop of [writeLSIF] *)

Section CollectRanges.

Lemma parseLocation_of_row (file : string) (s e : Pos_) :
  parseLocation (file ++ ":" ++ stringifyPosition s)
    (file ++ ":" ++ stringifyPosition e)
  = Ok {| Lsp.uri := Js.remove_char ":" file;
          Lsp.range := {| Lsp.start := lsp_position s;
                          Lsp.end_ := lsp_position e |} |}.
Proof.
  unfold parseLocation.
  rewrite !parseFilePosition_of_position. cbn [result_bind fp_uri position].
  now rewrite String.eqb_refl.
Qed.

Lemma collect_ranges_step (file start end_ : string)
    (rows : list (string * string * string)) (acc : Ranges) :
  good_range_row (file, start, end_) ->
  exists loc,
    parseLocation (file ++ ":" ++ start) (file ++ ":" ++ end_) = Ok loc
    /\ Lsp.uri loc = Js.remove_char ":" file
    /\ (exists s, start = stringifyPosition s
                  /\ Lsp.start (Lsp.range loc) = lsp_position s)
    /\ collect_ranges ((file, start, end_) :: rows) acc
       = collect_ranges rows (collect_range file start loc acc).
Proof.
  intros [[s ->] [e ->]]. eexists. split; [apply parseLocation_of_row|].
  split; [reflexivity|]. split; [exists s; split; reflexivity|].
  cbn [collect_ranges]. rewrite parseLocation_of_row. reflexivity.
Qed.

Lemma collect_range_invariant (file start : string) (loc : Lsp.Location)
    (acc : Ranges) :
  (exists fp, parseFilePosition (stringifyStringLocation file start) = Ok fp
              /\ fp_uri fp = Lsp.uri loc) ->
  ranges_invariant acc ->
  ranges_invariant (collect_range file start loc acc).
Proof.
  intros Hloc [Hkeys Hdocs Hranges Huri].
  constructor; cbn [collect_range r_docs r_rangesByDoc r_locByRange].
  - now apply keys_set_NoDup.
  - intros doc Hdoc. destruct (String.eqb_spec doc file) as [->|Hne].
    + rewrite get_set_same. eauto.
    + rewrite get_set_other by exact Hne.
      apply in_add in Hdoc as [Hdoc|Hdoc]; [congruence | now apply Hdocs].
  - intros doc ranges range Hin Hrange. apply in_keys_set.
    apply in_set in Hin as [[= -> ->]|Hin].
    + apply in_add in Hrange as [->|Hrange]; [now left|]. right.
      destruct (JsMap.get file (r_rangesByDoc acc)) as [old|] eqn:Hget;
        [|contradiction].
      apply get_in in Hget. eapply Hranges; eassumption.
    + right. eapply Hranges; eassumption.
  - intros range loc' Hin. apply in_set in Hin as [[= -> ->]|Hin].
    + exact Hloc.
    + now apply Huri.
Qed.

Lemma collect_range_ids (file start : string) (loc : Lsp.Location)
    (acc : Ranges) :
  stringifyLocation loc = stringifyStringLocation file start ->
  ids_are_keys (r_locByRange acc) ->
  ids_are_keys (r_locByRange (collect_range file start loc acc)).
Proof.
  intros Hloc Hacc range loc' Hin. cbn [collect_range r_locByRange] in Hin.
  apply in_set in Hin as [[= -> ->]|Hin]; [exact Hloc | now apply Hacc].
Qed.

(** The first loop ends normally on the rows of the table; it keeps the
    invariant, registers every row, and forgets no range. *)
Lemma collect_ranges_spec (rows : list (string * string * string)) :
  forall acc,
    Forall good_range_row rows ->
    exists r,
      collect_ranges rows acc = Ok r
      /\ (ranges_invariant acc -> ranges_invariant r)
      /\ (Forall colon_free_range_row rows ->
          ids_are_keys (r_locByRange acc) -> ids_are_keys (r_locByRange r))
      /\ (forall k, In k (JsMap.keys (r_locByRange acc)) ->
                    In k (JsMap.keys (r_locByRange r)))
      /\ (forall file start end_,
            In (file, start, end_) rows ->
            In (stringifyStringLocation file start)
              (JsMap.keys (r_locByRange r))).
Proof.
  induction rows as [|[[file start] end_] rows IH]; intros acc Hgood.
  - exists acc. cbn [collect_ranges].
    split; [reflexivity|]. split; [auto|]. split; [auto|].
    split; [auto|]. intros ? ? ? [].
  - inversion Hgood as [|? ? Hrow Hrows]; subst.
    destruct (collect_ranges_step file start end_ rows acc Hrow)
      as (loc & Hparse & Huri & (s & Hs & Hstart) & ->).
    destruct (IH (collect_range file start loc acc) Hrows)
      as (r & -> & Hinv & Hids & Hmono & Hcover).
    assert (Hfp : exists fp,
              parseFilePosition (stringifyStringLocation file start) = Ok fp
              /\ fp_uri fp = Lsp.uri loc).
    { unfold stringifyStringLocation. subst start.
      rewrite parseFilePosition_of_position.
      eexists. split; [reflexivity|]. now rewrite Huri. }
    exists r. split; [reflexivity|].
    split; [|split; [|split]].
    + intros Hacc. now apply Hinv, collect_range_invariant.
    + intros Hcf Hacc. inversion Hcf as [|? ? Hfile Hcf']; subst.
      apply (Hids Hcf'). apply collect_range_ids; [|exact Hacc].
      unfold stringifyLocation, stringifyStringLocation.
      rewrite Huri, Hstart, remove_char_absent by exact Hfile.
      reflexivity.
    + intros k Hk. apply Hmono. cbn [collect_range r_locByRange].
      apply in_keys_set. now right.
    + intros f st en [[= -> -> ->]|Hin].
      * apply Hmono. cbn [collect_range r_locByRange].
        apply in_keys_set. now left.
      * eapply Hcover. exact Hin.
Qed.

End CollectRanges.

(** ** The second loop of [writeLSIF] and the correlation *)

Section Correlation.

Lemma collect_links_spec (K : string -> Prop)
    (rows : list (string * string * string * string * string)) :
  forall refsByDef hoverByDef,
    (forall file start deffile defstart type,
       In (file, start, deffile, defstart, type) rows ->
       K (stringifyStringLocation file start)
       /\ K (stringifyStringLocation deffile defstart)) ->
    links_invariant K refsByDef ->
    links_invariant K (fst (collect_links rows (refsByDef, hoverByDef))).
Proof.
  induction rows as [|[[[[file start] deffile] defstart] type] rows IH];
    intros refsByDef hoverByDef Hrows Hinv; [exact Hinv|].
  cbn [collect_links]. apply IH.
  { intros. eapply Hrows. right. eassumption. }
  destruct (Hrows file start deffile defstart type (or_introl eq_refl))
    as [Kref Kdef].
  destruct Hinv as [Hkeys Hgroups]. split; [now apply keys_set_NoDup|].
  intros def refs Hin. apply in_set in Hin as [[= -> ->]|Hin];
    [|now apply Hgroups].
  destruct (JsMap.get (stringifyStringLocation deffile defstart) refsByDef)
    as [old|] eqn:Hget.
  - apply get_in, Hgroups in Hget as (Hnd & _ & Hold).
    split; [now apply add_NoDup|]. split; [exact Kdef|].
    intros ref Href. apply in_add in Href as [->|Href]; auto.
  - split; [apply add_NoDup; constructor|]. split; [exact Kdef|].
    intros ref Href. apply in_add in Href as [->|[]]. exact Kref.
Qed.

Lemma select_ranges_good (t : list Db.Row) :
  Forall well_formed_row t -> Forall good_range_row (Db.select_ranges t).
Proof.
  intros Ht. apply Forall_forall. intros [[file start] end_] Hrow.
  apply in_select_ranges in Hrow as (r & Hr & Hrow).
  rewrite Forall_forall in Ht. destruct (Ht r Hr) as (Hs & He & Hd).
  destruct Hrow as [[= -> -> ->]|[= -> -> ->]]; split; assumption.
Qed.

Lemma select_ranges_colon_free (t : list Db.Row) :
  Forall colon_free_row t ->
  Forall colon_free_range_row (Db.select_ranges t).
Proof.
  intros Ht. apply Forall_forall. intros [[file start] end_] Hrow.
  apply in_select_ranges in Hrow as (r & Hr & Hrow).
  rewrite Forall_forall in Ht. destruct (Ht r Hr) as (Hf & Hd).
  destruct Hrow as [[= -> -> ->]|[= -> -> ->]]; assumption.
Qed.

Lemma empty_ranges_invariant :
  ranges_invariant {| r_docs := JsSet.empty;
                      r_rangesByDoc := JsMap.empty;
                      r_locByRange := JsMap.empty |}.
Proof. constructor; cbn; try constructor; intros; contradiction. Qed.

(** Once the glob has matched, the correlation ends normally, and the
    collections it hands to the engine are well formed; without a colon in
    a file name, the id of each range vertex will be the key of its
    range. *)
Lemma correlate_spec (inFileGlob root : string)
    (inFiles : list (string * list Input.Line)) :
  inFiles <> [] ->
  exists x,
    correlate inFileGlob root inFiles = Ok x
    /\ well_formed_index x
    /\ importMonikerByRange x = [] /\ exportMonikerByRange x = []
    /\ (colon_free_input inFiles -> ids_are_keys (locByRange x)).
Proof.
  intros Hne. unfold correlate. fold (table_of inFiles).
  destruct inFiles as [|f fs] eqn:Hfiles; [congruence|]. rewrite <- Hfiles.
  clear Hne.
  pose proof (table_well_formed inFiles) as Hwf.
  destruct (collect_ranges_spec (Db.select_ranges (table_of inFiles))
              {| r_docs := JsSet.empty;
                 r_rangesByDoc := JsMap.empty;
                 r_locByRange := JsMap.empty |}
              (select_ranges_good _ Hwf))
    as (r & -> & Hinv & Hids & _ & Hcover).
  specialize (Hinv empty_ranges_invariant).
  destruct Hinv as [Hkeys Hdocs Hranges Huri].
  cbn [result_bind].
  pose proof (collect_links_spec
                (fun k => In k (JsMap.keys (r_locByRange r)))
                (Db.select_links (table_of inFiles))
                JsMap.empty JsMap.empty) as Hlinks.
  destruct (collect_links (Db.select_links (table_of inFiles))
              (JsMap.empty, JsMap.empty)) as [rbd hbd].
  cbn [fst] in Hlinks.
  destruct Hlinks as [Hgroups Hin].
  { intros file start deffile defstart type Hrow.
    apply in_select_links in Hrow as (row & Hrow & [= -> -> -> -> ->]).
    split; eapply Hcover; apply in_select_ranges; exists row;
      (split; [exact Hrow|]); [left | right]; reflexivity. }
  { split; [constructor | intros ? ? []]. }
  eexists. split; [reflexivity|]. split.
  { constructor; cbn [locByRange refsByDef docs rangesByDoc];
      try assumption.
    - intros def refs H. now apply Hin in H.
    - intros def refs H. now apply Hin in H.
    - intros def refs ref H Href. apply Hin in H as (_ & _ & H). auto. }
  split; [reflexivity|]. split; [reflexivity|].
  intros Hcf. cbn [locByRange]. apply Hids.
  - now apply select_ranges_colon_free, table_colon_free.
  - intros ? ? [].
Qed.

End Correlation.

(** ** Runs on well-formed collections *)

Section WellFormedRuns.

Variable fs : string -> option string.

Lemma in_keys_in {V : Type} (k : string) (m : JsMap.t V) :
  In k (JsMap.keys m) -> exists v, In (k, v) m.
Proof.
  intros H. apply in_map_iff in H as ([k' v] & <- & H). eauto.
Qed.

Lemma group_succeeds_iff (x : Index) (def : string) (refs : JsSet.t) :
  group_succeeds x (def, refs) <->
  (exists defLoc, JsMap.get def (locByRange x) = Some defLoc)
  /\ exists groups, Lodash.groupBy refs uriOfRef = Ok groups.
Proof.
  unfold group_succeeds. cbn [fst snd]. rewrite emitDefinitionGroup_eq.
  unfold succeeds. split.
  - intros [a Ha].
    destruct (JsMap.get def (locByRange x)) as [defLoc|];
      [|discriminate Ha].
    cbn [snd] in Ha.
    destruct (Lodash.groupBy refs uriOfRef) as [groups|e];
      [|discriminate Ha].
    split; eauto.
  - intros [[defLoc ->] [groups ->]]. now exists tt.
Qed.

(** The engine does not throw on the collections of the correlation. *)
Lemma well_formed_run_succeeds (x : Index) :
  well_formed_index x -> succeeds (ffff fs x).
Proof.
  intros Hwf. apply ffff_succeeds. split.
  - apply Forall_forall. intros [def refs] Hin.
    apply group_succeeds_iff. split.
    + apply get_of_key. eapply wf_defs; eassumption.
    + apply groupBy_into_total. apply Forall_forall. intros ref Href.
      pose proof (wf_references x Hwf def refs ref Hin Href) as Hk.
      apply in_keys_in in Hk as (loc & Hloc).
      destruct (wf_uri x Hwf ref loc Hloc) as (fp & Hfp & _).
      unfold uriOfRef. rewrite Hfp. cbn [result_bind]. eauto.
  - apply Forall_forall. intros doc Hdoc.
    destruct (wf_docs x Hwf doc Hdoc) as [ranges ->]. discriminate.
Qed.

Lemma closed_from_all (out : list Item) :
  forall seen,
    (forall i r, In i out -> In r (range_endpoints i) -> In r seen) ->
    closed_from seen out = true.
Proof.
  induction out as [|i out IH]; intros seen H; [reflexivity|].
  cbn [closed_from]. apply andb_true_intro. split.
  - apply forallb_forall. intros r Hr. apply existsb_exists.
    exists r. split; [|apply String.eqb_refl].
    apply (H i r); [now left | exact Hr].
  - apply IH. intros j r Hj Hr. apply in_or_app. right.
    apply (H j r); [now right | exact Hr].
Qed.

Lemma closed_from_app (a b : list Item) :
  forall seen,
    closed_from seen a = true ->
    (forall seen',
       (forall r, In r seen \/ In r (range_ids a) -> In r seen') ->
       closed_from seen' b = true) ->
    closed_from seen (a ++ b) = true.
Proof.
  induction a as [|i a IH]; intros seen Ha Hb.
  - apply Hb. intros r [H|[]]. exact H.
  - cbn [app closed_from] in *. apply andb_prop in Ha as [Hi Ha].
    rewrite Hi. cbn [andb]. apply (IH _ Ha).
    intros seen' Hseen. apply Hb. intros r [H|H].
    + apply Hseen. left. apply in_or_app. now right.
    + change (i :: a) with ([i] ++ a)%list in H.
      unfold range_ids in H. rewrite flat_map_app in H.
      apply in_app_or in H as [H|H].
      * apply Hseen. left. apply in_or_app. now left.
      * apply Hseen. now right.
Qed.

Lemma range_ids_of_items (m : JsMap.t Lsp.Location) :
  ids_are_keys m -> range_ids (range_items m) = JsMap.keys m.
Proof.
  intros Hids. unfold range_items, range_ids.
  assert (H : forall ks, incl ks (JsMap.keys m) ->
    flat_map (fun i => match i with Range id _ => [id] | _ => [] end)
      (flat_map (fun range => match JsMap.get range m with
                              | Some loc => [makeRange loc]
                              | None => []
                              end) ks) = ks).
  { induction ks as [|k ks IH]; intros Hincl; [reflexivity|].
    cbn [flat_map]. rewrite flat_map_app.
    rewrite IH by (intros a Ha; apply Hincl; now right).
    destruct (get_of_key k m (Hincl k (or_introl eq_refl))) as [loc Hloc].
    rewrite Hloc. cbn [flat_map makeRange app].
    now rewrite (Hids k loc (get_in k loc m Hloc)). }
  apply H, incl_refl.
Qed.

Lemma group_endpoints (x : Index) (def : string) (refs : JsSet.t)
    (i : Item) (r : Id) :
  In i (group_items x (def, refs)) -> In r (range_endpoints i) ->
  r = def \/ In r refs.
Proof.
  unfold group_items. cbn [fst snd]. rewrite emitDefinitionGroup_eq.
  destruct (JsMap.get def (locByRange x)) as [defLoc|]; [|contradiction].
  cbn [emitted fst]. unfold group_head. intros Hin Hr.
  repeat (apply in_app_or in Hin as [Hin|Hin]).
  - destruct Hin as [<-|[<-|[]]]; [contradiction|].
    destruct Hr as [<-|[]]. now left.
  - destruct (JsMap.get def (importMonikerByRange x)) as [m|];
      cbn [emitImportOrDefinition] in Hin; rewrite !bind_emit in Hin;
      cbn [emitted emit fst] in Hin;
      repeat (destruct Hin as [<-|Hin];
              [try contradiction; destruct Hr as [<-|[]]; now left|]);
      contradiction.
  - unfold emitHover in Hin.
    destruct (truthy (JsMap.get def (hoverByDef x))); [|contradiction].
    rewrite !bind_emit in Hin. cbn [emitted emit fst] in Hin.
    repeat (destruct Hin as [<-|Hin]; [contradiction|]). contradiction.
  - repeat (destruct Hin as [<-|Hin]; [contradiction|]). contradiction.
  - destruct (JsMap.get def (importMonikerByRange x)) as [m|];
      cbn [emitDefinitionsItem emitted emit ret fst] in Hin;
      [contradiction|].
    destruct Hin as [<-|[]]. destruct Hr as [<-|[]]. now left.
  - apply in_map_iff in Hin as (ref & <- & Href).
    destruct Hr as [<-|[]]. now right.
  - destruct (Lodash.groupBy refs uriOfRef) as [groups|e] eqn:Hgroups;
      [|contradiction].
    apply in_app_or in Hin as [Hin|Hin].
    + apply in_map_iff in Hin as ([u rs] & <- & Hpair).
      cbn [referencesItem range_endpoints] in Hr. right.
      destruct (groupBy_spec uriOfRef refs groups Hgroups) as (Hperm & _).
      apply (Permutation_in _ Hperm). apply in_flat_map.
      exists (u, rs). split; [|exact Hr].
      apply (Permutation_in _ (toPairs_perm groups)). exact Hpair.
    + destruct (JsMap.get def (exportMonikerByRange x)) as [m|];
        cbn [emitExport] in Hin; [|contradiction].
      rewrite !bind_emit in Hin. cbn [emitted emit fst] in Hin.
      repeat (destruct Hin as [<-|Hin]; [contradiction|]). contradiction.
Qed.

Lemma no_range_vertex_in_group (x : Index) (entry : string * JsSet.t) :
  with_label (inl VL_range) (group_items x entry) = [].
Proof.
  destruct entry as [def refs]. unfold group_items. cbn [fst snd].
  rewrite emitDefinitionGroup_eq.
  destruct (JsMap.get def (locByRange x)) as [defLoc|]; [|reflexivity].
  cbn [emitted fst]. unfold with_label, group_head, emitHover.
  rewrite !filter_app.
  rewrite (filter_map_none _ (nextOfRef def)) by reflexivity.
  destruct (Lodash.groupBy refs uriOfRef) as [groups|e].
  - rewrite !filter_app.
    rewrite (filter_map_none _ (referencesItem def)) by (now intros [u rs]).
    now destruct (JsMap.get def (importMonikerByRange x)),
      (truthy (JsMap.get def (hoverByDef x))),
      (JsMap.get def (exportMonikerByRange x)).
  - now destruct (JsMap.get def (importMonikerByRange x)),
      (truthy (JsMap.get def (hoverByDef x))).
Qed.

(** On the collections of the correlation, when the id of each range
    vertex is the key of its range, the run ends normally, each range has
    one vertex, and every range that an edge names was emitted before as a
    vertex. *)
Lemma well_formed_run_is_closed (x : Index) :
  well_formed_index x -> ids_are_keys (locByRange x) ->
  succeeds (ffff fs x)
  /\ range_ids (emitted (ffff fs x)) = JsMap.keys (locByRange x)
  /\ NoDup (range_ids (emitted (ffff fs x)))
  /\ closed (emitted (ffff fs x)) = true.
Proof.
  intros Hwf Hids. pose proof (well_formed_run_succeeds x Hwf) as Hok.
  split; [exact Hok|].
  assert (Hrange : forall i, In i (range_items (locByRange x)) ->
                             range_endpoints i = []).
  { intros i Hi. destruct (range_items_labels (locByRange x)) as [Hl _].
    rewrite Forall_forall in Hl. specialize (Hl i Hi).
    destruct i; try discriminate. reflexivity. }
  assert (Hother : forall entry i, In i (group_items x entry) ->
                                   range_ids [i] = []).
  { intros entry i Hi. destruct i; try reflexivity. exfalso.
    eapply in_nil. rewrite <- (no_range_vertex_in_group x entry).
    apply filter_In. split; [eassumption | reflexivity]. }
  rewrite (ffff_eq fs x Hok). cbn [emitted fst].
  assert (Eids :
    range_ids (stream_head x ++ flat_map document_begin_items (docs x)
               ++ range_items (locByRange x)
               ++ flat_map (group_items x) (refsByDef x)
               ++ flat_map (document_end_items (rangesByDoc x)) (docs x)
               ++ stream_tail x)%list
    = JsMap.keys (locByRange x)).
  { unfold range_ids. rewrite !flat_map_app.
    fold (range_ids (range_items (locByRange x))).
    rewrite (range_ids_of_items _ Hids).
    assert (E1 : forall ds, flat_map
              (fun i => match i with Range id _ => [id] | _ => [] end)
              (flat_map document_begin_items ds) = []).
    { induction ds as [|d ds IH]; [reflexivity|]. exact IH. }
    assert (E2 : forall ds, flat_map
              (fun i => match i with Range id _ => [id] | _ => [] end)
              (flat_map (document_end_items (rangesByDoc x)) ds) = []).
    { induction ds as [|d ds IH]; [reflexivity|].
      cbn [flat_map]. rewrite flat_map_app, IH.
      unfold document_end_items.
      now destruct (JsMap.get d (rangesByDoc x)). }
    assert (E3 : forall l, flat_map
              (fun i => match i with Range id _ => [id] | _ => [] end)
              (flat_map (group_items x) l) = []).
    { induction l as [|e l IH]; [reflexivity|].
      cbn [flat_map]. rewrite flat_map_app, IH, app_nil_r.
      assert (H : forall items,
                (forall i, In i items -> range_ids [i] = []) ->
                flat_map (fun i => match i with
                                   | Range id _ => [id]
                                   | _ => []
                                   end) items = []).
      { induction items as [|i items IHi]; intros H; [reflexivity|].
        cbn [flat_map]. rewrite IHi by (intros j Hj; apply H; now right).
        specialize (H i (or_introl eq_refl)). unfold range_ids in H.
        cbn [flat_map] in H. rewrite app_nil_r in H. now rewrite H. }
      apply H. intros i Hi.
      apply (Hother e i Hi). }
    rewrite E1, E2, E3. cbn [stream_head stream_tail flat_map makeMeta
      makeProject makeProjectBegin makeProjectEnd app].
    now rewrite app_nil_r. }
  split; [exact Eids|]. split; [rewrite Eids; apply (wf_ranges x Hwf)|].
  unfold closed.
  rewrite (app_assoc (stream_head x)
             (flat_map document_begin_items (docs x))).
  rewrite (app_assoc _ (range_items (locByRange x))).
  apply closed_from_app.
  - apply closed_from_all. intros i r Hi Hr.
    apply in_app_or in Hi as [Hi|Hi];
      [apply in_app_or in Hi as [Hi|Hi]|].
    + cbn in Hi. repeat (destruct Hi as [<-|Hi]; [contradiction|]).
      contradiction.
    + apply in_flat_map in Hi as (doc & _ & Hi). cbn in Hi.
      repeat (destruct Hi as [<-|Hi]; [contradiction|]). contradiction.
    + rewrite (Hrange i Hi) in Hr. contradiction.
  - intros seen' Hseen. apply closed_from_all. intros i r Hi Hr.
    apply Hseen. right.
    unfold range_ids. rewrite !flat_map_app. apply in_or_app. right.
    fold (range_ids (range_items (locByRange x))).
    rewrite (range_ids_of_items _ Hids).
    apply in_app_or in Hi as [Hi|Hi];
      [|apply in_app_or in Hi as [Hi|Hi]].
    + apply in_flat_map in Hi as ([def refs] & He & Hi).
      destruct (group_endpoints x def refs i r Hi Hr) as [->|Href].
      * eapply wf_defs; eassumption.
      * eapply wf_references; eassumption.
    + apply in_flat_map in Hi as (doc & Hdoc & Hi).
      unfold document_end_items in Hi.
      destruct (JsMap.get doc (rangesByDoc x)) as [ranges|] eqn:Hget;
        [|contradiction].
      destruct Hi as [<-|[<-|[]]]; [|contradiction].
      cbn in Hr. apply get_in in Hget.
      eapply wf_contained; eassumption.
    + destruct Hi as [<-|[<-|[]]]; contradiction.
Qed.

End WellFormedRuns.

(** ** The reference items in a run *)

Section ReferenceItemsOfRun.

Variable fs : string -> option string.

(** What holds of the item edges of step 10 in every run that ends
    normally: the sub-sequence of a definition group is part of the
    stream, and its item edges tagged [references] together list the
    referencing ranges [refs] of the group, each once; there is one edge
    for each name that [parseFilePosition] reads from the ranges, and the
    edge is tagged [document:] and that name.  The name is the path
    without its colons, which is the document of the range only when the
    path has no colon. *)
Lemma reference_items_partition_references
    (x : Index) (def : string) (refs : JsSet.t) :
  succeeds (ffff fs x) ->
  In (def, refs) (refsByDef x) ->
  NoDup refs ->
  let edges := filter is_references_item (group_items x (def, refs)) in
  (exists before after,
     emitted (ffff fs x)
     = (before ++ group_items x (def, refs) ++ after)%list)
  /\ Permutation (flat_map inVs_of edges) refs
  /\ NoDup (flat_map inVs_of edges)
  /\ NoDup (map document_of edges)
  /\ Forall (fun e =>
       exists uri rs,
         e = item ("item:textDocument/references:references:" ++ def
                     ++ ":" ++ uri)
               ("reference:" ++ def) rs (Some references)
               ("document:" ++ uri)
         /\ rs <> []
         /\ Forall (fun ref =>
                      exists fp, parseFilePosition ref = Ok fp
                                 /\ fp_uri fp = uri) rs) edges
  /\ (well_formed_index x ->
      Forall (fun e =>
                forall ref, In ref (inVs_of e) ->
                  exists loc,
                    JsMap.get ref (locByRange x) = Some loc
                    /\ document_of e = "document:" ++ Lsp.uri loc) edges).
Proof.
  intros Hok Hin Hnd. cbv zeta.
  pose proof (proj1 (proj1 (ffff_succeeds fs x) Hok)) as Hg.
  rewrite Forall_forall in Hg. specialize (Hg _ Hin).
  destruct (group_reference_items_partition (hoverByDef x) (locByRange x)
              (importMonikerByRange x) (exportMonikerByRange x)
              def refs Hg Hnd) as (Hperm & Hdisj & Hdocs & Hedges).
  fold (group_items x (def, refs)) in Hperm, Hdisj, Hdocs, Hedges.
  split.
  { destruct (in_split _ _ Hin) as (l1 & l2 & Hsplit).
    rewrite (ffff_eq fs x Hok). cbn [emitted fst].
    rewrite Hsplit, flat_map_app. cbn [flat_map].
    exists (stream_head x ++ flat_map document_begin_items (docs x)
            ++ range_items (locByRange x)
            ++ flat_map (group_items x) l1)%list.
    exists (flat_map (group_items x) l2
            ++ flat_map (document_end_items (rangesByDoc x)) (docs x)
            ++ stream_tail x)%list.
    now rewrite <- !app_assoc. }
  split; [exact Hperm|]. split; [exact Hdisj|]. split; [exact Hdocs|].
  split; [exact Hedges|].
  intros Hwf. apply Forall_forall. intros e He ref Href.
  assert (Hk : In ref (JsMap.keys (locByRange x))).
  { apply (wf_references x Hwf def refs ref Hin).
    apply (Permutation_in _ Hperm). apply in_flat_map. eauto. }
  rewrite Forall_forall in Hedges.
  destruct (Hedges e He) as (uri & rs & -> & _ & Hrs).
  cbn [inVs_of document_of] in *.
  rewrite Forall_forall in Hrs. destruct (Hrs ref Href) as (fp & Hfp & Hu).
  destruct (get_of_key ref _ Hk) as [loc Hloc].
  exists loc. split; [exact Hloc|].
  destruct (wf_uri x Hwf ref loc (get_in _ _ _ Hloc)) as (fp' & Hfp' & Hu').
  congruence.
Qed.

End ReferenceItemsOfRun.

(** [reference_items_partition_references] at a concrete input. *)
Lemma reference_items_partition_references_witness :
  Permutation
    (flat_map inVs_of
       (filter is_references_item
          (group_items sample_index ("b.ml:0:0", ["b.ml:0:0"; "a.ml:2:4"]))))
    ["b.ml:0:0"; "a.ml:2:4"].
Proof.
  apply (reference_items_partition_references no_files sample_index
           "b.ml:0:0" ["b.ml:0:0"; "a.ml:2:4"]).
  - exists tt. vm_compute. reflexivity.
  - simpl. tauto.
  - repeat constructor; simpl; intuition discriminate.
Defined.

(** C7, against the claim: with the input files [lib:a.ml] and [liba.ml],
    the three ranges that refer to the definition in [lib:a.ml] are listed
    by one item edge, tagged with the document [liba.ml], although two of
    them are ranges of [lib:a.ml], as the containment edges of the same
    stream say: the edges do not partition the ranges by their document. *)
Theorem colon_path_merges_reference_items :
  let run := writeLSIF no_files "proj/*.lsif.in" "proj" colon_references in
  succeeds run
  /\ filter is_references_item (emitted run)
     = [item
          "item:textDocument/references:references:lib:a.ml:0:0:liba.ml"
          "reference:lib:a.ml:0:0"
          ["lib:a.ml:0:0"; "lib:a.ml:3:0"; "liba.ml:5:0"]
          (Some references) "document:liba.ml"]
  /\ In (contains "contains:lib:a.ml" "document:lib:a.ml"
           ["lib:a.ml:0:0"; "lib:a.ml:3:0"]) (emitted run)
  /\ In (contains "contains:liba.ml" "document:liba.ml" ["liba.ml:5:0"])
        (emitted run).
Proof.
  cbv zeta. split; [exists tt; vm_compute; reflexivity|].
  split; [vm_compute; reflexivity|].
  split; vm_compute; tauto.
Qed.

(** ** Runs of [writeLSIF] *)

Section Runs.

Variable fs : string -> option string.

Lemma writeLSIF_eq (inFileGlob root : string)
    (inFiles : list (string * list Input.Line)) (x : Index) :
  correlate inFileGlob root inFiles = Ok x ->
  writeLSIF fs inFileGlob root inFiles = ffff fs x.
Proof.
  intros H. unfold writeLSIF, lift. rewrite H, bind_pair_ok.
  cbn [app]. symmetry. apply emitter_eta.
Qed.

(** Once the glob has matched, [writeLSIF] ends normally. *)
Lemma writeLSIF_succeeds (inFileGlob root : string)
    (inFiles : list (string * list Input.Line)) :
  inFiles <> [] -> succeeds (writeLSIF fs inFileGlob root inFiles).
Proof.
  intros Hne.
  destruct (correlate_spec inFileGlob root inFiles Hne) as (x & Hx & Hwf & _).
  rewrite (writeLSIF_eq _ _ _ x Hx). now apply well_formed_run_succeeds.
Qed.

(** When no file name has a colon, each range has one vertex and every
    range that an edge names was emitted before as a vertex: what C6
    claims holds on these inputs. *)
Lemma writeLSIF_colon_free_is_closed (inFileGlob root : string)
    (inFiles : list (string * list Input.Line)) :
  inFiles <> [] -> colon_free_input inFiles ->
  NoDup (range_ids (emitted (writeLSIF fs inFileGlob root inFiles)))
  /\ closed (emitted (writeLSIF fs inFileGlob root inFiles)) = true.
Proof.
  intros Hne Hcf.
  destruct (correlate_spec inFileGlob root inFiles Hne)
    as (x & Hx & Hwf & _ & _ & Hids).
  rewrite (writeLSIF_eq _ _ _ x Hx).
  destruct (well_formed_run_is_closed fs x Hwf (Hids Hcf))
    as (_ & _ & Hnd & Hclosed).
  now split.
Qed.

(** A run that ends normally with a definition among its own references
    does not have unique ids. *)
Lemma definition_site_repeats_id (x : Index) (def : string) (refs : JsSet.t) :
  succeeds (ffff fs x) -> In (def, refs) (refsByDef x) -> In def refs ->
  ~ unique_ids (emitted (ffff fs x)).
Proof.
  intros Hok Hin Hself Hu.
  destruct (next_edges_in_stream fs x def refs Hok Hin)
    as (before & mid & after & E).
  apply (unique_ids_count _ ("next:" ++ def)) in Hu.
  assert (2 <= count (has_id ("next:" ++ def)) (emitted (ffff fs x))).
  { rewrite E. apply count_two_positions.
    - apply String.eqb_refl.
    - apply in_map_iff. exists def. split; [reflexivity | exact Hself]. }
  lia.
Qed.

End Runs.

(* ================================================================== *)
(** * Further properties of the code *)

(** ** Identity keys *)

Section IdentityKeys.

Lemma join_split_sep (sep : ascii) (s : string) :
  Js.join (String sep "") (Js.split sep s) = s.
Proof.
  induction s as [|c s IH]; [reflexivity|].
  cbn [Js.split]. destruct (Ascii.eqb_spec c sep) as [->|Hc].
  - destruct (Js.split sep s) as [|x xs] eqn:E.
    + now apply split_not_nil in E.
    + change (Js.join (String sep "") ("" :: x :: xs))
        with ("" ++ String sep "" ++ Js.join (String sep "") (x :: xs)).
      rewrite IH. reflexivity.
  - destruct (Js.split sep s) as [|x xs] eqn:E.
    + now apply split_not_nil in E.
    + destruct xs as [|y ys].
      * cbn [Js.join] in *. now rewrite IH.
      * change (Js.join (String sep "") (String c x :: y :: ys))
          with (String c (Js.join (String sep "") (x :: y :: ys))).
        now rewrite IH.
Qed.

Lemma app_two_inj {B : Type} (l1 l2 : list B) (a1 b1 a2 b2 : B) :
  (l1 ++ [a1; b1])%list = (l2 ++ [a2; b2])%list ->
  l1 = l2 /\ a1 = a2 /\ b1 = b2.
Proof.
  change [a1; b1] with ([a1] ++ [b1])%list.
  change [a2; b2] with ([a2] ++ [b2])%list.
  rewrite !app_assoc. intros H.
  apply app_inj_tail in H as [H ->]. apply app_inj_tail in H as [-> ->].
  auto.
Qed.

Lemma split_of_parts (path : string) (l c : Js.number) :
  Js.split ":" (path ++ ":" ++ Js.toString l ++ ":" ++ Js.toString c)
  = (Js.split ":" path ++ [Js.toString l; Js.toString c])%list.
Proof.
  change (":" ++ Js.toString l ++ ":" ++ Js.toString c)
    with (String ":" (Js.toString l ++ String ":" (Js.toString c))).
  rewrite !split_app.
  rewrite (split_without_sep _ _ (toString_no_colon l)).
  rewrite (split_without_sep _ _ (toString_no_colon c)).
  reflexivity.
Qed.

(** The string of a path, a line and a column gives the three back, whatever
    the path. *)
Lemma parts_inj (p1 p2 : string) (l1 c1 l2 c2 : Js.number) :
  p1 ++ ":" ++ Js.toString l1 ++ ":" ++ Js.toString c1
  = p2 ++ ":" ++ Js.toString l2 ++ ":" ++ Js.toString c2 ->
  p1 = p2 /\ l1 = l2 /\ c1 = c2.
Proof.
  intros H. apply (f_equal (Js.split ":")) in H.
  rewrite !split_of_parts in H.
  apply app_two_inj in H as (Hp & Hl & Hc).
  apply (f_equal (Js.join ":")) in Hp. rewrite !join_split_sep in Hp.
  apply toString_inj in Hl. apply toString_inj in Hc. auto.
Qed.

(** X1: the identity key of a range, [stringifyLocation], tells apart any
    two ranges that differ by their document or by their start position,
    also when a document name has colons; it does not see the end
    position. *)
Theorem stringifyLocation_identifies_document_and_start
    (loc1 loc2 : Lsp.Location) :
  stringifyLocation loc1 = stringifyLocation loc2 <->
  Lsp.uri loc1 = Lsp.uri loc2
  /\ Lsp.start (Lsp.range loc1) = Lsp.start (Lsp.range loc2).
Proof.
  unfold stringifyLocation. split.
  - intros H. apply parts_inj in H as (Hu & Hl & Hc). split; [exact Hu|].
    destruct loc1 as [u1 [[l1 c1] e1]], loc2 as [u2 [[l2 c2] e2]].
    cbn in *. now subst.
  - intros [-> ->]. reflexivity.
Qed.

(** X2: [parseLocation] on the strings of a start in [file1] and an end in
    [file2] compares the two names without their colons: it returns, with
    the colon-less name as the document, when these are equal, and throws
    its same-file error when they differ. *)
Theorem parseLocation_compares_names_without_colons
    (file1 file2 : string) (s e : Pos_) :
  let start := file1 ++ ":" ++ stringifyPosition s in
  let end_ := file2 ++ ":" ++ stringifyPosition e in
  (Js.remove_char ":" file1 = Js.remove_char ":" file2 ->
   parseLocation start end_
   = Ok {| Lsp.uri := Js.remove_char ":" file1;
           Lsp.range := {| Lsp.start := lsp_position s;
                           Lsp.end_ := lsp_position e |} |})
  /\ (Js.remove_char ":" file1 <> Js.remove_char ":" file2 ->
      parseLocation start end_ = Throw (ExpectedSameFile start end_)).
Proof.
  cbv zeta. unfold parseLocation, lsp_position.
  rewrite !parseFilePosition_of_position. cbn [result_bind fp_uri position].
  split; intros H.
  - rewrite H, String.eqb_refl. cbn [negb]. now rewrite <- H.
  - apply String.eqb_neq in H. now rewrite H.
Qed.

(** [parseLocation_compares_names_without_colons] at a concrete input. *)
Lemma parseLocation_compares_names_without_colons_witness :
  parseLocation "lib:a.ml:3:0" "liba.ml:3:4"
  = Ok {| Lsp.uri := "liba.ml";
          Lsp.range := {| Lsp.start := at_ 3 0; Lsp.end_ := at_ 3 4 |} |}
  /\ parseLocation "a.ml:3:0" "b.ml:3:4"
     = Throw (ExpectedSameFile "a.ml:3:0" "b.ml:3:4").
Proof.
  split.
  - apply (proj1 (parseLocation_compares_names_without_colons
                    "lib:a.ml" "liba.ml"
                    (position_at 3 0) (position_at 3 4))).
    reflexivity.
  - apply (proj2 (parseLocation_compares_names_without_colons
                    "a.ml" "b.ml"
                    (position_at 3 0) (position_at 3 4))).
    discriminate.
Defined.

End IdentityKeys.

(** ** When the engine throws *)

Section EngineErrors.

Variable fs : string -> option string.

Lemma snd_bind_throw_inv {A B : Type} (m : Emitter A) (k : A -> Emitter B)
    (e : Error) :
  snd (bind m k) = Throw e ->
  snd m = Throw e \/ exists a, snd m = Ok a /\ snd (k a) = Throw e.
Proof.
  destruct m as [out [a|e']]; cbn.
  - destruct (k a) as [out' r] eqn:E. cbn. intros ->. right.
    exists a. now rewrite E.
  - intros [= ->]. now left.
Qed.

Lemma snd_for_of_throw_inv {A : Type} (xs : list A)
    (body : A -> Emitter unit) (e : Error) :
  snd (for_of xs body) = Throw e ->
  exists x, In x xs /\ snd (body x) = Throw e.
Proof.
  induction xs as [|x xs IH]; cbn [for_of]; [discriminate|].
  intros H. apply snd_bind_throw_inv in H as [H|(_ & _ & H)].
  - exists x. split; [now left | exact H].
  - destruct (IH H) as (y & Hy & He). exists y. split; [now right | exact He].
Qed.

Lemma groupBy_into_throw_inv {A : Type} (f : A -> result string)
    (xs : list A) (e : Error) :
  forall acc, Lodash.groupBy_into acc xs f = Throw e ->
              exists a, In a xs /\ f a = Throw e.
Proof.
  induction xs as [|x xs IH]; intros acc; cbn [Lodash.groupBy_into];
    [discriminate|].
  destruct (f x) as [k|e'] eqn:Hx; cbn [result_bind].
  - intros H. destruct (IH _ H) as (a & Ha & He).
    exists a. split; [now right | exact He].
  - intros [= ->]. exists x. split; [now left | exact Hx].
Qed.

Lemma groupBy_into_ok_inv {A : Type} (f : A -> result string)
    (xs : list A) :
  forall acc d, Lodash.groupBy_into acc xs f = Ok d ->
                Forall (fun a => exists k, f a = Ok k) xs.
Proof.
  induction xs as [|x xs IH]; intros acc d; cbn [Lodash.groupBy_into];
    [constructor|].
  destruct (f x) as [k|e'] eqn:Hx; cbn [result_bind]; [|discriminate].
  intros H. constructor; [eauto | eapply IH; exact H].
Qed.

Lemma uriOfRef_cases (ref : string) :
  (3 <= List.length (Js.split ":" ref) /\ exists uri, uriOfRef ref = Ok uri)
  \/ (List.length (Js.split ":" ref) < 3
      /\ uriOfRef ref = Throw (ExpectedPathLineColumn ref)).
Proof.
  unfold uriOfRef, parseFilePosition.
  destruct (Nat.ltb_spec (List.length (Js.split ":" ref)) 3) as [H|H].
  - right. split; [exact H | reflexivity].
  - left. split; [exact H|]. cbn [result_bind]. eauto.
Qed.

(** X3: the engine ends normally exactly when every definition has a
    registered location, every referencing range has three colon-delimited
    components at least, and every document has its set of ranges.  When it
    throws, the error names a definition without a location, a referencing
    range with fewer than three components, or a document without a set of
    ranges; the look-up in the loop over the ranges never fails. *)
Theorem ffff_ends_normally_iff (x : Index) :
  (succeeds (ffff fs x) <->
   (forall def refs,
      In (def, refs) (refsByDef x) ->
      JsMap.get def (locByRange x) <> None
      /\ forall ref, In ref refs -> 3 <= List.length (Js.split ":" ref))
   /\ (forall doc, In doc (docs x) ->
                   JsMap.get doc (rangesByDoc x) <> None))
  /\ (forall e,
        snd (ffff fs x) = Throw e ->
        (e = UnableToLookUpDef
         /\ exists def refs, In (def, refs) (refsByDef x)
                             /\ JsMap.get def (locByRange x) = None)
        \/ (exists def refs ref,
              In (def, refs) (refsByDef x) /\ In ref refs
              /\ List.length (Js.split ":" ref) < 3
              /\ e = ExpectedPathLineColumn ref)
        \/ (exists doc, In doc (docs x)
                        /\ JsMap.get doc (rangesByDoc x) = None
                        /\ e = RangesByDocMissing doc)).
Proof.
  split.
  - rewrite ffff_succeeds. rewrite !Forall_forall. split.
    + intros [Hg Hd]. split; [|exact Hd].
      intros def refs Hin. specialize (Hg _ Hin).
      apply group_succeeds_iff in Hg as [[loc Hloc] [groups Hgroups]].
      split; [congruence|]. intros ref Href.
      apply groupBy_into_ok_inv in Hgroups.
      rewrite Forall_forall in Hgroups.
      destruct (Hgroups ref Href) as [k Hk].
      destruct (uriOfRef_cases ref) as [[H _]|[_ H]]; [exact H | congruence].
    + intros [Hg Hd]. split; [|exact Hd].
      intros [def refs] Hin. destruct (Hg def refs Hin) as [Hloc Hrefs].
      apply group_succeeds_iff. split.
      * destruct (JsMap.get def (locByRange x)); [eauto | congruence].
      * apply groupBy_into_total, Forall_forall. intros ref Href.
        destruct (uriOfRef_cases ref) as [[_ H]|[H _]]; [exact H|].
        specialize (Hrefs ref Href). lia.
  - intros e. unfold ffff, JsSet.toArray.
    rewrite !(snd_bind_ok _ _ tt (emit_ok _)).
    rewrite docs_begin_eq, snd_bind_pair, emitRanges_eq, snd_bind_pair.
    rewrite emitDefsRefsHovers_eq. intros H.
    apply snd_bind_throw_inv in H as [H|(_ & _ & H)].
    + apply snd_for_of_throw_inv in H as ([def refs] & Hin & H).
      cbn [fst snd] in H. rewrite emitDefinitionGroup_eq in H.
      destruct (JsMap.get def (locByRange x)) as [loc|] eqn:Hloc.
      * right. left. cbn [snd] in H.
        destruct (Lodash.groupBy refs uriOfRef) as [groups|e'] eqn:Hgroups;
          [discriminate|]. injection H as ->.
        apply groupBy_into_throw_inv in Hgroups as (ref & Href & He).
        exists def, refs, ref.
        destruct (uriOfRef_cases ref) as [[_ [u Hu]]|[Hlen Hu]];
          [congruence|].
        rewrite Hu in He. injection He as <-. auto.
      * left. injection H as <-. eauto.
    + apply snd_bind_throw_inv in H as [H|(_ & _ & H)].
      * right. right. unfold emitDocsEnd, JsSet.toArray in H.
        apply snd_for_of_throw_inv in H as (doc & Hdoc & H).
        exists doc. destruct (JsMap.get doc (rangesByDoc x)) as [ranges|].
        -- rewrite !bind_emit in H. discriminate.
        -- injection H as <-. auto.
      * rewrite !bind_emit in H. discriminate.
Qed.

End EngineErrors.

(** ** The collections of [writeLSIF], again *)

Section CorrelationFacts.

Lemma correlate_unfold (inFileGlob root : string)
    (inFiles : list (string * list Input.Line)) :
  inFiles <> [] ->
  exists r,
    collect_ranges (Db.select_ranges (table_of inFiles)) empty_ranges = Ok r
    /\ correlate inFileGlob root inFiles
       = Ok {| root := root;
               inFileGlob := inFileGlob;
               docs := r_docs r;
               rangesByDoc := r_rangesByDoc r;
               refsByDef :=
                 fst (collect_links (Db.select_links (table_of inFiles))
                        (JsMap.empty, JsMap.empty));
               hoverByDef :=
                 snd (collect_links (Db.select_links (table_of inFiles))
                        (JsMap.empty, JsMap.empty));
               locByRange := r_locByRange r;
               importMonikerByRange := JsMap.empty;
               exportMonikerByRange := JsMap.empty |}.
Proof.
  intros Hne. unfold correlate. fold (table_of inFiles). fold empty_ranges.
  destruct inFiles as [|f fs] eqn:Hfiles; [congruence|]. rewrite <- Hfiles.
  destruct (collect_ranges_spec (Db.select_ranges (table_of inFiles))
              empty_ranges (select_ranges_good _ (table_well_formed inFiles)))
    as (r & Hr & _).
  exists r. split; [exact Hr|]. rewrite Hr. cbn [result_bind].
  now destruct (collect_links _ _).
Qed.

(** An invariant of the first loop is kept over the rows of the table. *)
Lemma collect_ranges_keeps (P : Ranges -> Prop)
    (table : list (string * string * string)) :
  (forall file s end_ loc acc,
     In (file, stringifyPosition s, end_) table ->
     Lsp.uri loc = Js.remove_char ":" file ->
     Lsp.start (Lsp.range loc) = lsp_position s ->
     P acc -> P (collect_range file (stringifyPosition s) loc acc)) ->
  forall rows,
    incl rows table -> Forall good_range_row rows ->
    forall acc r, P acc -> collect_ranges rows acc = Ok r -> P r.
Proof.
  intros Hstep. induction rows as [|[[file start] end_] rows IH];
    intros Hincl Hgood acc r Hacc.
  - cbn [collect_ranges]. now intros [= <-].
  - inversion Hgood as [|? ? Hrow Hrows]; subst.
    destruct (collect_ranges_step file start end_ rows acc Hrow)
      as (loc & _ & Huri & (s & -> & Hstart) & ->).
    apply IH; [intros a Ha; apply Hincl; now right | exact Hrows |].
    apply (Hstep file s end_); [apply Hincl; now left | assumption ..].
Qed.

Lemma add_cases (y : string) (s : JsSet.t) :
  In y s /\ JsSet.add y s = s
  \/ ~ In y s /\ JsSet.add y s = (s ++ [y])%list.
Proof.
  unfold JsSet.add, JsSet.has.
  destruct (existsb (String.eqb y) s) eqn:E.
  - left. split; [|reflexivity].
    apply existsb_exists in E as (z & Hz & Hyz).
    apply String.eqb_eq in Hyz. now subst.
  - right. split; [|reflexivity]. intros Hin.
    assert (existsb (String.eqb y) s = true); [|congruence].
    apply existsb_exists. exists y. split; [exact Hin | apply String.eqb_refl].
Qed.

Lemma collect_range_documents (file : string) (s : Pos_)
    (loc : Lsp.Location) (acc : Ranges) :
  documents_invariant acc ->
  documents_invariant (collect_range file (stringifyPosition s) loc acc).
Proof.
  intros [Hdocs Hkeys Hsets Howner Hcont].
  assert (Hold : forall old,
            JsMap.get file (r_rangesByDoc acc) = Some old ->
            In (file, old) (r_rangesByDoc acc)).
  { intros old. apply get_in. }
  constructor; cbn [collect_range r_docs r_rangesByDoc r_locByRange].
  - rewrite Hdocs.
    destruct (add_cases file (JsMap.keys (r_rangesByDoc acc)))
      as [[Hin ->]|[Hnin ->]];
      destruct (keys_set file
                  (JsSet.add (stringifyStringLocation file
                                (stringifyPosition s))
                     match JsMap.get file (r_rangesByDoc acc) with
                     | Some ranges => ranges
                     | None => JsSet.empty
                     end) (r_rangesByDoc acc)) as [[Hin' ->]|[Hnin' ->]];
      tauto.
  - now apply keys_set_NoDup.
  - intros doc ranges Hin. apply in_set in Hin as [[= -> ->]|Hin];
      [|eapply Hsets; eassumption].
    apply add_NoDup.
    destruct (JsMap.get file (r_rangesByDoc acc)) as [old|] eqn:Hget;
      [eapply Hsets, Hold; reflexivity | constructor].
  - intros doc ranges range Hin Hrange.
    apply in_set in Hin as [[= -> ->]|Hin];
      [|eapply Howner; eassumption].
    apply in_add in Hrange as [->|Hrange]; [exists s; reflexivity|].
    destruct (JsMap.get file (r_rangesByDoc acc)) as [old|] eqn:Hget;
      [|contradiction].
    eapply Howner; [apply Hold; reflexivity | exact Hrange].
  - intros range Hrange. apply in_keys_set in Hrange as [->|Hrange].
    + exists file. eexists. split.
      * apply get_in. apply get_set_same.
      * apply in_add. now left.
    + destruct (Hcont range Hrange) as (doc & ranges & Hin & Hr).
      destruct (String.eqb_spec doc file) as [->|Hne].
      * exists file. eexists. split; [apply get_in, get_set_same|].
        apply in_add. right.
        rewrite (get_unique file ranges _ Hkeys Hin). exact Hr.
      * exists doc, ranges. split; [|exact Hr].
        apply get_in. rewrite get_set_other by exact Hne.
        now apply get_unique.
Qed.

Lemma empty_documents_invariant : documents_invariant empty_ranges.
Proof.
  constructor; cbn; try constructor; try reflexivity; intros; contradiction.
Qed.

Lemma collect_ranges_documents (rows : list (string * string * string))
    (r : Ranges) :
  Forall good_range_row rows ->
  collect_ranges rows empty_ranges = Ok r ->
  documents_invariant r.
Proof.
  intros Hgood.
  apply (collect_ranges_keeps documents_invariant rows);
    [| apply incl_refl | exact Hgood | exact empty_documents_invariant].
  intros file s end_ loc acc _ _ _. apply collect_range_documents.
Qed.

End CorrelationFacts.

(** ** The second loop, again *)

Section LinkFacts.

Lemma in_select_links_iff (t : list Db.Row)
    (row : string * string * string * string * string) :
  In row (Db.select_links t) <->
  exists r, In r t
            /\ row = (Db.file r, Db.start r, Db.deffile r,
                      Db.defstart r, Db.type r).
Proof.
  split; [apply in_select_links|]. intros (r & Hr & ->).
  unfold Db.select_links, Db.distinct.
  destruct (distinct_from_complete Db.eqb5 eqb5_eq
              (map (fun r => (Db.file r, Db.start r, Db.deffile r,
                              Db.defstart r, Db.type r)) (Db.by_index t)) []
              (Db.file r, Db.start r, Db.deffile r, Db.defstart r,
               Db.type r)) as [H|[]]; [|exact H].
  apply in_map_iff. exists r. split; [reflexivity|]. now apply in_by_index.
Qed.

(** The second loop forgets no link, and links every row. *)
Lemma collect_links_covers
    (rows : list (string * string * string * string * string)) :
  forall acc,
    (forall def refs ref,
       JsMap.get def (fst acc) = Some refs -> In ref refs ->
       exists refs',
         JsMap.get def (fst (collect_links rows acc)) = Some refs'
         /\ In ref refs')
    /\ (forall file start deffile defstart type,
          In (file, start, deffile, defstart, type) rows ->
          exists refs',
            JsMap.get (stringifyStringLocation deffile defstart)
              (fst (collect_links rows acc)) = Some refs'
            /\ In (stringifyStringLocation file start) refs').
Proof.
  induction rows as [|[[[[file start] deffile] defstart] type] rows IH];
    intros [rbd hbd].
  - split; [eauto | intros; contradiction].
  - cbn [collect_links].
    match goal with
    | |- context [collect_links rows ?a] =>
        destruct (IH a) as [Hkeep Hrows]
    end.
    cbn [fst] in Hkeep.
    split.
    + intros def refs ref Hget Hin. cbn [fst] in Hget.
      destruct (String.eqb_spec def (stringifyStringLocation deffile defstart))
        as [->|Hne].
      * eapply Hkeep; [apply get_set_same|]. apply in_add. right.
        unfold JsSet.t in *. now rewrite Hget.
      * eapply Hkeep; [|exact Hin].
        rewrite get_set_other by exact Hne. exact Hget.
    + intros f s df ds t [[= <- <- <- <- <-]|Hin]; [|eauto].
      eapply Hkeep; [apply get_set_same|]. apply in_add. now left.
Qed.

(** Every link that the second loop holds was there before or comes from
    a row. *)
Lemma collect_links_origin (K : string -> string -> Prop)
    (rows : list (string * string * string * string * string)) :
  forall acc,
    (forall file start deffile defstart type,
       In (file, start, deffile, defstart, type) rows ->
       K (stringifyStringLocation deffile defstart)
         (stringifyStringLocation file start)) ->
    (forall def refs ref,
       In (def, refs) (fst acc) -> In ref refs -> K def ref) ->
    forall def refs ref,
      In (def, refs) (fst (collect_links rows acc)) -> In ref refs ->
      K def ref.
Proof.
  induction rows as [|[[[[file start] deffile] defstart] type] rows IH];
    intros [rbd hbd] Hrows Hacc; [exact Hacc|].
  cbn [collect_links]. apply IH.
  - intros; eapply Hrows; right; eassumption.
  - cbn [fst] in *. intros def refs ref Hin Href.
    apply in_set in Hin as [[= -> ->]|Hin]; [|eapply Hacc; eassumption].
    apply in_add in Href as [->|Href];
      [apply (Hrows _ _ _ _ type); now left|].
    unfold JsSet.t in *.
    destruct (JsMap.get (stringifyStringLocation deffile defstart) rbd)
      as [old|] eqn:Hget; [|contradiction].
    eapply Hacc; [apply get_in; exact Hget | exact Href].
Qed.

(** Every group of the second loop has a hover text, which is the type of
    a row of that definition. *)
Lemma collect_links_hover (P : string -> string -> Prop)
    (rows : list (string * string * string * string * string)) :
  forall acc,
    (forall file start deffile defstart type,
       In (file, start, deffile, defstart, type) rows ->
       P (stringifyStringLocation deffile defstart) type) ->
    (forall def, In def (JsMap.keys (fst acc)) ->
                 exists h, JsMap.get def (snd acc) = Some h /\ P def h) ->
    forall def,
      In def (JsMap.keys (fst (collect_links rows acc))) ->
      exists h,
        JsMap.get def (snd (collect_links rows acc)) = Some h /\ P def h.
Proof.
  induction rows as [|[[[[file start] deffile] defstart] type] rows IH];
    intros [rbd hbd] Hrows Hacc; [exact Hacc|].
  cbn [collect_links]. apply IH.
  - intros; eapply Hrows; right; eassumption.
  - cbn [fst snd] in *. intros def Hdef.
    destruct (String.eqb_spec def (stringifyStringLocation deffile defstart))
      as [->|Hne].
    + rewrite get_set_same. eexists. split; [reflexivity|].
      apply (Hrows file start). now left.
    + rewrite get_set_other by exact Hne. apply Hacc.
      apply in_keys_set in Hdef as [Hdef|Hdef]; [contradiction | exact Hdef].
Qed.

Lemma rows_of_file_without_dropped (sourceFile : string)
    (lines : list Input.Line) :
  rows_of_file sourceFile
    (filter (fun l => negb (startsWith_slash (Input.definition_file l)))
       lines)
  = rows_of_file sourceFile lines.
Proof.
  unfold rows_of_file. f_equal.
  induction lines as [|l lines IH]; [reflexivity|].
  cbn [filter map].
  destruct (startsWith_slash (Input.definition_file l)) eqn:E;
    cbn [negb map filter Input.definition_file].
  - destruct (String.eqb_spec (Input.definition_file l) "*buffer*")
      as [Hb|_]; [rewrite Hb in E; discriminate|].
    rewrite E. cbn [negb]. exact IH.
  - rewrite IH. reflexivity.
Qed.

Lemma rows_of_file_all_dropped (sourceFile : string)
    (lines : list Input.Line) :
  Forall dropped_line lines -> rows_of_file sourceFile lines = [].
Proof.
  intros H. rewrite <- rows_of_file_without_dropped.
  replace (filter _ lines) with (@nil Input.Line); [reflexivity|].
  induction H as [|l lines Hl _ IH]; [reflexivity|].
  cbn [filter]. unfold dropped_line in Hl. now rewrite Hl.
Qed.

Lemma table_all_dropped (inFiles : list (string * list Input.Line)) :
  Forall (fun f => Forall dropped_line (snd f)) inFiles ->
  table_of inFiles = [].
Proof.
  unfold table_of. intros H.
  induction H as [|[sourceFile lines] inFiles Hf _ IH]; [reflexivity|].
  cbn [fold_left]. cbn [snd] in Hf.
  rewrite (rows_of_file_all_dropped _ _ Hf). exact IH.
Qed.

End LinkFacts.

(** ** Runs of [writeLSIF], again *)

Section RunFacts.

Local Infix "+++" := app (right associativity, at level 60).

Variable fs : string -> option string.

Lemma writeLSIF_run (inFileGlob root : string)
    (inFiles : list (string * list Input.Line)) :
  inFiles <> [] ->
  exists r,
    collect_ranges (Db.select_ranges (table_of inFiles)) empty_ranges = Ok r
    /\ ranges_invariant r
    /\ documents_invariant r
    /\ well_formed_index (index_of_ranges inFileGlob root inFiles r)
    /\ writeLSIF fs inFileGlob root inFiles
       = ffff fs (index_of_ranges inFileGlob root inFiles r)
    /\ succeeds (ffff fs (index_of_ranges inFileGlob root inFiles r)).
Proof.
  intros Hne.
  destruct (correlate_unfold inFileGlob root inFiles Hne) as (r & Hr & Hx).
  fold (index_of_ranges inFileGlob root inFiles r) in Hx.
  destruct (correlate_spec inFileGlob root inFiles Hne) as (x & Hx' & Hwf & _).
  rewrite Hx in Hx'. injection Hx' as <-.
  pose proof (select_ranges_good _ (table_well_formed inFiles)) as Hgood.
  destruct (collect_ranges_spec (Db.select_ranges (table_of inFiles))
              empty_ranges Hgood) as (r' & Hr' & Hinv & _).
  rewrite Hr in Hr'. injection Hr' as <-.
  exists r. split; [exact Hr|].
  split; [exact (Hinv empty_ranges_invariant)|].
  split; [exact (collect_ranges_documents _ _ Hgood Hr)|].
  split; [exact Hwf|].
  split; [exact (writeLSIF_eq fs _ _ _ _ Hx)|].
  now apply well_formed_run_succeeds.
Qed.

(** The items of a group when no moniker is known. *)
Lemma plain_group_items (x : Index) (def : string) (refs : JsSet.t)
    (defLoc : Lsp.Location) :
  importMonikerByRange x = [] -> exportMonikerByRange x = [] ->
  JsMap.get def (locByRange x) = Some defLoc ->
  group_items x (def, refs)
  = [ResultSet ("resultSet:" ++ def);
     next ("next:" ++ def) def ("resultSet:" ++ def);
     DefinitionResult ("definition:" ++ def);
     textDocument_definition ("textDocument/definition:" ++ def)
       ("resultSet:" ++ def) ("definition:" ++ def);
     item ("item:textDocument/definition:" ++ def)
       ("definition:" ++ def) [def] None ("document:" ++ Lsp.uri defLoc)]
    +++ emitted (emitHover def (JsMap.get def (hoverByDef x)))
    +++ [ReferenceResult ("reference:" ++ def);
         textDocument_references ("textDocument/references:" ++ def)
           ("resultSet:" ++ def) ("reference:" ++ def);
         item ("item:textDocument/references:definitions:" ++ def)
           ("reference:" ++ def) [def] (Some definitions)
           ("document:" ++ Lsp.uri defLoc)]
    +++ map (nextOfRef def) refs
    +++ match Lodash.groupBy refs uriOfRef with
        | Ok groups => map (referencesItem def) (Lodash.toPairs groups)
        | Throw _ => []
        end.
Proof.
  intros Himp Hexp Hloc. unfold group_items. cbn [fst snd].
  rewrite emitDefinitionGroup_eq, Hloc, Himp, Hexp. cbn [emitted fst].
  unfold group_head. cbn [JsMap.get emitImportOrDefinition
    emitDefinitionsItem emitExport].
  destruct (Lodash.groupBy refs uriOfRef) as [groups|e];
    cbn; rewrite ?app_nil_r, <- ?app_assoc; reflexivity.
Qed.

Lemma hover_items (def : string) (h : option string) (i : Item) :
  In i (emitted (emitHover def h)) ->
  exists t, h = Some t /\ t <> ""
            /\ (i = HoverResult ("hover:" ++ def) t
                \/ i = textDocument_hover ("textDocument/hover:" ++ def)
                         ("resultSet:" ++ def) ("hover:" ++ def)).
Proof.
  unfold emitHover. destruct h as [[|c t]|]; cbn; try contradiction.
  intros [<-|[<-|[]]]; eexists; (split; [reflexivity|]);
    (split; [discriminate|]); auto.
Qed.

Lemma run_items (x : Index) (i : Item) :
  succeeds (ffff fs x) ->
  In i (emitted (ffff fs x)) <->
  In i (stream_head x)
  \/ (exists doc, In doc (docs x) /\ In i (document_begin_items doc))
  \/ In i (range_items (locByRange x))
  \/ (exists entry, In entry (refsByDef x) /\ In i (group_items x entry))
  \/ (exists doc, In doc (docs x)
                  /\ In i (document_end_items (rangesByDoc x) doc))
  \/ In i (stream_tail x).
Proof.
  intros H. rewrite (ffff_eq fs x H). cbn [emitted fst].
  rewrite !in_app_iff, !in_flat_map. reflexivity.
Qed.

Lemma collect_links_inhabited
    (rows : list (string * string * string * string * string)) :
  forall acc,
    (forall def refs, In (def, refs) (fst acc) -> exists ref, In ref refs) ->
    forall def refs,
      In (def, refs) (fst (collect_links rows acc)) ->
      exists ref, In ref refs.
Proof.
  induction rows as [|[[[[file start] deffile] defstart] type] rows IH];
    intros [rbd hbd] Hacc; [exact Hacc|].
  cbn [collect_links]. apply IH. cbn [fst] in *. intros def refs Hin.
  apply in_set in Hin as [[= -> ->]|Hin]; [|eapply Hacc; eassumption].
  eexists. apply in_add. left. reflexivity.
Qed.

(** The groups of a run and the rows of the table. *)
Lemma run_links (inFileGlob root : string)
    (inFiles : list (string * list Input.Line)) (r : Ranges) :
  let x := index_of_ranges inFileGlob root inFiles r in
  (forall def refs,
     In (def, refs) (refsByDef x) ->
     (exists row, In row (table_of inFiles) /\ def = def_key row)
     /\ forall ref, In ref refs ->
          exists row, In row (table_of inFiles)
                      /\ def = def_key row /\ ref = range_key row)
  /\ (forall row,
        In row (table_of inFiles) ->
        exists refs, JsMap.get (def_key row) (refsByDef x) = Some refs
                     /\ In (range_key row) refs).
Proof.
  cbn [index_of_ranges refsByDef]. split.
  - intros def refs Hin.
    assert (Horigin : forall ref, In ref refs ->
              exists row, In row (table_of inFiles)
                          /\ def = def_key row /\ ref = range_key row).
    { intros ref Href.
      apply (collect_links_origin
               (fun d rf => exists row, In row (table_of inFiles)
                                        /\ d = def_key row
                                        /\ rf = range_key row)
               (Db.select_links (table_of inFiles))
               (JsMap.empty, JsMap.empty)) with (refs := refs);
        [| intros ? ? ? [] | exact Hin | exact Href].
      intros file start deffile defstart type Hrow.
      apply in_select_links_iff in Hrow as (row & Hrow & [= -> -> -> -> ->]).
      exists row. auto. }
    split; [|exact Horigin].
    destruct (collect_links_inhabited _ (JsMap.empty, JsMap.empty)
                (fun _ _ (H : In _ []) => match H with end) def refs Hin)
      as [ref Href].
    destruct (Horigin ref Href) as (row & Hrow & Hdef & _). eauto.
  - intros row Hrow.
    destruct (collect_links_covers (Db.select_links (table_of inFiles))
                (JsMap.empty, JsMap.empty)) as [_ Hcov].
    apply (Hcov (Db.file row) (Db.start row) (Db.deffile row)
             (Db.defstart row) (Db.type row)).
    apply in_select_links_iff. eauto.
Qed.

Lemma in_table_not_nil (inFiles : list (string * list Input.Line))
    (row : Db.Row) :
  In row (table_of inFiles) -> inFiles <> [].
Proof. intros H ->. exact H. Qed.

(** X4: [writeLSIF] ends normally exactly when the glob matched a file
    (for input files whose lines are records with integer positions and a
    definition file); when the glob matched nothing it throws "glob ...
    did not match any files" and has emitted nothing. *)
Theorem writeLSIF_ends_normally_iff_glob_matched (inFileGlob root : string)
    (inFiles : list (string * list Input.Line)) :
  (succeeds (writeLSIF fs inFileGlob root inFiles) <-> inFiles <> [])
  /\ writeLSIF fs inFileGlob root []
     = ([], Throw (GlobDidNotMatch inFileGlob)).
Proof.
  split; [|reflexivity]. split.
  - intros [a Ha] ->. discriminate Ha.
  - apply writeLSIF_succeeds.
Qed.

(** X5: the next edges that [writeLSIF] emits are exactly the links of
    the table [lines]: for each row, an edge from its range to the result
    set of its definition, and an edge from the definition range to that
    result set; the id of each is "next:" and its source. *)
Theorem next_edges_are_the_links_of_the_table (inFileGlob root : string)
    (inFiles : list (string * list Input.Line)) (id outV inV : Id) :
  In (next id outV inV) (emitted (writeLSIF fs inFileGlob root inFiles)) <->
  exists row,
    In row (table_of inFiles)
    /\ inV = "resultSet:" ++ def_key row
    /\ (outV = range_key row \/ outV = def_key row)
    /\ id = "next:" ++ outV.
Proof.
  destruct inFiles as [|f rest] eqn:E.
  { cbn. split; [intros [] | intros (row & [] & _)]. }
  rewrite <- E. assert (Hne : inFiles <> []) by (rewrite E; discriminate).
  clear E.
  destruct (writeLSIF_run inFileGlob root inFiles Hne)
    as (r & Hr & Hinv & Hdoc & Hwf & -> & Hok).
  destruct (run_links inFileGlob root inFiles r) as [Horigin Hcover].
  set (x := index_of_ranges inFileGlob root inFiles r) in *.
  rewrite (run_items x _ Hok). split.
  - intros [H|[(doc & _ & H)|[H|[([def refs] & Hin & H)|[(doc & _ & H)|H]]]]].
    + cbn in H. destruct H as [H|[H|[H|[]]]]; discriminate.
    + cbn in H. destruct H as [H|[H|[]]]; discriminate.
    + unfold range_items in H. apply in_flat_map in H as (k & _ & H).
      destruct (JsMap.get k _); [|contradiction].
      destruct H as [H|[]]; discriminate.
    + destruct (get_of_key def (locByRange x) (wf_defs x Hwf def refs Hin))
        as [defLoc Hloc].
      rewrite (plain_group_items x def refs defLoc eq_refl eq_refl Hloc) in H.
      destruct (Horigin def refs Hin) as [(row & Hrow & Hdef) Hrefs].
      rewrite !in_app_iff in H. destruct H as [H|[H|[H|[H|H]]]].
      * cbn [In] in H.
        destruct H as [H|[H|[H|[H|[H|[]]]]]]; try discriminate.
        injection H as <- <- <-. exists row. subst def. auto.
      * apply hover_items in H as (t & _ & _ & [H|H]); discriminate.
      * cbn [In] in H. destruct H as [H|[H|[H|[]]]]; discriminate.
      * apply in_map_iff in H as (ref & H & Href). unfold nextOfRef in H.
        injection H as <- <- <-.
        destruct (Hrefs ref Href) as (row' & Hrow' & -> & ->).
        exists row'. auto.
      * destruct (Lodash.groupBy refs uriOfRef); [|contradiction].
        apply in_map_iff in H as ([uri rs] & H & _). discriminate.
    + unfold document_end_items in H.
      destruct (JsMap.get doc _); [|contradiction].
      destruct H as [H|[H|[]]]; discriminate.
    + cbn in H. destruct H as [H|[H|[]]]; discriminate.
  - intros (row & Hrow & -> & Hout & ->). right. right. right. left.
    destruct (Hcover row Hrow) as (refs & Hget & Hin).
    apply get_in in Hget. exists (def_key row, refs). split; [exact Hget|].
    destruct (get_of_key _ (locByRange x) (wf_defs x Hwf _ refs Hget))
      as [defLoc Hloc].
    rewrite (plain_group_items x _ refs defLoc eq_refl eq_refl Hloc).
    destruct Hout as [-> | ->].
    + rewrite !in_app_iff. right. right. right. left.
      apply in_map_iff. exists (range_key row). auto.
    + right. left. reflexivity.
Qed.

Lemma length_substring_le (n : nat) (s : string) :
  String.length (substring 0 n s) <= n.
Proof.
  revert s. induction n as [|n IH]; intros [|c s]; cbn; try lia.
  specialize (IH s). lia.
Qed.

Lemma rows_of_file_types (sourceFile : string) (lines : list Input.Line) :
  Forall (fun row => Db.type row <> "" /\ String.length (Db.type row) <= 200)
    (rows_of_file sourceFile lines).
Proof.
  unfold rows_of_file. apply Forall_forall. intros row Hrow.
  apply in_map_iff in Hrow as (l & <- & _). cbn [Db.type].
  split; [|apply length_substring_le].
  destruct (Input.type l) as [[|c t]|]; cbn; discriminate.
Qed.

(** X6: [writeLSIF] emits a hover result, with its edge from the result
    set, for the definition of every row of the table; its text is the
    type of a row of that definition, is not empty, and has at most 200
    characters. *)
Theorem every_definition_has_a_hover_text (inFileGlob root : string)
    (inFiles : list (string * list Input.Line)) (row : Db.Row) :
  In row (table_of inFiles) ->
  exists t,
    In (HoverResult ("hover:" ++ def_key row) t)
      (emitted (writeLSIF fs inFileGlob root inFiles))
    /\ In (textDocument_hover ("textDocument/hover:" ++ def_key row)
             ("resultSet:" ++ def_key row) ("hover:" ++ def_key row))
         (emitted (writeLSIF fs inFileGlob root inFiles))
    /\ t <> "" /\ String.length t <= 200
    /\ exists row', In row' (table_of inFiles)
                    /\ def_key row' = def_key row /\ Db.type row' = t.
Proof.
  intros Hrow. pose proof (in_table_not_nil _ _ Hrow) as Hne.
  destruct (writeLSIF_run inFileGlob root inFiles Hne)
    as (r & Hr & Hinv & Hdoc & Hwf & -> & Hok).
  destruct (run_links inFileGlob root inFiles r) as [_ Hcover].
  destruct (Hcover row Hrow) as (refs & Hget & _). apply get_in in Hget.
  assert (Htypes : Forall (fun row => Db.type row <> ""
                                      /\ String.length (Db.type row) <= 200)
                     (table_of inFiles)).
  { apply table_of_Forall, Forall_forall. intros f _.
    apply rows_of_file_types. }
  rewrite Forall_forall in Htypes.
  set (x := index_of_ranges inFileGlob root inFiles r) in *.
  destruct (collect_links_hover
              (fun d h => exists row', In row' (table_of inFiles)
                                       /\ def_key row' = d
                                       /\ Db.type row' = h)
              (Db.select_links (table_of inFiles))
              (JsMap.empty, JsMap.empty)) with (def := def_key row)
    as (t & Ht & row' & Hrow' & Hdef & Htype).
  { intros file start deffile defstart type H.
    apply in_select_links_iff in H as (row' & Hrow' & [= -> -> -> -> ->]).
    exists row'. auto. }
  { intros ? []. }
  { apply in_map_iff. exists (def_key row, refs). split; [reflexivity|].
    exact Hget. }
  destruct (Htypes row' Hrow') as [Hne' Hlen]. rewrite Htype in Hne', Hlen.
  destruct (get_of_key _ (locByRange x) (wf_defs x Hwf _ refs Hget))
    as [defLoc Hloc].
  assert (Hhover : emitted (emitHover (def_key row)
                              (JsMap.get (def_key row) (hoverByDef x)))
                   = [HoverResult ("hover:" ++ def_key row) t;
                      textDocument_hover
                        ("textDocument/hover:" ++ def_key row)
                        ("resultSet:" ++ def_key row)
                        ("hover:" ++ def_key row)]).
  { subst x. cbn [index_of_ranges hoverByDef]. rewrite Ht.
    unfold emitHover. destruct t; [contradiction | reflexivity]. }
  assert (Hin : forall i,
            In i (emitted (emitHover (def_key row)
                             (JsMap.get (def_key row) (hoverByDef x)))) ->
            In i (emitted (ffff fs x))).
  { intros i Hi. apply (run_items x i Hok). right. right. right. left.
    exists (def_key row, refs). split; [exact Hget|].
    rewrite (plain_group_items x _ refs defLoc eq_refl eq_refl Hloc).
    rewrite !in_app_iff. auto. }
  rewrite Hhover in Hin. exists t.
  split; [apply Hin; now left|].
  split; [apply Hin; right; now left|].
  split; [exact Hne'|]. split; [exact Hlen|]. eauto.
Qed.

(** X7: [writeLSIF] emits no moniker, no package information, and no
    edge to one: it never fills the two maps of monikers that it hands to
    [ffff]. *)
Theorem writeLSIF_emits_no_moniker (inFileGlob root : string)
    (inFiles : list (string * list Input.Line)) :
  Forall (fun i => is_moniker_item i = false)
    (emitted (writeLSIF fs inFileGlob root inFiles)).
Proof.
  destruct inFiles as [|f rest] eqn:E; [constructor|].
  rewrite <- E. assert (Hne : inFiles <> []) by (rewrite E; discriminate).
  clear E.
  destruct (writeLSIF_run inFileGlob root inFiles Hne)
    as (r & Hr & Hinv & Hdoc & Hwf & -> & Hok).
  set (x := index_of_ranges inFileGlob root inFiles r) in *.
  apply Forall_forall. intros i Hi. apply (run_items x i Hok) in Hi.
  destruct Hi
    as [H|[(doc & _ & H)|[H|[([def refs] & Hin & H)|[(doc & _ & H)|H]]]]].
  - cbn in H. destruct H as [<-|[<-|[<-|[]]]]; reflexivity.
  - cbn in H. destruct H as [<-|[<-|[]]]; reflexivity.
  - unfold range_items in H. apply in_flat_map in H as (k & _ & H).
    destruct (JsMap.get k _); [|contradiction].
    destruct H as [<-|[]]. reflexivity.
  - destruct (get_of_key def (locByRange x) (wf_defs x Hwf def refs Hin))
      as [defLoc Hloc].
    rewrite (plain_group_items x def refs defLoc eq_refl eq_refl Hloc) in H.
    rewrite !in_app_iff in H. destruct H as [H|[H|[H|[H|H]]]].
    + cbn [In] in H.
      destruct H as [<-|[<-|[<-|[<-|[<-|[]]]]]]; reflexivity.
    + apply hover_items in H as (t & _ & _ & [-> | ->]); reflexivity.
    + cbn [In] in H. destruct H as [<-|[<-|[<-|[]]]]; reflexivity.
    + apply in_map_iff in H as (ref & <- & _). reflexivity.
    + destruct (Lodash.groupBy refs uriOfRef); [|contradiction].
      apply in_map_iff in H as ([uri rs] & <- & _). reflexivity.
  - unfold document_end_items in H.
    destruct (JsMap.get doc _); [|contradiction].
    destruct H as [<-|[<-|[]]]; reflexivity.
  - cbn in H. destruct H as [<-|[<-|[]]]; reflexivity.
Qed.

(** X8: the lines whose definition is in a file with an absolute path
    have no effect on a run: two inputs with the same files, whose lines
    are the same once those lines are left out, give the same items and
    the same outcome.  (Both inputs are files that parse; a file emptied
    of all its lines is not one.) *)
Theorem absolute_definitions_have_no_effect (inFileGlob root : string)
    (inFiles inFiles' : list (string * list Input.Line)) :
  same_kept_lines inFiles inFiles' ->
  writeLSIF fs inFileGlob root inFiles
  = writeLSIF fs inFileGlob root inFiles'.
Proof.
  intros Hsame.
  assert (Htable : forall t,
            fold_left (fun t '(sourceFile, lines) =>
                         Db.insertMany t (rows_of_file sourceFile lines))
              inFiles t
            = fold_left (fun t '(sourceFile, lines) =>
                           Db.insertMany t (rows_of_file sourceFile lines))
                inFiles' t).
  { induction Hsame as [|[sf lines] [sf' lines'] a b [Hsf Hlines] _ IH];
      intros t; [reflexivity|].
    cbn [fst snd] in Hsf, Hlines. subst sf'. cbn [fold_left].
    rewrite <- (rows_of_file_without_dropped sf lines), Hlines.
    rewrite rows_of_file_without_dropped. apply IH. }
  unfold writeLSIF, correlate. rewrite Htable.
  now destruct Hsame.
Qed.

(** X9: when the glob matched and every line has its definition in a
    file with an absolute path, the run emits the five items of an empty
    project and nothing else: no document, no range. *)
Theorem only_absolute_definitions_give_the_empty_project
    (inFileGlob root : string) (inFiles : list (string * list Input.Line)) :
  inFiles <> [] ->
  Forall (fun f => Forall dropped_line (snd f)) inFiles ->
  writeLSIF fs inFileGlob root inFiles
  = ([makeMeta root inFileGlob; makeProject; makeProjectBegin;
      contains "projectContains" "project" []; makeProjectEnd],
     Ok tt).
Proof.
  intros Hne Hall. unfold writeLSIF, correlate. fold (table_of inFiles).
  rewrite (table_all_dropped _ Hall).
  destruct inFiles; [congruence | reflexivity].
Qed.

End RunFacts.

Lemma every_definition_has_a_hover_text_witness :
  exists t,
    In (HoverResult "hover:a.ml:0:0" t)
      (emitted (writeLSIF no_files "proj/*.lsif.in" "proj" self_definition))
    /\ t <> "" /\ String.length t <= 200.
Proof.
  destruct (every_definition_has_a_hover_text no_files "proj/*.lsif.in"
              "proj" self_definition
              {| Db.file := "a.ml"; Db.start := "0:0"; Db.end_ := "0:1";
                 Db.deffile := "a.ml"; Db.defstart := "0:0";
                 Db.type := "int" |})
    as (t & Hin & _ & Hne & Hlen & _).
  - vm_compute. left. reflexivity.
  - exists t. split; [exact Hin|]. split; assumption.
Defined.

Lemma absolute_definitions_have_no_effect_witness :
  writeLSIF no_files "proj/*.lsif.in" "proj" mixed_definitions
  = writeLSIF no_files "proj/*.lsif.in" "proj" self_definition.
Proof.
  apply (absolute_definitions_have_no_effect no_files "proj/*.lsif.in"
           "proj" mixed_definitions self_definition).
  repeat constructor.
Defined.

Lemma only_absolute_definitions_give_the_empty_project_witness :
  List.length
    (emitted (writeLSIF no_files "proj/*.lsif.in" "proj"
                only_absolute_definitions)) = 5%nat.
Proof.
  rewrite (only_absolute_definitions_give_the_empty_project no_files
             "proj/*.lsif.in" "proj" only_absolute_definitions).
  - reflexivity.
  - discriminate.
  - repeat constructor.
Defined.

(** ** Documents and their ranges *)

Section Projections.

Local Infix "+++" := app (right associativity, at level 60).

Variable fs : string -> option string.

Lemma flat_map_flat_map {A B C : Type} (f : B -> list C) (g : A -> list B)
    (l : list A) :
  flat_map f (flat_map g l) = flat_map (fun a => flat_map f (g a)) l.
Proof.
  induction l as [|a l IH]; [reflexivity|].
  cbn [flat_map]. now rewrite flat_map_app, IH.
Qed.

Lemma flat_map_all_nil {A B : Type} (f : A -> list B) (l : list A) :
  (forall a, In a l -> f a = []) -> flat_map f l = [].
Proof.
  intros H. rewrite (flat_map_ext_in f (fun _ => []) l H).
  apply flat_map_nil.
Qed.

(** What a reading of the stream finds when the groups have nothing for
    it. *)
Lemma projection_of_run {C : Type} (f : Item -> list C) (x : Index)
    (g h : string -> list C) :
  succeeds (ffff fs x) ->
  (forall d, In d (docs x) -> flat_map f (document_begin_items d) = g d) ->
  (forall e, In e (refsByDef x) -> flat_map f (group_items x e) = []) ->
  (forall d, In d (docs x) ->
             flat_map f (document_end_items (rangesByDoc x) d) = h d) ->
  flat_map f (emitted (ffff fs x))
  = flat_map f (stream_head x)
    +++ flat_map g (docs x)
    +++ flat_map f (range_items (locByRange x))
    +++ flat_map h (docs x)
    +++ flat_map f (stream_tail x).
Proof.
  intros Hok Hg Hgroups Hh. rewrite (ffff_eq fs x Hok). cbn [emitted fst].
  rewrite !flat_map_app, !flat_map_flat_map.
  rewrite (flat_map_ext_in _ g (docs x) Hg).
  rewrite (flat_map_ext_in _ h (docs x) Hh).
  rewrite (flat_map_all_nil _ (refsByDef x) Hgroups).
  reflexivity.
Qed.

Lemma plain_group_item_shape (x : Index) (def : string) (refs : JsSet.t)
    (i : Item) :
  importMonikerByRange x = [] -> exportMonikerByRange x = [] ->
  In i (group_items x (def, refs)) -> is_group_item i = true.
Proof.
  intros Himp Hexp. unfold group_items. cbn [fst snd].
  rewrite emitDefinitionGroup_eq.
  destruct (JsMap.get def (locByRange x)) as [defLoc|] eqn:Hloc;
    [|intros []].
  intros H.
  assert (H' : In i (group_items x (def, refs))).
  { unfold group_items. cbn [fst snd].
    now rewrite emitDefinitionGroup_eq, Hloc. }
  clear H. rewrite (plain_group_items x def refs defLoc Himp Hexp Hloc) in H'.
  rewrite !in_app_iff in H'. destruct H' as [H|[H|[H|[H|H]]]].
  - cbn [In] in H. destruct H as [<-|[<-|[<-|[<-|[<-|[]]]]]]; reflexivity.
  - apply hover_items in H as (t & _ & _ & [-> | ->]); reflexivity.
  - cbn [In] in H. destruct H as [<-|[<-|[<-|[]]]]; reflexivity.
  - apply in_map_iff in H as (ref & <- & _). reflexivity.
  - destruct (Lodash.groupBy refs uriOfRef); [|contradiction].
    apply in_map_iff in H as ([uri rs] & <- & _). reflexivity.
Qed.

Lemma flat_map_get_keys {V C : Type} (f : V -> list C) (m : JsMap.t V) :
  NoDup (JsMap.keys m) ->
  flat_map (fun k => match JsMap.get k m with
                     | Some v => f v
                     | None => []
                     end) (JsMap.keys m)
  = flat_map (fun kv => f (snd kv)) m.
Proof.
  intros Hnd. unfold JsMap.keys.
  assert (H : forall l, incl l m ->
    flat_map (fun k => match JsMap.get k m with
                       | Some v => f v
                       | None => []
                       end) (map fst l)
    = flat_map (fun kv => f (snd kv)) l).
  { induction l as [|[k v] l IH]; intros Hincl; [reflexivity|].
    cbn [map flat_map fst snd].
    rewrite (get_unique k v m Hnd (Hincl _ (or_introl eq_refl))).
    f_equal. apply IH. intros a Ha. apply Hincl. now right. }
  apply H, incl_refl.
Qed.

Lemma owned_sets_NoDup (l : list (string * JsSet.t)) :
  NoDup (map fst l) ->
  (forall doc ranges, In (doc, ranges) l -> NoDup ranges) ->
  (forall doc ranges range,
     In (doc, ranges) l -> In range ranges ->
     exists pos, range = doc ++ ":" ++ stringifyPosition pos) ->
  NoDup (flat_map (fun kv => snd kv) l).
Proof.
  induction l as [|[doc ranges] l IH]; intros Hnd Hsets Hown; [constructor|].
  cbn [flat_map snd]. inversion Hnd as [|? ? Hnotin Hnd']; subst.
  apply NoDup_app.
  - eapply Hsets. now left.
  - apply IH; [exact Hnd' | |].
    + intros d rs Hin. eapply Hsets. right. exact Hin.
    + intros d rs rg Hin. eapply Hown. right. exact Hin.
  - intros a Ha Hb. apply in_flat_map in Hb as ([doc' ranges'] & Hin' & Ha').
    cbn [snd] in Ha'.
    destruct (Hown doc ranges a (or_introl eq_refl) Ha) as [pos Hpos].
    destruct (Hown doc' ranges' a (or_intror Hin') Ha') as [pos' Hpos'].
    rewrite Hpos in Hpos'. unfold stringifyPosition in Hpos'.
    apply parts_inj in Hpos' as [-> _].
    apply Hnotin. apply in_map_iff. exists (doc', ranges'). auto.
Qed.

Lemma run_ids_are_keys (inFileGlob root : string)
    (inFiles : list (string * list Input.Line)) (r : Ranges) :
  inFiles <> [] -> colon_free_input inFiles ->
  collect_ranges (Db.select_ranges (table_of inFiles)) empty_ranges = Ok r ->
  ids_are_keys (r_locByRange r).
Proof.
  intros Hne Hcf Hr.
  destruct (correlate_unfold inFileGlob root inFiles Hne) as (r' & Hr' & Hx).
  rewrite Hr in Hr'. injection Hr' as <-.
  destruct (correlate_spec inFileGlob root inFiles Hne)
    as (x & Hx' & _ & _ & _ & Hids).
  rewrite Hx in Hx'. injection Hx' as <-. exact (Hids Hcf).
Qed.

(** The rows that the first loop reads. *)
Lemma collect_ranges_origin (rows : list (string * string * string))
    (r : Ranges) :
  Forall good_range_row rows ->
  collect_ranges rows empty_ranges = Ok r ->
  (forall doc, In doc (r_docs r) -> exists s e, In (doc, s, e) rows)
  /\ (forall range, In range (JsMap.keys (r_locByRange r)) ->
        exists file s e,
          In (file, s, e) rows /\ range = stringifyStringLocation file s).
Proof.
  intros Hgood.
  apply (collect_ranges_keeps
           (fun acc =>
              (forall doc, In doc (r_docs acc) ->
                           exists s e, In (doc, s, e) rows)
              /\ (forall range, In range (JsMap.keys (r_locByRange acc)) ->
                    exists file s e,
                      In (file, s, e) rows
                      /\ range = stringifyStringLocation file s)) rows);
    [| apply incl_refl | exact Hgood | split; intros ? []].
  intros file s end_ loc acc Hrow _ _ [Hdocs Hkeys].
  cbn [collect_range r_docs r_locByRange]. split.
  - intros doc Hdoc. apply in_add in Hdoc as [->|Hdoc]; eauto.
  - intros range Hrange. apply in_keys_set in Hrange as [->|Hrange]; eauto.
Qed.

(** The documents of a run and the rows of the table. *)
Lemma run_documents (inFiles : list (string * list Input.Line))
    (r : Ranges) :
  collect_ranges (Db.select_ranges (table_of inFiles)) empty_ranges = Ok r ->
  forall doc,
    In doc (r_docs r) <->
    exists row, In row (table_of inFiles)
                /\ (doc = Db.file row \/ doc = Db.deffile row).
Proof.
  intros Hr doc.
  pose proof (select_ranges_good _ (table_well_formed inFiles)) as Hgood.
  destruct (collect_ranges_origin _ r Hgood Hr) as [Horigin _].
  pose proof (collect_ranges_documents _ r Hgood Hr) as Hdoc.
  destruct (collect_ranges_spec (Db.select_ranges (table_of inFiles))
              empty_ranges Hgood) as (r' & Hr' & _ & _ & _ & Hcover).
  rewrite Hr in Hr'. injection Hr' as <-.
  split.
  - intros H. destruct (Horigin doc H) as (s & e & Hrow).
    apply in_select_ranges in Hrow as (row & Hrow & [[= -> _ _]|[= -> _ _]]);
      eauto.
  - intros (row & Hrow & Hfile).
    assert (Hsel : exists s e, In (doc, s, e)
                                 (Db.select_ranges (table_of inFiles))).
    { destruct Hfile as [-> | ->]; do 2 eexists; apply in_select_ranges;
        exists row; (split; [exact Hrow|]); [left | right]; reflexivity. }
    destruct Hsel as (s & e & Hsel).
    pose proof (Hcover doc s e Hsel) as Hkey.
    destruct (di_contained r Hdoc _ Hkey) as (doc' & ranges & Hin & Hrange).
    destruct (di_owner r Hdoc doc' ranges _ Hin Hrange) as [pos Hpos].
    rewrite Forall_forall in Hgood. destruct (Hgood _ Hsel) as [[ps ->] _].
    unfold stringifyStringLocation, stringifyPosition in Hpos.
    apply parts_inj in Hpos as [-> _].
    rewrite (di_docs r Hdoc). apply in_map_iff. exists (doc', ranges). auto.
Qed.

(** X10: every range of a run of [writeLSIF] is contained in one document:
    the containment edges of the documents list no range twice, each
    range they list is a position of the document of its edge, and, when
    no file name has a colon, they list exactly the range vertices of the
    stream. *)
Theorem every_range_is_contained_in_its_document (inFileGlob root : string)
    (inFiles : list (string * list Input.Line)) :
  let out := emitted (writeLSIF fs inFileGlob root inFiles) in
  NoDup (contained_ranges out)
  /\ (forall id doc inVs range,
        In (contains id ("document:" ++ doc) inVs) out -> In range inVs ->
        exists pos, range = doc ++ ":" ++ stringifyPosition pos)
  /\ (colon_free_input inFiles ->
      Permutation (contained_ranges out) (range_ids out)).
Proof.
  destruct inFiles as [|f rest] eqn:E.
  { cbn. split; [constructor|]. split; [intros ? ? ? ? []|]. constructor. }
  rewrite <- E. assert (Hne : inFiles <> []) by (rewrite E; discriminate).
  clear E. cbv zeta.
  destruct (writeLSIF_run fs inFileGlob root inFiles Hne)
    as (r & Hr & Hinv & Hdoc & Hwf & -> & Hok).
  set (x := index_of_ranges inFileGlob root inFiles r) in *.
  assert (Hgroup : forall e i, In e (refsByDef x) -> In i (group_items x e) ->
                               is_group_item i = true).
  { intros [def refs] i _. now apply plain_group_item_shape. }
  assert (Hc : contained_ranges (emitted (ffff fs x))
               = flat_map (fun kv => snd kv) (r_rangesByDoc r)).
  { unfold contained_ranges.
    rewrite (projection_of_run _ x (fun _ => [])
               (fun d => match JsMap.get d (rangesByDoc x) with
                         | Some ranges => ranges
                         | None => []
                         end) Hok).
    - rewrite flat_map_nil.
      replace (flat_map _ (range_items (locByRange x))) with (@nil Id).
      + cbn [stream_head stream_tail makeMeta makeProject makeProjectBegin
             makeProjectEnd flat_map app String.eqb Ascii.eqb Bool.eqb].
        rewrite app_nil_r.
        subst x. cbn [index_of_ranges docs rangesByDoc].
        rewrite (di_docs r Hdoc).
        apply (flat_map_get_keys (fun v => v)), (di_keys r Hdoc).
      + symmetry. unfold range_items. rewrite flat_map_flat_map.
        apply flat_map_all_nil. intros k _.
        now destruct (JsMap.get k (locByRange x)).
    - reflexivity.
    - intros e He. apply flat_map_all_nil. intros i Hi.
      pose proof (Hgroup e i He Hi) as Hs. destruct i; try reflexivity.
      discriminate Hs.
    - intros d _. unfold document_end_items.
      destruct (JsMap.get d (rangesByDoc x)); [|reflexivity].
      cbn. apply app_nil_r. }
  rewrite Hc.
  assert (Hnd : NoDup (flat_map (fun kv => snd kv) (r_rangesByDoc r))).
  { apply owned_sets_NoDup;
      [exact (di_keys r Hdoc) | exact (di_sets r Hdoc)
      | exact (di_owner r Hdoc)]. }
  split; [exact Hnd|]. split.
  - intros id doc inVs range Hin Hrange.
    apply (run_items fs x _ Hok) in Hin.
    destruct Hin
      as [H|[(d & _ & H)|[H|[(e & He & H)|[(d & _ & H)|H]]]]].
    + cbn in H. destruct H as [H|[H|[H|[]]]]; discriminate.
    + cbn in H. destruct H as [H|[H|[]]]; discriminate.
    + unfold range_items in H. apply in_flat_map in H as (k & _ & H).
      destruct (JsMap.get k _); [|contradiction].
      destruct H as [H|[]]; discriminate.
    + pose proof (Hgroup e _ He H) as Hs. discriminate Hs.
    + unfold document_end_items in H.
      destruct (JsMap.get d (rangesByDoc x)) as [ranges|] eqn:Hget;
        [|contradiction].
      destruct H as [H|[H|[]]]; [|discriminate].
      injection H as _ -> <-.
      apply get_in in Hget. exact (di_owner r Hdoc _ _ _ Hget Hrange).
    + cbn in H. destruct H as [H|[H|[]]]; discriminate.
  - intros Hcf.
    pose proof (run_ids_are_keys inFileGlob root inFiles r Hne Hcf Hr) as Hids.
    destruct (well_formed_run_is_closed fs x Hwf Hids) as (_ & -> & Hk & _).
    apply NoDup_Permutation; [exact Hnd | exact (wf_ranges x Hwf) |].
    intros range. split.
    + intros H. apply in_flat_map in H as ([doc ranges] & Hin & H).
      exact (inv_ranges r Hinv doc ranges range Hin H).
    + intros H. destruct (di_contained r Hdoc range H)
        as (doc & ranges & Hin & Hrange).
      apply in_flat_map. exists (doc, ranges). auto.
Qed.

(** X11: [writeLSIF] emits one document vertex for each file of the
    table, a file being the file or the definition file of a row, and no
    other; the containment edge of the project lists them in the same
    order. *)
Theorem documents_are_the_files_of_the_table (inFileGlob root : string)
    (inFiles : list (string * list Input.Line)) :
  let out := emitted (writeLSIF fs inFileGlob root inFiles) in
  exists files,
    document_ids out = map (fun doc => "document:" ++ doc) files
    /\ NoDup files
    /\ (forall doc,
          In doc files <->
          exists row, In row (table_of inFiles)
                      /\ (doc = Db.file row \/ doc = Db.deffile row))
    /\ (inFiles <> [] ->
        In (contains "projectContains" "project"
              (map (fun doc => "document:" ++ doc) files)) out).
Proof.
  destruct inFiles as [|f rest] eqn:E.
  { exists []. cbn. split; [reflexivity|]. split; [constructor|].
    split; [|congruence]. intros doc. split; [intros [] |].
    intros (row & [] & _). }
  rewrite <- E. assert (Hne : inFiles <> []) by (rewrite E; discriminate).
  clear E. cbv zeta.
  destruct (writeLSIF_run fs inFileGlob root inFiles Hne)
    as (r & Hr & Hinv & Hdoc & Hwf & -> & Hok).
  set (x := index_of_ranges inFileGlob root inFiles r) in *.
  exists (r_docs r). split; [|split; [|split]].
  - unfold document_ids.
    rewrite (projection_of_run _ x (fun d => ["document:" ++ d])
               (fun _ => []) Hok).
    + rewrite flat_map_nil, flat_map_singleton.
      replace (flat_map _ (range_items (locByRange x))) with (@nil Id).
      * cbn. now rewrite app_nil_r.
      * symmetry. unfold range_items. rewrite flat_map_flat_map.
        apply flat_map_all_nil. intros k _.
        now destruct (JsMap.get k (locByRange x)).
    + reflexivity.
    + intros [def refs] He. apply flat_map_all_nil. intros i Hi.
      pose proof (plain_group_item_shape x def refs i eq_refl eq_refl Hi)
        as Hs.
      destruct i; try reflexivity. discriminate Hs.
    + intros d _. unfold document_end_items.
      now destruct (JsMap.get d (rangesByDoc x)).
  - rewrite (di_docs r Hdoc). exact (di_keys r Hdoc).
  - exact (run_documents inFiles r Hr).
  - intros _. apply (run_items fs x _ Hok).
    do 5 right. left. reflexivity.
Qed.

End Projections.

(** ** Definition ranges *)

Section DefinitionRanges.

Local Infix "+++" := app (right associativity, at level 60).

Variable fs : string -> option string.

Lemma collect_ranges_app (a b : list (string * string * string))
    (acc : Ranges) :
  collect_ranges (a ++ b) acc
  = result_bind (collect_ranges a acc) (collect_ranges b).
Proof.
  revert acc. induction a as [|[[file start] end_] a IH]; intros acc;
    [reflexivity|].
  cbn [app collect_ranges].
  destruct (parseLocation _ _) as [loc|e]; cbn [result_bind]; [|reflexivity].
  apply IH.
Qed.

(** Over rows whose end is their start, the first loop registers
    locations without width, and keeps those it had. *)
Lemma collect_ranges_definitions (rows : list (string * string * string)) :
  forall acc r,
    (forall file s e, In (file, s, e) rows -> e = s /\ position_string s) ->
    collect_ranges rows acc = Ok r ->
    forall key,
      definition_at (r_locByRange acc) key
      \/ (exists file s, In (file, s, s) rows
                         /\ key = stringifyStringLocation file s) ->
      definition_at (r_locByRange r) key.
Proof.
  induction rows as [|[[file start] end_] rows IH]; intros acc r Hrows.
  - cbn [collect_ranges]. intros [= <-] key [H|(f & s & [] & _)]. exact H.
  - destruct (Hrows file start end_ (or_introl eq_refl)) as [-> [pos ->]].
    cbn [collect_ranges]. rewrite parseLocation_of_row. cbn [result_bind].
    intros Hr key Hkey.
    apply (IH _ r (fun f s e H => Hrows f s e (or_intror H)) Hr key).
    cbn [r_locByRange].
    destruct (String.eqb_spec key
                (stringifyStringLocation file (stringifyPosition pos)))
      as [->|Hne].
    + left. exists file, pos. split; [reflexivity|]. apply get_set_same.
    + destruct Hkey as [(f & p & Hk & Hget)|(f & s & [Heq|Hin] & ->)].
      * left. exists f, p. split; [exact Hk|].
        rewrite get_set_other by exact Hne. exact Hget.
      * injection Heq as <- <-. congruence.
      * right. eauto.
Qed.

Lemma position_inj (p q : Pos_) :
  Js.Int (line p) = Js.Int (line q) -> Js.Int (col p) = Js.Int (col q) ->
  p = q.
Proof.
  destruct p as [l c Hl Hc], q as [l' c' Hl' Hc']. cbn. intros El Ec.
  apply Int_safe_inj in El; [|assumption|assumption].
  apply Int_safe_inj in Ec; [|assumption|assumption].
  subst l' c'. f_equal; apply UIP_dec, bool_dec.
Qed.

(** The location that a run registers for the definition of a row. *)
Lemma run_definition_location (inFiles : list (string * list Input.Line))
    (r : Ranges) (row : Db.Row) :
  collect_ranges (Db.select_ranges (table_of inFiles)) empty_ranges = Ok r ->
  In row (table_of inFiles) ->
  exists pos,
    Db.defstart row = stringifyPosition pos
    /\ JsMap.get (def_key row) (r_locByRange r)
       = Some (definition_location (Db.deffile row) pos).
Proof.
  intros Hr Hrow. unfold Db.select_ranges in Hr.
  rewrite collect_ranges_app in Hr.
  destruct (collect_ranges _ empty_ranges) as [r1|e]; [|discriminate].
  cbn [result_bind] in Hr.
  pose proof (table_well_formed inFiles) as Hwf.
  rewrite Forall_forall in Hwf.
  destruct (Hwf row Hrow) as (_ & _ & pos & Hpos).
  destruct (collect_ranges_definitions
              (Db.distinct Db.eqb3
                 (map (fun r => (Db.deffile r, Db.defstart r, Db.defstart r))
                    (table_of inFiles))) r1 r) with (key := def_key row)
    as (file & pos' & Hkey & Hget); [| exact Hr | |].
  - intros file s e H. unfold Db.distinct in H.
    apply distinct_from_incl in H.
    apply in_map_iff in H as (row' & [= <- <- <-] & Hrow').
    split; [reflexivity|]. now destruct (Hwf row' Hrow') as (_ & _ & H).
  - right. exists (Db.deffile row), (Db.defstart row).
    split; [|reflexivity].
    destruct (distinct_from_complete Db.eqb3 eqb3_eq
                (map (fun r => (Db.deffile r, Db.defstart r, Db.defstart r))
                   (table_of inFiles)) []
                (Db.deffile row, Db.defstart row, Db.defstart row))
      as [H|[]]; [|exact H].
    apply in_map_iff. eauto.
  - exists pos. split; [exact Hpos|]. rewrite Hget. f_equal.
    unfold def_key, stringifyStringLocation in Hkey. rewrite Hpos in Hkey.
    unfold stringifyPosition in Hkey.
    apply parts_inj in Hkey as (-> & Hl & Hc).
    now rewrite (position_inj pos pos' Hl Hc).
Qed.

(** X12: the range vertex that [writeLSIF] emits for the definition of a
    row has no width: its end is its start, even when the table has a row
    for a range that starts there and ends later.  Its id is the
    definition file without its colons, then the start; when no file name
    has a colon it is the only range vertex with the identity key of the
    definition. *)
Theorem definition_ranges_have_no_width (inFileGlob root : string)
    (inFiles : list (string * list Input.Line)) (row : Db.Row) :
  In row (table_of inFiles) ->
  let out := emitted (writeLSIF fs inFileGlob root inFiles) in
  exists pos,
    Db.defstart row = stringifyPosition pos
    /\ In (Range (Js.remove_char ":" (Db.deffile row) ++ ":"
                  ++ Db.defstart row)
             {| Lsp.start := lsp_position pos;
                Lsp.end_ := lsp_position pos |}) out
    /\ (colon_free_input inFiles ->
        forall range,
          In (Range (def_key row) range) out ->
          range = {| Lsp.start := lsp_position pos;
                     Lsp.end_ := lsp_position pos |}).
Proof.
  intros Hrow. cbv zeta. pose proof (in_table_not_nil _ _ Hrow) as Hne.
  destruct (writeLSIF_run fs inFileGlob root inFiles Hne)
    as (r & Hr & Hinv & Hdoc & Hwf & -> & Hok).
  destruct (run_definition_location inFiles r row Hr Hrow)
    as (pos & Hpos & Hget).
  set (x := index_of_ranges inFileGlob root inFiles r) in *.
  exists pos. split; [exact Hpos|]. split.
  - apply (run_items fs x _ Hok). right. right. left.
    unfold range_items. apply in_flat_map. exists (def_key row). split.
    + apply in_map_iff. exists (def_key row, definition_location
                                               (Db.deffile row) pos).
      split; [reflexivity | apply get_in; exact Hget].
    + change (locByRange x) with (r_locByRange r). rewrite Hget.
      left. unfold makeRange, stringifyLocation, definition_location.
      cbn [Lsp.uri Lsp.range Lsp.start Lsp.line Lsp.character lsp_position].
      rewrite Hpos. reflexivity.
  - intros Hcf range Hin.
    pose proof (run_ids_are_keys inFileGlob root inFiles r Hne Hcf Hr) as Hids.
    apply (run_items fs x _ Hok) in Hin.
    destruct Hin
      as [H|[(d & _ & H)|[H|[([def refs] & He & H)|[(d & _ & H)|H]]]]].
    + cbn in H. destruct H as [H|[H|[H|[]]]]; discriminate.
    + cbn in H. destruct H as [H|[H|[]]]; discriminate.
    + unfold range_items in H. apply in_flat_map in H as (k & _ & H).
      destruct (JsMap.get k (locByRange x)) as [loc|] eqn:Hk;
        [|contradiction].
      destruct H as [H|[]]. unfold makeRange in H. injection H as Hid <-.
      apply get_in in Hk. rewrite (Hids k loc Hk) in Hid. subst k.
      apply (get_unique _ _ _ (wf_ranges x Hwf)) in Hk.
      change (locByRange x) with (r_locByRange r) in Hk.
      rewrite Hget in Hk. injection Hk as <-. reflexivity.
    + pose proof (plain_group_item_shape x def refs _ eq_refl eq_refl H)
        as Hs. discriminate Hs.
    + unfold document_end_items in H.
      destruct (JsMap.get d _); [|contradiction].
      destruct H as [H|[H|[]]]; discriminate.
    + cbn in H. destruct H as [H|[H|[]]]; discriminate.
Qed.

(** The range vertices of a run and the rows of the table. *)
Lemma run_range_keys (inFiles : list (string * list Input.Line))
    (r : Ranges) :
  collect_ranges (Db.select_ranges (table_of inFiles)) empty_ranges = Ok r ->
  forall key,
    In key (JsMap.keys (r_locByRange r)) <->
    exists row, In row (table_of inFiles)
                /\ (key = range_key row \/ key = def_key row).
Proof.
  intros Hr key.
  pose proof (select_ranges_good _ (table_well_formed inFiles)) as Hgood.
  destruct (collect_ranges_origin _ r Hgood Hr) as [_ Horigin].
  destruct (collect_ranges_spec (Db.select_ranges (table_of inFiles))
              empty_ranges Hgood) as (r' & Hr' & _ & _ & _ & Hcover).
  rewrite Hr in Hr'. injection Hr' as <-.
  split.
  - intros H. destruct (Horigin key H) as (file & s & e & Hrow & ->).
    apply in_select_ranges in Hrow
      as (row & Hrow & [[= -> -> _]|[= -> -> _]]); eauto.
  - intros (row & Hrow & [-> | ->]).
    + apply (Hcover (Db.file row) (Db.start row) (Db.end_ row)).
      apply in_select_ranges. eauto.
    + apply (Hcover (Db.deffile row) (Db.defstart row) (Db.defstart row)).
      apply in_select_ranges. eauto.
Qed.

(** X13: when no file name has a colon, a run of [writeLSIF] emits one
    range vertex for each identity key of the table, the key of the range
    or of the definition of a row, and no other; and every range that an
    edge names was emitted before as a vertex. *)
Theorem colon_free_run_has_one_vertex_for_each_range
    (inFileGlob root : string) (inFiles : list (string * list Input.Line)) :
  colon_free_input inFiles ->
  let out := emitted (writeLSIF fs inFileGlob root inFiles) in
  NoDup (range_ids out)
  /\ (forall id,
        In id (range_ids out) <->
        exists row, In row (table_of inFiles)
                    /\ (id = range_key row \/ id = def_key row))
  /\ closed out = true.
Proof.
  intros Hcf. destruct inFiles as [|f rest] eqn:E.
  { cbn. split; [constructor|]. split; [|reflexivity].
    intros id. split; [intros [] | intros (row & [] & _)]. }
  rewrite <- E in *. assert (Hne : inFiles <> []) by (rewrite E; discriminate).
  clear E. cbv zeta.
  destruct (writeLSIF_run fs inFileGlob root inFiles Hne)
    as (r & Hr & Hinv & Hdoc & Hwf & -> & Hok).
  pose proof (run_ids_are_keys inFileGlob root inFiles r Hne Hcf Hr) as Hids.
  destruct (well_formed_run_is_closed fs _ Hwf Hids)
    as (_ & Hkeys & Hnd & Hclosed).
  split; [exact Hnd|]. split; [|exact Hclosed].
  intros id. rewrite Hkeys. exact (run_range_keys inFiles r Hr id).
Qed.

End DefinitionRanges.

Lemma definition_ranges_have_no_width_witness :
  exists pos,
    In (Range "a.ml:0:0"
          {| Lsp.start := lsp_position pos; Lsp.end_ := lsp_position pos |})
      (emitted (writeLSIF no_files "proj/*.lsif.in" "proj" self_definition)).
Proof.
  destruct (definition_ranges_have_no_width no_files "proj/*.lsif.in" "proj"
              self_definition
              {| Db.file := "a.ml"; Db.start := "0:0"; Db.end_ := "0:1";
                 Db.deffile := "a.ml"; Db.defstart := "0:0";
                 Db.type := "int" |})
    as (pos & _ & Hin & _).
  - vm_compute. left. reflexivity.
  - exists pos. exact Hin.
Defined.

Lemma colon_free_run_has_one_vertex_for_each_range_witness :
  closed (emitted (writeLSIF no_files "proj/*.lsif.in" "proj"
                     late_definition)) = true.
Proof.
  apply (colon_free_run_has_one_vertex_for_each_range no_files
           "proj/*.lsif.in" "proj" late_definition).
  repeat constructor.
Defined.

(** ** Ids that a run repeats *)

Section RepeatedIds.

Local Infix "+++" := app (right associativity, at level 60).

Variable fs : string -> option string.

Lemma NoDup_app_disjoint {A : Type} (l l' : list A) (a : A) :
  NoDup (l ++ l') -> In a l -> In a l' -> False.
Proof.
  induction l as [|b l IH]; intros Hnd Hl Hl'; [contradiction|].
  cbn [app] in Hnd. inversion Hnd as [|? ? Hnotin Hnd']; subst.
  destruct Hl as [->|Hl]; [|now apply IH].
  apply Hnotin, in_or_app. now right.
Qed.

Lemma NoDup_flat_map_shared {A B : Type} (h : A -> list B) (l : list A)
    (e1 e2 : A) (b : B) :
  NoDup (flat_map h l) -> In e1 l -> In e2 l -> e1 <> e2 ->
  In b (h e1) -> In b (h e2) -> False.
Proof.
  induction l as [|e l IH]; intros Hnd H1 H2 Hne Hb1 Hb2; [contradiction|].
  cbn [flat_map] in Hnd.
  destruct H1 as [->|H1], H2 as [->|H2].
  - congruence.
  - apply (NoDup_app_disjoint _ _ b Hnd Hb1).
    apply in_flat_map. eauto.
  - apply (NoDup_app_disjoint _ _ b Hnd Hb2).
    apply in_flat_map. eauto.
  - apply IH; try assumption. now apply NoDup_app_remove_l in Hnd.
Qed.

Lemma map_flat_map {A B C : Type} (f : B -> C) (g : A -> list B)
    (l : list A) :
  map f (flat_map g l) = flat_map (fun a => map f (g a)) l.
Proof.
  induction l as [|a l IH]; [reflexivity|].
  cbn [flat_map]. now rewrite map_app, IH.
Qed.

(** Two groups with an id in common. *)
Lemma groups_share_id (x : Index) (e1 e2 : string * JsSet.t) (i1 i2 : Item) :
  succeeds (ffff fs x) ->
  In e1 (refsByDef x) -> In e2 (refsByDef x) -> e1 <> e2 ->
  In i1 (group_items x e1) -> In i2 (group_items x e2) ->
  id_of i1 = id_of i2 ->
  ~ unique_ids (emitted (ffff fs x)).
Proof.
  intros Hok H1 H2 Hne Hi1 Hi2 Hid Hu. unfold unique_ids in Hu.
  rewrite (ffff_eq fs x Hok) in Hu. cbn [emitted fst] in Hu.
  rewrite !map_app in Hu.
  do 3 apply NoDup_app_remove_l in Hu. apply NoDup_app_remove_r in Hu.
  rewrite map_flat_map in Hu.
  apply (NoDup_flat_map_shared _ _ e1 e2 (id_of i1) Hu H1 H2 Hne).
  - now apply in_map.
  - rewrite Hid. now apply in_map.
Qed.

(** X14: a run of [writeLSIF] repeats an id when a range of the table is
    also a definition (as a definition site is, whose definition is its
    own range), or when two rows give one range two definitions: the id
    "next:" and the key of that range is then emitted twice. *)
Theorem range_that_is_a_definition_repeats_an_id (inFileGlob root : string)
    (inFiles : list (string * list Input.Line)) (row row' : Db.Row) :
  In row (table_of inFiles) -> In row' (table_of inFiles) ->
  range_key row = def_key row'
  \/ (range_key row = range_key row' /\ def_key row <> def_key row') ->
  ~ unique_ids (emitted (writeLSIF fs inFileGlob root inFiles)).
Proof.
  intros Hrow Hrow' Hcause. pose proof (in_table_not_nil _ _ Hrow) as Hne.
  destruct (writeLSIF_run fs inFileGlob root inFiles Hne)
    as (r & Hr & Hinv & Hdoc & Hwf & -> & Hok).
  destruct (run_links inFileGlob root inFiles r) as [_ Hcover].
  set (x := index_of_ranges inFileGlob root inFiles r) in *.
  destruct (Hcover row Hrow) as (refs & Hget & Hin).
  destruct (Hcover row' Hrow') as (refs' & Hget' & Hin').
  apply get_in in Hget, Hget'.
  destruct (get_of_key _ (locByRange x) (wf_defs x Hwf _ refs Hget))
    as [defLoc Hloc].
  destruct (get_of_key _ (locByRange x) (wf_defs x Hwf _ refs' Hget'))
    as [defLoc' Hloc'].
  assert (Hnext : In (nextOfRef (def_key row) (range_key row))
                    (group_items x (def_key row, refs))).
  { rewrite (plain_group_items x _ refs defLoc eq_refl eq_refl Hloc).
    rewrite !in_app_iff. right. right. right. left. now apply in_map. }
  destruct (String.eqb_spec (def_key row) (def_key row')) as [Hsame|Hdiff].
  - destruct Hcause as [Hself|[_ Hdiff]]; [|contradiction].
    apply (definition_site_repeats_id fs x (def_key row) refs Hok Hget).
    now rewrite Hsame, <- Hself.
  - assert (Hentries : (def_key row, refs) <> (def_key row', refs'))
      by congruence.
    destruct Hcause as [Hself|[Hrange _]].
    + apply (groups_share_id x _ _ _
               (next ("next:" ++ def_key row') (def_key row')
                  ("resultSet:" ++ def_key row'))
               Hok Hget Hget' Hentries Hnext).
      * rewrite (plain_group_items x _ refs' defLoc' eq_refl eq_refl Hloc').
        right. left. reflexivity.
      * cbn [nextOfRef id_of]. now rewrite Hself.
    + apply (groups_share_id x _ _ _
               (nextOfRef (def_key row') (range_key row'))
               Hok Hget Hget' Hentries Hnext).
      * rewrite (plain_group_items x _ refs' defLoc' eq_refl eq_refl Hloc').
        rewrite !in_app_iff. right. right. right. left. now apply in_map.
      * cbn [nextOfRef id_of]. now rewrite Hrange.
Qed.

End RepeatedIds.

Lemma range_that_is_a_definition_repeats_an_id_witness :
  ~ unique_ids (emitted (writeLSIF no_files "proj/*.lsif.in" "proj"
                           late_definition)).
Proof.
  apply (range_that_is_a_definition_repeats_an_id no_files "proj/*.lsif.in"
           "proj" late_definition
           {| Db.file := "a.ml"; Db.start := "10:0"; Db.end_ := "10:1";
              Db.deffile := "a.ml"; Db.defstart := "10:0";
              Db.type := "int" |}
           {| Db.file := "a.ml"; Db.start := "1:0"; Db.end_ := "1:1";
              Db.deffile := "a.ml"; Db.defstart := "10:0";
              Db.type := "int" |}).
  - vm_compute. left. reflexivity.
  - vm_compute. right. left. reflexivity.
  - left. reflexivity.
Defined.

(** ** The test of the ids *)

Section DuplicateTest.

Lemma filter_nil_iff {B : Type} (P : B -> bool) (l : list B) :
  filter P l = [] <-> forall b, In b l -> P b = false.
Proof.
  induction l as [|a l IH]; cbn [filter].
  - split; [intros _ b [] | reflexivity].
  - destruct (P a) eqn:E.
    + split; [discriminate|]. intros H.
      rewrite (H a (or_introl eq_refl)) in E. discriminate.
    + rewrite IH. split.
      * intros H b [<-|Hb]; [exact E | now apply H].
      * intros H b Hb. apply H. now right.
Qed.

(** The groups of [groupBy] by id have one item each exactly when no id
    is repeated. *)
Lemma groups_by_id_NoDup (d : Lodash.Dictionary (list Item)) :
  NoDup (map fst d) ->
  Forall (grouped_under (fun item => Ok (id_of item))) d ->
  (forall e, In e d -> List.length (snd e) <= 1) <->
  NoDup (map id_of (flat_map snd d)).
Proof.
  induction d as [|[k vs] d IH]; intros Hnd Hgr.
  - cbn. split; [constructor | intros _ e []].
  - inversion Hnd as [|? ? Hnotin Hnd']; subst.
    inversion Hgr as [|? ? [Hne Hk] Hgr']; subst. cbn [fst snd] in *.
    specialize (IH Hnd' Hgr').
    assert (Hids : forall id, In id (map id_of (flat_map snd d)) ->
                              In id (map fst d)).
    { intros id Hid. apply in_map_iff in Hid as (v & <- & Hv).
      apply in_flat_map in Hv as ([k' vs'] & He & Hv).
      rewrite Forall_forall in Hgr'. destruct (Hgr' _ He) as [_ Hk'].
      rewrite Forall_forall in Hk'. specialize (Hk' v Hv).
      cbn [fst snd] in *. injection Hk' as ->.
      apply in_map_iff. exists (k', vs'). auto. }
    cbn [flat_map snd]. rewrite map_app. split.
    + intros Hlen.
      pose proof (Hlen (k, vs) (or_introl eq_refl)) as Hvs. cbn [snd] in Hvs.
      destruct vs as [|v [|v' vs]]; [congruence | | cbn in Hvs; lia].
      inversion Hk as [|? ? Hv _]; subst. injection Hv as Hv.
      cbn [map app]. rewrite Hv. constructor.
      * intros Hin. apply Hnotin, Hids, Hin.
      * apply IH. intros e He. apply Hlen. now right.
    + intros Hu e [<-|He].
      * cbn [snd]. apply NoDup_app_remove_r in Hu.
        destruct vs as [|v [|v' vs]]; cbn [List.length]; try lia.
        inversion Hk as [|? ? Hv Hk']; subst.
        inversion Hk' as [|? ? Hv' _]; subst.
        injection Hv as Hv. injection Hv' as Hv'.
        cbn [map] in Hu. rewrite Hv, Hv' in Hu.
        inversion Hu as [|? ? Hnin _]; subst.
        exfalso. apply Hnin. now left.
      * apply NoDup_app_remove_l in Hu. now apply IH.
Qed.

(** X15: the test of the repository for duplicate ids passes exactly
    when no two items of the output have the same id: its groups by id,
    counted and filtered, are those with a repeated id. *)
Theorem duplicate_test_passes_iff_ids_unique (output : list Item) :
  duplicate_test_passes output = true <-> unique_ids output.
Proof.
  unfold duplicate_test_passes, setsOfDupes, unique_ids.
  destruct (groupBy_into_total (fun item => Ok (id_of item)) output [])
    as [d Hd].
  { apply Forall_forall. intros item _. eauto. }
  fold (Lodash.groupBy output (fun item => Ok (id_of item))) in Hd.
  rewrite Hd.
  destruct (groupBy_spec _ _ _ Hd) as (Hperm & Hnd & Hgr).
  rewrite Nat.eqb_eq, length_zero_iff_nil.
  assert (Hfilter :
    map fst
      (filter (fun gc : list Item * nat => (1 <? snd gc)%nat)
         (map (fun group => (group, List.length group))
            (map snd (Lodash.toPairs d)))) = []
    <-> forall e, In e d -> List.length (snd e) <= 1).
  { split.
    - intros H e He. apply map_eq_nil in H.
      assert (Hin : In (snd e, List.length (snd e))
                      (map (fun group => (group, List.length group))
                         (map snd (Lodash.toPairs d)))).
      { apply (in_map (fun group => (group, List.length group))).
        apply in_map.
        apply (Permutation_in _ (Permutation_sym (toPairs_perm d))), He. }
      pose proof (proj1 (filter_nil_iff _ _) H _ Hin) as Hlt.
      cbn [snd] in Hlt. apply Nat.ltb_ge in Hlt. exact Hlt.
    - intros H.
      replace (filter _ _) with (@nil (list Item * nat)); [reflexivity|].
      symmetry. apply filter_nil_iff. intros gc Hgc.
      apply in_map_iff in Hgc as (g & <- & Hg).
      apply in_map_iff in Hg as (e & <- & He).
      apply (Permutation_in _ (toPairs_perm d)) in He.
      cbn [snd]. apply Nat.ltb_ge. now apply H. }
  rewrite Hfilter, (groups_by_id_NoDup d Hnd Hgr).
  split; apply Permutation_NoDup, Permutation_map;
    [exact Hperm | exact (Permutation_sym Hperm)].
Qed.

End DuplicateTest.

(** ** Runs without a repeated id *)

Section UniqueIds.

Local Infix "+++" := app (right associativity, at level 60).

Variable fs : string -> option string.

Lemma NoDup_map_inj_in {A B : Type} (f : A -> B) (l : list A) :
  (forall a b, In a l -> In b l -> f a = f b -> a = b) ->
  NoDup l -> NoDup (map f l).
Proof.
  intros Hinj Hnd.
  induction Hnd as [|a l Hnin Hnd IH]; cbn [map]; constructor.
  - intros H. apply in_map_iff in H as (b & Hb & Hin).
    apply Hnin. rewrite (Hinj a b); [exact Hin | now left | now right |].
    now symmetry.
  - apply IH. intros b c Hb Hc. apply Hinj; now right.
Qed.

Lemma NoDup_flat_map_intro {A B : Type} (h : A -> list B) (l : list A) :
  NoDup l -> (forall a, In a l -> NoDup (h a)) ->
  (forall a a' b, In a l -> In a' l -> In b (h a) -> In b (h a') -> a = a') ->
  NoDup (flat_map h l).
Proof.
  intros Hnd. induction Hnd as [|a l Hnin Hnd IH]; intros Hh Hshare;
    [constructor|].
  cbn [flat_map]. apply NoDup_app.
  - apply Hh. now left.
  - apply IH; [intros; apply Hh; now right|].
    intros a1 a2 b H1 H2. apply Hshare; now right.
  - intros b Hb Hb'. apply in_flat_map in Hb' as (a' & Ha' & Hb').
    apply Hnin.
    rewrite (Hshare a a' b); [exact Ha' | now left | now right | |];
      assumption.
Qed.

Lemma id_of_form_payload (k : nat) (s s' : string) :
  id_of_form (k, s) = id_of_form (k, s') -> s = s'.
Proof.
  unfold id_of_form. cbn [fst snd]. intros H.
  apply prefix_inj in H. now injection H.
Qed.

Lemma id_of_form_inj (k k' : nat) (s s' : string) :
  k < 15 -> k' < 15 -> id_of_form (k, s) = id_of_form (k', s') ->
  k = k' /\ s = s'.
Proof.
  intros Hk Hk' H.
  do 15 (destruct k as [|k];
         [do 15 (destruct k' as [|k'];
                 [first [ split; [reflexivity|];
                          exact (id_of_form_payload _ _ _ H)
                        | cbn in H; discriminate H ]|]);
          exfalso; lia|]).
  exfalso. lia.
Qed.

Lemma form_components (k : nat) (s : string) :
  List.length (Js.split ":" (id_of_form (k, s)))
  = List.length (Js.split ":" (nth k id_stems ""))
    + List.length (Js.split ":" s).
Proof.
  unfold id_of_form. cbn [fst snd]. change (":" ++ s) with (String ":" s).
  now rewrite split_app, length_app.
Qed.

Lemma key_components (file : string) (pos : Pos_) :
  Js.includes ":" file = false ->
  List.length (Js.split ":" (file ++ ":" ++ stringifyPosition pos)) = 3.
Proof.
  intros H. unfold stringifyPosition.
  rewrite split_of_parts, (split_without_sep _ _ H). reflexivity.
Qed.

Lemma payload_inj (def def' uri uri' : string) :
  Js.includes ":" uri = false -> Js.includes ":" uri' = false ->
  def ++ ":" ++ uri = def' ++ ":" ++ uri' -> def = def' /\ uri = uri'.
Proof.
  intros Hu Hu' H. apply (f_equal (Js.split ":")) in H.
  change (":" ++ uri) with (String ":" uri) in H.
  change (":" ++ uri') with (String ":" uri') in H.
  rewrite !split_app in H.
  rewrite (split_without_sep _ _ Hu), (split_without_sep _ _ Hu') in H.
  apply app_inj_tail in H as [H ->]. split; [|reflexivity].
  apply (f_equal (Js.join ":")) in H. now rewrite !join_split_sep in H.
Qed.

Lemma in_group_forms (k : nat) (s def : string) (hover : bool)
    (refs : JsSet.t) (uris : list string) :
  In (k, s) (group_forms def hover refs uris) ->
  (s = def /\ 4 <= k <= 13)
  \/ (k = 5 /\ In s refs)
  \/ (k = 14 /\ exists uri, In uri uris /\ s = def ++ ":" ++ uri).
Proof.
  unfold group_forms. rewrite !in_app_iff. intros [H|[H|[H|[H|H]]]].
  - cbn [In] in H.
    destruct H as [H|[H|[H|[H|[H|[]]]]]]; injection H as <- <-;
      left; split; try reflexivity; lia.
  - destruct hover; cbn [In] in H; [|contradiction].
    destruct H as [H|[H|[]]]; injection H as <- <-;
      left; split; try reflexivity; lia.
  - cbn [In] in H.
    destruct H as [H|[H|[H|[]]]]; injection H as <- <-;
      left; split; try reflexivity; lia.
  - apply in_map_iff in H as (ref & [= <- <-] & Href). auto.
  - apply in_map_iff in H as (uri & [= <- <-] & Huri). eauto 6.
Qed.

Lemma group_forms_NoDup (def : string) (hover : bool) (refs : JsSet.t)
    (uris : list string) :
  NoDup refs -> NoDup uris -> ~ In def refs ->
  NoDup (group_forms def hover refs uris).
Proof.
  intros Hrefs Huris Hself.
  assert (Htail : NoDup (map (fun ref => (5, ref)) refs
                         +++ map (fun uri => (14, def ++ ":" ++ uri)) uris)).
  { apply NoDup_app.
    - apply NoDup_map_inj_in; [|exact Hrefs]. intros a b _ _ H.
      now injection H.
    - apply NoDup_map_inj_in; [|exact Huris]. intros a b _ _ H.
      injection H as H. apply prefix_inj in H. now injection H.
    - intros t Ht Ht'. apply in_map_iff in Ht as (ref & <- & _).
      apply in_map_iff in Ht' as (uri & H & _). discriminate H. }
  assert (Hfixed : forall k, k <> 14 -> (k = 5 -> False) ->
            ~ In (k, def)
                (map (fun ref => (5, ref)) refs
                 +++ map (fun uri => (14, def ++ ":" ++ uri)) uris)).
  { intros k H14 H5 H. apply in_app_or in H as [H|H];
      apply in_map_iff in H as (a & H & _); injection H as <- _; auto. }
  assert (Hnext : ~ In (5, def)
                      (map (fun ref => (5, ref)) refs
                       +++ map (fun uri => (14, def ++ ":" ++ uri)) uris)).
  { intros H. apply in_app_or in H as [H|H];
      apply in_map_iff in H as (a & H & Ha); [|discriminate H].
    injection H as ->. contradiction. }
  unfold group_forms. destruct hover; cbn [app];
    repeat (constructor;
            [ intros H;
              repeat (destruct H as [H|H]; [discriminate H|]);
              first [ exact (Hnext H)
                    | revert H; apply Hfixed; intros E; discriminate E ]
            | ]);
    exact Htail.
Qed.

(** What the ids of a run without a repeated id need of its groups. *)
Lemma group_forms_of_run_NoDup (groups : list (string * JsSet.t))
    (hover : string -> bool) :
  NoDup (map fst groups) ->
  (forall def refs, In (def, refs) groups -> NoDup refs) ->
  (forall def refs def' refs' ref,
     In (def, refs) groups -> In (def', refs') groups -> In ref refs ->
     ref <> def' /\ (In ref refs' -> def = def')) ->
  (forall def refs uri,
     In (def, refs) groups -> In uri (reference_uris refs) ->
     Js.includes ":" uri = false) ->
  (forall def refs, In (def, refs) groups -> NoDup (reference_uris refs)) ->
  NoDup (flat_map (fun e => group_forms (fst e) (hover (fst e)) (snd e)
                              (reference_uris (snd e))) groups).
Proof.
  intros Hkeys Hrefs Hlinks Hfree Huris.
  assert (Hsame : forall def refs refs',
            In (def, refs) groups -> In (def, refs') groups ->
            (def, refs) = (def, refs')).
  { intros def refs refs' H H'.
    apply (get_unique _ _ _ Hkeys) in H, H'. congruence. }
  apply NoDup_flat_map_intro.
  - now apply NoDup_map_inv in Hkeys.
  - intros [def refs] He. cbn [fst snd]. apply group_forms_NoDup.
    + eapply Hrefs, He.
    + eapply Huris, He.
    + intros Hself. now destruct (Hlinks def refs def refs def He He Hself).
  - intros [def refs] [def' refs'] [k s] He He' Hin Hin'. cbn [fst snd] in *.
    apply in_group_forms in Hin
      as [[-> Hk]|[[-> Href]|(-> & uri & Huri & ->)]];
      apply in_group_forms in Hin'
        as [[Hs' Hk']|[[Hk' Href']|(Hk' & uri' & Huri' & Hs')]];
      try lia.
    + subst def'. now apply Hsame.
    + now destruct (Hlinks def' refs' def refs def He' He Href').
    + subst s. now destruct (Hlinks def refs def' refs' def' He He' Href).
    + destruct (Hlinks def refs def' refs' s He He' Href) as [_ Hd].
      specialize (Hd Href'). subst def'. now apply Hsame.
    + apply payload_inj in Hs' as [Hd _];
        [| exact (Hfree def refs uri He Huri)
         | exact (Hfree def' refs' uri' He' Huri')].
      subst def'. now apply Hsame.
Qed.

Lemma document_forms_NoDup (k1 k2 : nat) (docs : list string) :
  k1 <> k2 -> NoDup docs ->
  NoDup (flat_map (fun doc => [(k1, doc); (k2, doc)]) docs).
Proof.
  intros Hk Hnd. apply NoDup_flat_map_intro; [exact Hnd | |].
  - intros doc _. repeat constructor; [|intros []].
    intros [H|[]]. injection H as H. congruence.
  - intros d d' [k s] _ _ [H|[H|[]]] [H'|[H'|[]]];
      injection H as _ <-; injection H' as _ <-; reflexivity.
Qed.

Lemma range_item_ids (m : JsMap.t Lsp.Location) :
  ids_are_keys m -> map id_of (range_items m) = JsMap.keys m.
Proof.
  intros Hids. unfold range_items.
  assert (H : forall ks, incl ks (JsMap.keys m) ->
    map id_of
      (flat_map (fun range => match JsMap.get range m with
                              | Some loc => [makeRange loc]
                              | None => []
                              end) ks) = ks).
  { induction ks as [|k ks IH]; intros Hincl; [reflexivity|].
    cbn [flat_map]. rewrite map_app.
    rewrite IH by (intros a Ha; apply Hincl; now right).
    destruct (get_of_key k m (Hincl k (or_introl eq_refl))) as [loc Hloc].
    rewrite Hloc. cbn [map makeRange id_of app].
    now rewrite (Hids k loc (get_in k loc m Hloc)). }
  apply H, incl_refl.
Qed.

Lemma group_ids (x : Index) (def : string) (refs : JsSet.t)
    (defLoc : Lsp.Location) :
  importMonikerByRange x = [] -> exportMonikerByRange x = [] ->
  JsMap.get def (locByRange x) = Some defLoc ->
  map id_of (group_items x (def, refs))
  = map id_of_form
      (group_forms def (has_hover (hoverByDef x) def) refs
         (reference_uris refs)).
Proof.
  intros Himp Hexp Hloc.
  rewrite (plain_group_items x def refs defLoc Himp Hexp Hloc).
  unfold group_forms, has_hover, reference_uris, emitHover.
  rewrite !map_app, !map_map.
  assert (Huris :
    map id_of
      match Lodash.groupBy refs uriOfRef with
      | Ok groups => map (referencesItem def) (Lodash.toPairs groups)
      | Throw _ => []
      end
    = map (fun uri => id_of_form (14, def ++ ":" ++ uri))
        match Lodash.groupBy refs uriOfRef with
        | Ok groups => map fst (Lodash.toPairs groups)
        | Throw _ => []
        end).
  { destruct (Lodash.groupBy refs uriOfRef) as [groups|e]; [|reflexivity].
    rewrite !map_map. apply map_ext. now intros [uri rs]. }
  rewrite Huris.
  destruct (truthy (JsMap.get def (hoverByDef x))); reflexivity.
Qed.

(** The ids of a run, by their forms. *)
Lemma ids_of_run (x : Index) :
  importMonikerByRange x = [] -> exportMonikerByRange x = [] ->
  well_formed_index x -> ids_are_keys (locByRange x) ->
  map id_of (emitted (ffff fs x))
  = ["meta"; "project"; "projectBegin"]
    +++ map id_of_form (flat_map document_begin_forms (docs x))
    +++ JsMap.keys (locByRange x)
    +++ map id_of_form
          (flat_map (fun e => group_forms (fst e)
                                (has_hover (hoverByDef x) (fst e)) (snd e)
                                (reference_uris (snd e))) (refsByDef x))
    +++ map id_of_form (flat_map document_end_forms (docs x))
    +++ ["projectContains"; "projectEnd"].
Proof.
  intros Himp Hexp Hwf Hids.
  rewrite (ffff_eq fs x (well_formed_run_succeeds fs x Hwf)).
  cbn [emitted fst]. rewrite !map_app, !map_flat_map.
  rewrite (range_item_ids _ Hids).
  rewrite (flat_map_ext_in
             (fun e => map id_of (group_items x e))
             (fun e => map id_of_form
                         (group_forms (fst e)
                            (has_hover (hoverByDef x) (fst e)) (snd e)
                            (reference_uris (snd e)))) (refsByDef x)).
  2:{ intros [def refs] He.
      destruct (get_of_key def (locByRange x) (wf_defs x Hwf def refs He))
        as [defLoc Hloc].
      exact (group_ids x def refs defLoc Himp Hexp Hloc). }
  rewrite (flat_map_ext_in
             (fun doc => map id_of (document_end_items (rangesByDoc x) doc))
             (fun doc => map id_of_form (document_end_forms doc)) (docs x)).
  2:{ intros doc Hdoc. unfold document_end_items.
      destruct (wf_docs x Hwf doc Hdoc) as [ranges ->]. reflexivity. }
  reflexivity.
Qed.

Lemma NoDup_by_components (P1 R2 K R4 R5 P6 : list string) :
  NoDup (P1 +++ P6) -> NoDup K -> NoDup (R2 +++ R4 +++ R5) ->
  (forall a, In a (P1 +++ P6) -> List.length (Js.split ":" a) = 1) ->
  (forall a, In a K -> List.length (Js.split ":" a) = 3) ->
  (forall a, In a (R2 +++ R4 +++ R5) ->
             List.length (Js.split ":" a) = 2
             \/ 4 <= List.length (Js.split ":" a)) ->
  NoDup (P1 +++ R2 +++ K +++ R4 +++ R5 +++ P6).
Proof.
  intros HP HK HR HP1 HK3 HR2.
  apply (Permutation_NoDup (l := (P1 +++ P6) +++ K +++ R2 +++ R4 +++ R5)).
  - rewrite <- app_assoc. apply Permutation_app_head.
    transitivity ((K +++ R2 +++ R4 +++ R5) +++ P6);
      [apply Permutation_app_comm|].
    rewrite <- !app_assoc. apply Permutation_app_swap_app.
  - apply NoDup_app; [exact HP | apply NoDup_app; assumption || idtac |].
    + intros a Ha Hb. specialize (HK3 a Ha). specialize (HR2 a Hb). lia.
    + intros a Ha Hb. specialize (HP1 a Ha).
      apply in_app_or in Hb as [Hb|Hb];
        [specialize (HK3 a Hb) | specialize (HR2 a Hb)]; lia.
Qed.

Lemma reference_uris_facts (refs : JsSet.t) :
  (forall ref, In ref refs ->
     exists file pos, Js.includes ":" file = false
                      /\ ref = file ++ ":" ++ stringifyPosition pos) ->
  NoDup (reference_uris refs)
  /\ forall uri, In uri (reference_uris refs) -> Js.includes ":" uri = false.
Proof.
  intros Hrefs. unfold reference_uris.
  destruct (Lodash.groupBy refs uriOfRef) as [d|e] eqn:Hd;
    [|split; [constructor | intros ? []]].
  destruct (groupBy_spec _ _ _ Hd) as (Hperm & Hnd & Hgr).
  pose proof (toPairs_perm d) as Hpairs. split.
  - apply (Permutation_NoDup (Permutation_sym (Permutation_map fst Hpairs))).
    exact Hnd.
  - intros uri Huri. apply in_map_iff in Huri as ([uri' vs] & <- & He).
    apply (Permutation_in _ Hpairs) in He. cbn [fst].
    rewrite Forall_forall in Hgr. destruct (Hgr _ He) as [Hne Hall].
    cbn [fst snd] in *. destruct vs as [|a vs]; [congruence|].
    inversion Hall as [|? ? Ha _]; subst.
    assert (Hin : In a refs).
    { apply (Permutation_in _ Hperm). apply in_flat_map.
      exists (uri', a :: vs). split; [exact He | now left]. }
    destruct (Hrefs a Hin) as (file & pos & Hfile & ->).
    unfold uriOfRef in Ha.
    rewrite parseFilePosition_of_position in Ha.
    cbn [result_bind fp_uri] in Ha.
    injection Ha as <-. now rewrite remove_char_absent.
Qed.

(** X16: when no file name has a colon, no range of the table is also a
    definition of the table, and no range has two definitions, a run of
    [writeLSIF] emits no id twice. *)
Theorem ids_are_unique_without_shared_ranges (inFileGlob root : string)
    (inFiles : list (string * list Input.Line)) :
  colon_free_input inFiles ->
  (forall row row',
     In row (table_of inFiles) -> In row' (table_of inFiles) ->
     range_key row <> def_key row'
     /\ (range_key row = range_key row' -> def_key row = def_key row')) ->
  unique_ids (emitted (writeLSIF fs inFileGlob root inFiles)).
Proof.
  intros Hcf Hrows. destruct inFiles as [|f rest] eqn:E; [constructor|].
  rewrite <- E in *. assert (Hne : inFiles <> []) by (rewrite E; discriminate).
  clear E.
  destruct (writeLSIF_run fs inFileGlob root inFiles Hne)
    as (r & Hr & Hinv & Hdoc & Hwf & -> & Hok).
  pose proof (run_ids_are_keys inFileGlob root inFiles r Hne Hcf Hr) as Hids.
  destruct (run_links inFileGlob root inFiles r) as [Horigin _].
  pose proof (table_colon_free inFiles Hcf) as Hfree.
  pose proof (table_well_formed inFiles) as Hpos.
  rewrite Forall_forall in Hfree, Hpos.
  set (x := index_of_ranges inFileGlob root inFiles r) in *.
  assert (Hrange : forall row, In row (table_of inFiles) ->
            exists file pos, Js.includes ":" file = false
                             /\ range_key row
                                = file ++ ":" ++ stringifyPosition pos).
  { intros row Hrow. destruct (Hfree row Hrow) as [Hf _].
    destruct (Hpos row Hrow) as ([pos Hs] & _).
    exists (Db.file row), pos. split; [exact Hf|].
    unfold range_key, stringifyStringLocation. now rewrite Hs. }
  assert (Hdef : forall row, In row (table_of inFiles) ->
            exists file pos, Js.includes ":" file = false
                             /\ def_key row
                                = file ++ ":" ++ stringifyPosition pos).
  { intros row Hrow. destruct (Hfree row Hrow) as [_ Hf].
    destruct (Hpos row Hrow) as (_ & _ & pos & Hs).
    exists (Db.deffile row), pos. split; [exact Hf|].
    unfold def_key, stringifyStringLocation. now rewrite Hs. }
  assert (Hkeys : forall key, In key (JsMap.keys (locByRange x)) ->
                              List.length (Js.split ":" key) = 3).
  { intros key Hkey.
    apply (run_range_keys inFiles r Hr) in Hkey as (row & Hrow & [-> | ->]);
      [destruct (Hrange row Hrow) as (file & pos & Hfile & ->)
      | destruct (Hdef row Hrow) as (file & pos & Hfile & ->)];
      now apply key_components. }
  assert (Hdocs : forall doc, In doc (docs x) -> Js.includes ":" doc = false).
  { intros doc Hin.
    apply (run_documents inFiles r Hr) in Hin as (row & Hrow & [-> | ->]);
      now destruct (Hfree row Hrow). }
  assert (Hgroup : forall def refs, In (def, refs) (refsByDef x) ->
            List.length (Js.split ":" def) = 3
            /\ (forall ref, In ref refs ->
                  exists file pos,
                    Js.includes ":" file = false
                    /\ ref = file ++ ":" ++ stringifyPosition pos)).
  { intros def refs He. destruct (Horigin def refs He) as [Hd Hrefs]. split.
    - destruct Hd as (row & Hrow & ->).
      destruct (Hdef row Hrow) as (file & pos & Hfile & ->).
      now apply key_components.
    - intros ref Href. destruct (Hrefs ref Href) as (row & Hrow & _ & ->).
      now apply Hrange. }
  unfold unique_ids.
  rewrite (ids_of_run x eq_refl eq_refl Hwf Hids).
  set (T2 := flat_map document_begin_forms (docs x)).
  set (T4 := flat_map _ (refsByDef x)).
  set (T5 := flat_map document_end_forms (docs x)).
  assert (Hnd_docs : NoDup (docs x)).
  { subst x. cbn [index_of_ranges docs]. rewrite (di_docs r Hdoc).
    exact (di_keys r Hdoc). }
  assert (H2 : forall t, In t T2 ->
                 fst t <= 1 /\ Js.includes ":" (snd t) = false).
  { intros t Ht. apply in_flat_map in Ht as (doc & Hin & [<-|[<-|[]]]);
      cbn [fst snd]; auto. }
  assert (H5 : forall t, In t T5 ->
                 2 <= fst t <= 3 /\ Js.includes ":" (snd t) = false).
  { intros t Ht. apply in_flat_map in Ht as (doc & Hin & [<-|[<-|[]]]);
      cbn [fst snd]; auto. }
  assert (H4 : forall t, In t T4 ->
                 4 <= fst t <= 14
                 /\ 3 <= List.length (Js.split ":" (snd t))).
  { intros [k s] Ht. apply in_flat_map in Ht as ([def refs] & He & Ht).
    cbn [fst snd] in *. destruct (Hgroup def refs He) as [Hd Hrefs].
    apply in_group_forms in Ht
      as [[-> Hk]|[[-> Href]|(-> & uri & Huri & ->)]].
    - split; lia.
    - destruct (Hrefs s Href) as (file & pos & Hfile & ->).
      rewrite (key_components file pos Hfile). split; lia.
    - change (":" ++ uri) with (String ":" uri).
      rewrite split_app, length_app.
      pose proof (split_length_pos ":" uri). split; lia. }
  assert (HT : NoDup (T2 +++ T4 +++ T5)).
  { apply NoDup_app; [| apply NoDup_app |].
    - now apply document_forms_NoDup.
    - apply group_forms_of_run_NoDup.
      + exact (wf_groups x Hwf).
      + exact (wf_refs x Hwf).
      + intros def refs def' refs' ref He He' Href.
        destruct (Horigin def refs He) as [_ Hrefs].
        destruct (Hrefs ref Href) as (row & Hrow & -> & ->).
        destruct (Horigin def' refs' He') as [(row' & Hrow' & ->) Hrefs'].
        split; [now destruct (Hrows row row' Hrow Hrow')|].
        intros Href'.
        destruct (Hrefs' _ Href') as (row2 & Hrow2 & Hdef2 & Hkey).
        destruct (Hrows row row2 Hrow Hrow2) as [_ H].
        rewrite Hdef2. exact (H Hkey).
      + intros def refs uri He.
        destruct (reference_uris_facts refs (proj2 (Hgroup def refs He)))
          as [_ H]. apply H.
      + intros def refs He.
        now destruct (reference_uris_facts refs (proj2 (Hgroup def refs He))).
    - now apply document_forms_NoDup.
    - intros t Ht Ht'. destruct (H4 t Ht) as [Hk _].
      destruct (H5 t Ht') as [Hk' _]. lia.
    - intros t Ht Ht'. destruct (H2 t Ht) as [Hk _].
      apply in_app_or in Ht' as [Ht'|Ht'];
        [destruct (H4 t Ht') as [Hk' _] | destruct (H5 t Ht') as [Hk' _]];
        lia. }
  assert (Hkinds : forall t, In t (T2 +++ T4 +++ T5) -> fst t < 15).
  { intros t Ht. apply in_app_or in Ht as [Ht|Ht];
      [destruct (H2 t Ht); lia|].
    apply in_app_or in Ht as [Ht|Ht];
      [destruct (H4 t Ht) | destruct (H5 t Ht)]; lia. }
  apply NoDup_by_components.
  - cbn. repeat constructor; cbn; intuition discriminate.
  - exact (wf_ranges x Hwf).
  - rewrite <- !map_app. apply NoDup_map_inj_in; [|exact HT].
    intros [k s] [k' s'] Ht Ht' H.
    destruct (id_of_form_inj k k' s s' (Hkinds _ Ht) (Hkinds _ Ht') H)
      as [-> ->].
    reflexivity.
  - intros a Ha. cbn in Ha.
    destruct Ha as [<-|[<-|[<-|[<-|[<-|[]]]]]]; reflexivity.
  - exact Hkeys.
  - intros a Ha. rewrite <- !map_app in Ha.
    apply in_map_iff in Ha as ([k s] & <- & Ht). rewrite form_components.
    pose proof (split_length_pos ":" (nth k id_stems "")) as Hstem.
    apply in_app_or in Ht as [Ht|Ht].
    + destruct (H2 _ Ht) as [Hk Hs]. cbn [fst snd] in *.
      rewrite (split_without_sep _ _ Hs). left.
      destruct k as [|[|k]]; [reflexivity | reflexivity | lia].
    + apply in_app_or in Ht as [Ht|Ht].
      * destruct (H4 _ Ht) as [_ Hs]. cbn [snd] in Hs. right. lia.
      * destruct (H5 _ Ht) as [Hk Hs]. cbn [fst snd] in *.
        rewrite (split_without_sep _ _ Hs). left.
        destruct k as [|[|[|[|k]]]]; try lia; reflexivity.
Qed.

End UniqueIds.

Lemma ids_are_unique_without_shared_ranges_witness :
  unique_ids (emitted (writeLSIF no_files "proj/*.lsif.in" "proj"
                         outside_definitions)).
Proof.
  apply (ids_are_unique_without_shared_ranges no_files "proj/*.lsif.in"
           "proj" outside_definitions).
  - repeat constructor.
  - intros row row' H H'. vm_compute in H, H'.
    destruct H as [<-|[<-|[]]]; destruct H' as [<-|[<-|[]]];
      split; (discriminate || reflexivity || (intros E; discriminate E)).
Defined.
